(** * fin-space: release lifecycle and archive placement

    A shallow embedding of the decision logic of the fin-space daemon
    (modules/disk.js, modules/utils.js, modules/rclone.js,
    modules/archive.js, modules/incoming.js) together with the properties
    its specification states about it.

    Conventions of the embedding.
    - A JavaScript number that holds a free-space reading is a [jsnum]:
      either [NaN] or a double that is an integer ([parseInt] rounds).
      Sizes in bytes and timestamps in milliseconds are integers ([Z]);
      the sub-millisecond part of [mtimeMs] and the rounding of sums of
      sizes above 2^53 are not modelled, and the properties that depend
      on such a value say that it is below 2^53.
    - A path is the list of its components, so that [path.join(p, name)]
      and the template [`${p}/${name}`] are both [p ++ [name]]; the
      normalisation of redundant separators is not modelled.
    - The filesystem is a tree of files and directories with their
      modification times.  A directory that gains or loses an entry gets
      the time of the clock, which stands still during a round.
    - The external commands ([df], [rclone], [rm], [touch]) act on the
      tree through an environment of oracles that decides what they
      print and when they fail.  [rm], [rclone] and [touch] are run
      through the shell with their paths between double quotes: they
      act on the paths they are given when these hold none of the
      characters the shell reads there; otherwise what happens is up to
      the shell, another oracle.
    - An asynchronous function is a state-passing computation that ends by
      resolving, by rejecting (or throwing), or by running out of fuel in
      the one unbounded loop of the program.  The log and the announce
      log ([logger.log], [proc_announce]) are left out: they change
      neither the control flow nor the directories the program manages. *)

From Stdlib Require Import ZArith List String Ascii Bool Lia QArith.
From Stdlib Require Import Sorted Permutation.
Import ListNotations.

Local Open Scope string_scope.
Local Open Scope list_scope.
Local Open Scope Z_scope.

(* ================================================================== *)
(** * JavaScript values and string primitives *)
(* ================================================================== *)

Module Js.

(** The result of [parseInt]: [NaN], or a double that is an integer, or
    an infinity.  The program only compares these numbers, and an
    infinity stands here as the integer 2^1024 with its sign. *)
Inductive jsnum : Type :=
| NaN
| Num (z : Z).

(** The double nearest to an integer, ties going to the even one; past
    the largest double it is the infinity. *)
Definition to_double (z : Z) : Z :=
  let a := Z.abs z in
  let bits := Z.log2 a + 1 in
  if bits <=? 53 then z
  else
    let shift := bits - 53 in
    let q := Z.shiftr a shift in
    let r := a - Z.shiftl q shift in
    let half := Z.shiftl 1 (shift - 1) in
    let q' := if (half <? r) || ((r =? half) && Z.odd q) then q + 1 else q in
    let v := Z.shiftl q' shift in
    Z.sgn z * (if 2 ^ 1024 <=? v then 2 ^ 1024 else v).

(** Relational operators; every comparison with [NaN] is false. *)
Definition lt (a b : jsnum) : bool :=
  match a, b with
  | Num x, Num y => x <? y
  | _, _ => false
  end.

Definition gt (a b : jsnum) : bool := lt b a.

Definition ge (a b : jsnum) : bool :=
  match a, b with
  | Num x, Num y => y <=? x
  | _, _ => false
  end.

(** [a < q] for a rational right-hand side (a size divided by 1024). *)
Definition ltQ (a : jsnum) (q : Q) : bool :=
  match a with
  | Num x => negb (Qle_bool q (inject_Z x))
  | NaN => false
  end.

(** White space as [String.prototype.trim], [\s] and [parseInt] see it
    (the ASCII part: TAB, LF, VT, FF, CR and space). *)
Definition is_space (c : ascii) : bool :=
  let n := nat_of_ascii c in
  ((9 <=? n)%nat && (n <=? 13)%nat) || (n =? 32)%nat.

Definition is_digit (c : ascii) : bool :=
  let n := nat_of_ascii c in
  (48 <=? n)%nat && (n <=? 57)%nat.

Definition digit_val (c : ascii) : Z := Z.of_nat (nat_of_ascii c) - 48.

Fixpoint trim_start (s : string) : string :=
  match s with
  | String c t => if is_space c then trim_start t else s
  | EmptyString => EmptyString
  end.

(** [trim_end s]: drops the trailing white space. *)
Fixpoint trim_end (s : string) : string :=
  match s with
  | EmptyString => EmptyString
  | String c t =>
      match trim_end t with
      | EmptyString => if is_space c then EmptyString else String c EmptyString
      | t' => String c t'
      end
  end.

Definition trim (s : string) : string := trim_end (trim_start s).

(** [s.split(sep)] for a one-character separator: the pieces between the
    occurrences of [sep]; never empty. *)
Fixpoint split_char (sep : ascii) (s : string) : list string :=
  match s with
  | EmptyString => [EmptyString]
  | String c t =>
      if Ascii.eqb c sep then EmptyString :: split_char sep t
      else match split_char sep t with
           | piece :: rest => String c piece :: rest
           | [] => [String c EmptyString]
           end
  end.

(** [s.split(/\s+/)]: the pieces between maximal runs of white space.  A
    leading or trailing run leaves an empty piece at that end.
    [in_run] says the previous character was white space. *)
Fixpoint split_ws_from (in_run : bool) (s : string) : list string :=
  match s with
  | EmptyString => [EmptyString]
  | String c t =>
      if is_space c then
        if in_run then split_ws_from true t
        else EmptyString :: split_ws_from true t
      else match split_ws_from false t with
           | piece :: rest => String c piece :: rest
           | [] => [String c EmptyString]
           end
  end.

Definition split_ws (s : string) : list string := split_ws_from false s.

(** [s.replace(c, '')] with a one-character string pattern: the first
    occurrence only. *)
Fixpoint remove_first (c : ascii) (s : string) : string :=
  match s with
  | EmptyString => EmptyString
  | String d t => if Ascii.eqb d c then t else String d (remove_first c t)
  end.

(** The longest prefix of decimal digits, read as a number; [None] when
    the string does not start with a digit. *)
Fixpoint digits_from (acc : Z) (seen : bool) (s : string) : option Z :=
  match s with
  | String c t =>
      if is_digit c then digits_from (10 * acc + digit_val c) true t
      else if seen then Some acc else None
  | EmptyString => if seen then Some acc else None
  end.

(** [parseInt(s, 10)]: leading white space, an optional sign, then
    digits; whatever follows the digits is ignored.  The value of the
    digits is rounded to a double. *)
Definition parseInt (s : string) : jsnum :=
  match trim_start s with
  | String "-" t =>
      match digits_from 0 false t with
      | Some n => Num (to_double (- n))
      | None => NaN
      end
  | String "+" t =>
      match digits_from 0 false t with
      | Some n => Num (to_double n)
      | None => NaN
      end
  | t =>
      match digits_from 0 false t with
      | Some n => Num (to_double n)
      | None => NaN
      end
  end.

End Js.

(* ================================================================== *)
(** * modules/disk.js: the free-space probe *)
(* ================================================================== *)

(** What the callback of [exec] receives: [err] is set when the command
    could not be run or left with a nonzero status. *)
Record ExecResult : Type := mkExec {
  exec_err : bool;
  exec_stdout : string;
  exec_stderr : string
}.

(** How a promise settles. *)
Inductive Settled (A : Type) : Type :=
| Resolved (a : A)
| Rejected.
Arguments Resolved {A} a.
Arguments Rejected {A}.

Definition LF : ascii := ascii_of_nat 10.

(** [getFreeSpace], from the output of [df -BG <device>].  An [undefined]
    fourth field makes [.replace] throw, which the [catch] turns into a
    rejection. *)
Definition getFreeSpace (r : ExecResult) : Settled Js.jsnum :=
  if exec_err r || negb (String.eqb (exec_stderr r) "") then Rejected
  else
    let output := Js.trim (exec_stdout r) in
    let lines := Js.split_char LF output in
    if (List.length lines <? 2)%nat then Rejected
    else
      let fields := Js.split_ws (nth 1 lines "") in
      match nth_error fields 3 with
      | None => Rejected
      | Some field =>
          let freeSpaceGB := Js.parseInt (Js.remove_first "G" field) in
          Resolved freeSpaceGB
      end.

Definition df_header : string :=
  "Filesystem     1G-blocks  Used Available Use% Mounted on".

Definition df_line (l : string) : string :=
  df_header ++ String LF l ++ String LF "".


(* ================================================================== *)
(** * The filesystem and the external commands *)
(* ================================================================== *)

Definition Path : Type := list string.

Definition path_eqb (p q : Path) : bool :=
  if list_eq_dec string_dec p q then true else false.

Set Warnings "-register-all".

(** A file with its modification time and size, or a directory with its
    modification time and its entries in the order [readdir] lists them. *)
Inductive node : Type :=
| File (mtimeMs : Z) (size : Z)
| Dir (mtimeMs : Z) (entries : list (string * node)).

Definition is_dir (n : node) : bool :=
  match n with Dir _ _ => true | File _ _ => false end.

Definition node_mtimeMs (n : node) : Z :=
  match n with Dir m _ => m | File m _ => m end.

Fixpoint lookup_entry (name : string) (es : list (string * node)) : option node :=
  match es with
  | [] => None
  | (n, c) :: t => if String.eqb n name then Some c else lookup_entry name t
  end.

(** Replaces the first entry called [name]. *)
Fixpoint set_entry (name : string) (c' : node) (es : list (string * node))
  : list (string * node) :=
  match es with
  | [] => []
  | (n, c) :: t =>
      if String.eqb n name then (n, c') :: t else (n, c) :: set_entry name c' t
  end.

Fixpoint remove_entry (name : string) (es : list (string * node))
  : list (string * node) :=
  match es with
  | [] => []
  | (n, c) :: t =>
      if String.eqb n name then remove_entry name t else (n, c) :: remove_entry name t
  end.

(** The node a path leads to, from the root. *)
Fixpoint resolve (p : Path) (n : node) : option node :=
  match p with
  | [] => Some n
  | name :: rest =>
      match n with
      | Dir _ es =>
          match lookup_entry name es with
          | Some c => resolve rest c
          | None => None
          end
      | File _ _ => None
      end
  end.

(** The tree without whatever [p] leads to (the root itself stays).  The
    directory that loses the entry gets the time [now], as [unlink],
    [rmdir] and [rm] leave it; when nothing is at [p] nothing changes. *)
Fixpoint remove_at (now : Z) (p : Path) (n : node) : node :=
  match p with
  | [] => n
  | name :: rest =>
      match n with
      | File _ _ => n
      | Dir m es =>
          match lookup_entry name es with
          | Some c =>
              match rest with
              | [] => Dir now (remove_entry name es)
              | _ :: _ => Dir m (set_entry name (remove_at now rest c) es)
              end
          | None => n
          end
      end
  end.

(** The tree with [t] at [p]; missing directories on the way are created
    with the time [now], and the directory that gains an entry gets the
    time [now] too; what replaces an existing entry leaves the time of
    its directory alone.  Fails when the way leads through a file. *)
Fixpoint write_at (now : Z) (p : Path) (t : node) (n : node) : option node :=
  match p with
  | [] => Some t
  | name :: rest =>
      match n with
      | File _ _ => None
      | Dir m es =>
          match lookup_entry name es with
          | Some c =>
              match write_at now rest t c with
              | Some c' => Some (Dir m (set_entry name c' es))
              | None => None
              end
          | None =>
              match write_at now rest t (Dir now []) with
              | Some c' => Some (Dir now (es ++ [(name, c')]))
              | None => None
              end
          end
      end
  end.

Definition parent (p : Path) : Path := removelast p.

(** The commands the program runs that change the filesystem, with the
    paths as the program hands them over. *)
Inductive Event : Type :=
| EvDelete (p : Path)                               (* deleteDirectory(p) *)
| EvWipe (p : Path)                                 (* rm -rf p *)
| EvRclone (src : Path) (name : string) (dst : Path)  (* rclone copy *)
| EvTouch (p : Path) (seconds : Z).                 (* touch -d @seconds p *)

(** [execSync] hands its command line to [/bin/sh], with the paths
    between double quotes and not escaped.  There the shell still reads
    [$], the backquote, the double quote and the backslash (and a
    command line holds no NUL): a text without them is taken as it is
    written. *)
Definition shell_special (c : ascii) : bool :=
  let n := nat_of_ascii c in
  (n =? 0)%nat || (n =? 34)%nat || (n =? 36)%nat || (n =? 92)%nat
  || (n =? 96)%nat.

Definition shell_safe (s : string) : bool :=
  forallb (fun c => negb (shell_special c)) (list_ascii_of_string s).

(** A component that a command takes for the name of one entry: safe
    for the shell, not empty, neither [.] nor [..], without [/]. *)
Definition plain (c : string) : bool :=
  shell_safe c
  && negb (String.eqb c "") && negb (String.eqb c ".")
  && negb (String.eqb c "..")
  && forallb (fun ch => negb (Ascii.eqb ch "/")) (list_ascii_of_string c).

(** A path that a command acts on as the list of its components says:
    they are all plain, and the first does not look like an option. *)
Definition literal (p : Path) : bool :=
  forallb plain p
  && match p with
     | c :: _ => negb (String.prefix "-" c)
     | [] => true
     end.

(** The world outside the program: the clock ([Date.now()], which stands
    still during a round, so that whatever the round changes is stamped
    with it), what [df -BG] prints for a device given the contents of
    the disks, what [rclone copy] writes at the destination for a source
    tree ([None]: it exits with an error), the paths that cannot be read
    ([readdir] of such a directory throws, and so does [stat] of such a
    file), the paths that cannot be removed or touched, and what the
    shell makes of a command whose paths it does not take literally: the
    disks afterwards and whether the command ended with status 0. *)
Record Env : Type := mkEnv {
  now : Z;
  df : node -> string -> ExecResult;
  rclone : node -> option node;
  unreadable : Path -> bool;
  denied : Path -> bool;
  shell : Event -> node -> node * bool
}.

Record State : Type := mkState {
  fs : node;
  trace : list Event
}.

(** How a call ends: it returns (the promise resolves), it throws (the
    promise rejects), or the fuel of a loop ran out. *)
Inductive Outcome (A : Type) : Type :=
| Ok (a : A)
| Throw
| OutOfFuel.
Arguments Ok {A} a.
Arguments Throw {A}.
Arguments OutOfFuel {A}.

Definition M (A : Type) : Type := State -> Outcome A * State.

Definition ret {A} (a : A) : M A := fun s => (Ok a, s).

Definition bind {A B} (m : M A) (k : A -> M B) : M B :=
  fun s =>
    match m s with
    | (Ok a, s') => k a s'
    | (Throw, s') => (Throw, s')
    | (OutOfFuel, s') => (OutOfFuel, s')
    end.

(** [try { m } catch (err) { h }] *)
Definition try_catch {A} (m : M A) (h : M A) : M A :=
  fun s =>
    match m s with
    | (Throw, s') => h s'
    | r => r
    end.

(** Reads the filesystem without changing it. *)
Definition reads {A} (f : node -> A) : M A := fun s => (Ok (f (fs s)), s).

(** Awaits a promise computed from the filesystem. *)
Definition await {A} (f : node -> Settled A) : M A :=
  fun s =>
    match f (fs s) with
    | Resolved a => (Ok a, s)
    | Rejected => (Throw, s)
    end.

(** Awaits an [fs] call that fails with an exception. *)
Definition await_opt {A} (f : node -> option A) : M A :=
  fun s =>
    match f (fs s) with
    | Some a => (Ok a, s)
    | None => (Throw, s)
    end.

Definition emit (e : Event) : M unit :=
  fun s => (Ok tt, mkState (fs s) (trace s ++ [e])).

Notation "x <- m ;; k" := (bind m (fun x => k))
  (at level 61, m at next level, right associativity).
Notation "m ;;; k" := (bind m (fun _ => k))
  (at level 61, right associativity).

(* ================================================================== *)
(** * Configuration and releases *)
(* ================================================================== *)

(** An entry of [incomingDisksSections] or [archiveDisksSections]:
    [{path, device, section, dated?}]. *)
Record Section_ : Type := mkSection {
  sec_path : Path;
  sec_device : string;
  sec_section : string;
  sec_dated : bool
}.

Record Config : Type := mkConfig {
  incomingDisksSections : list Section_;
  archiveDisksSections : list Section_;
  freeSpaceLimitGBRace : Z;
  freeSpaceLimitGBArchive : Z;
  archiveBufferGB : Z;
  debug : bool
}.

(** What a scan returns for a directory:
    [{path, name, mtime, size, section}]. *)
Record Release : Type := mkRelease {
  rel_path : Path;
  rel_name : string;
  rel_mtime : Z;
  rel_size : Z;
  rel_section : string
}.

(** [fs.Dirent] and [fs.Stats], as far as the program reads them. *)
Record Dirent : Type := mkDirent {
  d_name : string;
  d_isDirectory : bool
}.

Record Stats : Type := mkStats {
  st_mtimeMs : Z;
  st_size : Z
}.

Section Program.

Variable env : Env.

(* ------------------------------------------------------------------ *)
(** ** Reading the filesystem *)

(** [fs.readdir(p, { withFileTypes: true })]; [None] when it throws. *)
Definition readdir (root : node) (p : Path) : option (list Dirent) :=
  if unreadable env p then None
  else match resolve p root with
       | Some (Dir _ es) =>
           Some (map (fun e => mkDirent (fst e) (is_dir (snd e))) es)
       | _ => None
       end.

(** [fs.stat(p)]; [None] when it throws. *)
Definition stat (root : node) (p : Path) : option Stats :=
  match resolve p root with
  | Some (Dir m _) => Some (mkStats m 0)
  | Some (File m sz) => Some (mkStats m sz)
  | None => None
  end.

(** [getFreeSpace(device)] on the current contents of the disks. *)
Definition probe (root : node) (device : string) : Settled Js.jsnum :=
  getFreeSpace (df env root device).

(* ------------------------------------------------------------------ *)
(** ** modules/utils.js *)

(** The recursion of [getDirectorySize] below a node that exists at [p]:
    a file counts its size, a directory the sum over its entries; a file
    whose [stat] throws and a directory that cannot be listed count 0. *)
Fixpoint tree_size (p : Path) (n : node) : Z :=
  match n with
  | File _ sz => if unreadable env p then 0 else sz
  | Dir _ es =>
      if unreadable env p then 0
      else (fix sum (es : list (string * node)) : Z :=
              match es with
              | [] => 0
              | (name, c) :: t => tree_size (p ++ [name]) c + sum t
              end) es
  end.

(** [getDirectorySize(dirPath)]: 0 when [dirPath] cannot be listed. *)
Definition getDirectorySize (root : node) (dirPath : Path) : Z :=
  match resolve dirPath root with
  | Some (Dir m es) => tree_size dirPath (Dir m es)
  | _ => 0
  end.

Definition oneDayInMs : Z := 24 * 60 * 60 * 1000.

(** [isOlderThanOneDay(dirPath)] *)
Definition isOlderThanOneDay (root : node) (dirPath : Path) : bool :=
  match stat root dirPath with
  | Some stats => now env - st_mtimeMs stats >? oneDayInMs
  | None => false
  end.

(** [isDirectoryEmpty(dirPath)] *)
Definition isDirectoryEmpty (root : node) (dirPath : Path) : bool :=
  match readdir root dirPath with
  | Some files => (List.length files =? 0)%nat
  | None => false
  end.

(** [/^\d+$/.test(name)], the filter of [getIncomingReleases]. *)
Definition numeric_name (name : string) : bool :=
  match name with
  | EmptyString => false
  | _ => forallb Js.is_digit (list_ascii_of_string name)
  end.

(** [list.sort((a, b) => a.mtime - b.mtime)]; the sort is stable, equal
    times keep their order. *)
Fixpoint insert_by_mtime (x : Release) (l : list Release) : list Release :=
  match l with
  | [] => [x]
  | y :: t =>
      if rel_mtime x <=? rel_mtime y then x :: y :: t
      else y :: insert_by_mtime x t
  end.

Fixpoint sort_by_mtime (l : list Release) : list Release :=
  match l with
  | [] => []
  | x :: t => insert_by_mtime x (sort_by_mtime t)
  end.

(** The body of the [directories.map] callback of [findOldestDirectory]:
    [None] is the [null] of a skipped or failing directory. *)
Definition scanDirectory (root : node) (s : Section_) (dir : Path * string)
  : option Release :=
  match stat root (fst dir) with
  | None => None
  | Some stats =>
      let size := getDirectorySize root (fst dir) in
      if sec_dated s && negb (isOlderThanOneDay root (fst dir)) then None
      else Some (mkRelease (fst dir) (snd dir) (st_mtimeMs stats) size
                           (sec_section s))
  end.

Fixpoint not_null {A} (l : list (option A)) : list A :=
  match l with
  | [] => []
  | Some a :: t => a :: not_null t
  | None :: t => not_null t
  end.

(** [validDirectories] of one pass of the loop of [findOldestDirectory];
    a section that cannot be listed contributes nothing (the [continue]
    of the [catch]), and so does one without directories. *)
Definition validDirectories (root : node) (s : Section_) : list Release :=
  match readdir root (sec_path s) with
  | None => []
  | Some entries =>
      let directories :=
        map (fun entry => (sec_path s ++ [d_name entry], d_name entry))
            (filter d_isDirectory entries) in
      let directoriesWithStats := map (scanDirectory root s) directories in
      not_null directoriesWithStats
  end.

(** One pass of the loop: the [continue] of a section without a valid
    directory, otherwise the comparison with the running minimum. *)
Definition scanSection (root : node) (globalOldestRelease : option Release)
  (s : Section_) : option Release :=
  match sort_by_mtime (validDirectories root s) with
  | [] => globalOldestRelease
  | oldestRelease :: _ =>
      match globalOldestRelease with
      | None => Some oldestRelease
      | Some g =>
          if rel_mtime oldestRelease <? rel_mtime g then Some oldestRelease
          else globalOldestRelease
      end
  end.

(** [findOldestDirectory(sections)] *)
Definition findOldestDirectory (root : node) (sections : list Section_)
  : option Release :=
  fold_left (scanSection root) sections None.

Definition getOldestIncomingRelease := findOldestDirectory.
Definition getOldestArchiveRelease := findOldestDirectory.

(* ------------------------------------------------------------------ *)
(** ** Changing the filesystem *)

Definition set_mtime (m : Z) (n : node) : node :=
  match n with
  | File _ sz => File m sz
  | Dir _ es => Dir m es
  end.

Definition replace_at (p : Path) (t : node) (root : node) : node :=
  match write_at (now env) p t root with
  | Some root' => root'
  | None => root
  end.

(** What the recursion of [deleteDirectory] leaves of a node at [p]:
    [None] when everything went ([unlink] for a file; for a directory
    every entry, then [rmdir]), otherwise the remainder after a failure.
    All entries are attempted ([Promise.all] starts them all); [rmdir] is
    reached only when none of them failed.  A directory that lost an
    entry has the time [now]. *)
Fixpoint rm_tree (p : Path) (n : node) : option node :=
  match n with
  | File _ _ => if denied env p then Some n else None
  | Dir m es =>
      if unreadable env p then Some n
      else
        let left :=
          (fix each (es : list (string * node)) : list (string * node) :=
             match es with
             | [] => []
             | (name, c) :: t =>
                 match rm_tree (p ++ [name]) c with
                 | None => each t
                 | Some r => (name, r) :: each t
                 end
             end) es in
        let m' := if (List.length left <? List.length es)%nat then now env
                  else m in
        match left with
        | [] => if denied env p then Some (Dir m' []) else None
        | _ :: _ => Some (Dir m' left)
        end
  end.

(** [deleteDirectory(dirPath)]: throws when the directory cannot be
    listed or something below it cannot be removed. *)
Definition deleteDirectory (dirPath : Path) : M unit :=
  emit (EvDelete dirPath) ;;;
  fun s =>
    match resolve dirPath (fs s) with
    | Some (Dir m es) =>
        match rm_tree dirPath (Dir m es) with
        | None => (Ok tt, mkState (remove_at (now env) dirPath (fs s)) (trace s))
        | Some r => (Throw, mkState (replace_at dirPath r (fs s)) (trace s))
        end
    | _ => (Throw, s)
    end.

(* ------------------------------------------------------------------ *)
(** ** modules/rclone.js *)

(** A command whose paths the shell does not take literally: what it
    does is up to the shell; [execSync] throws on a nonzero status. *)
Definition run_shell (e : Event) : M unit :=
  fun s =>
    let (root', ok) := shell env e (fs s) in
    (if ok then Ok tt else Throw, mkState root' (trace s)).

(** [rcloneSync(sourcePath, sourceName, destinationPath)] *)
Definition rcloneSync (config : Config) (sourcePath : Path) (sourceName : string)
  (destinationPath : Path) : M unit :=
  if debug config then ret tt
  else
    emit (EvRclone sourcePath sourceName destinationPath) ;;;
    let source := sourcePath ++ [sourceName] in
    let destination := destinationPath ++ [sourceName] in
    if literal source && literal destination then
      fun s =>
        match resolve source (fs s) with
        | Some (Dir m es) =>
            if unreadable env source then (Throw, s)
            else
              match rclone env (Dir m es) with
              | Some copied =>
                  match write_at (now env) destination copied (fs s) with
                  | Some root' => (Ok tt, mkState root' (trace s))
                  | None => (Throw, s)
                  end
              | None => (Throw, s)
              end
        | _ => (Throw, s)
        end
    else run_shell (EvRclone sourcePath sourceName destinationPath).

(** [setTimestamp(destination, timestamp)]: [touch] sets the time of what
    is there and creates an empty file when nothing is. *)
Definition setTimestamp (config : Config) (destination : Path) (timestamp : Z)
  : M unit :=
  if debug config then ret tt
  else
    emit (EvTouch destination timestamp) ;;;
    if literal destination then
      fun s =>
        if denied env destination then (Throw, s)
        else
          match resolve destination (fs s) with
          | Some n =>
              (Ok tt, mkState (replace_at destination
                                 (set_mtime (timestamp * 1000) n) (fs s))
                              (trace s))
          | None =>
              match resolve (parent destination) (fs s) with
              | Some (Dir _ _) =>
                  (Ok tt, mkState (replace_at destination
                                     (File (timestamp * 1000) 0) (fs s))
                                  (trace s))
              | _ => (Throw, s)
              end
          end
    else run_shell (EvTouch destination timestamp).

(** [wipeDestination(destinationPath, releaseName)]: [rm -rf]. *)
Definition wipeDestination (destinationPath : Path) (releaseName : string)
  : M unit :=
  let fullPath := destinationPath ++ [releaseName] in
  emit (EvWipe fullPath) ;;;
  if literal fullPath then
    fun s =>
      if denied env fullPath then (Throw, s)
      else (Ok tt, mkState (remove_at (now env) fullPath (fs s)) (trace s))
  else run_shell (EvWipe fullPath).

(** [verifyFileCount(source, destination)]: compares the numbers of
    top-level entries; any failure to list is caught and gives [false]. *)
Definition verifyFileCount (source destination : Path) : M bool :=
  try_catch
    (sourceFiles <- await_opt (fun root => readdir root source) ;;
     destFiles <- await_opt (fun root => readdir root destination) ;;
     ret (List.length sourceFiles =? List.length destFiles)%nat)
    (ret false).

(* ------------------------------------------------------------------ *)
(** ** modules/archive.js *)

(** The grouping of the sections by device is an object filled by
    [reduce], [acc[device] = acc[device] || []] and then [push], and
    read by [Object.entries].

    Every object inherits some names from [Object.prototype]: for a
    device of such a name [acc[device]] is the inherited value, not
    [undefined], and [push] throws. *)
Definition inherited_key (key : string) : bool :=
  existsb (String.eqb key)
          ["constructor"; "hasOwnProperty"; "isPrototypeOf";
           "propertyIsEnumerable"; "toLocaleString"; "toString"; "valueOf";
           "__proto__"; "__defineGetter__"; "__defineSetter__";
           "__lookupGetter__"; "__lookupSetter__"].

Fixpoint group_add (section : Section_) (acc : list (string * list Section_))
  : list (string * list Section_) :=
  match acc with
  | [] => [(sec_device section, [section])]
  | (d, l) :: t =>
      if String.eqb d (sec_device section) then (d, l ++ [section]) :: t
      else (d, l) :: group_add section t
  end.

(** [Object.entries] lists the keys that are array indices first, in
    ascending order, then the other keys in the order of their
    creation.  An array index is the canonical numeral of a number below
    2^32 - 1. *)
Definition array_index (key : string) : option Z :=
  match key with
  | EmptyString => None
  | String c t =>
      if forallb Js.is_digit (list_ascii_of_string key)
         && (negb (Ascii.eqb c "0") || String.eqb t "")
      then match Js.digits_from 0 false key with
           | Some n => if n <? 4294967295 then Some n else None
           | None => None
           end
      else None
  end.

Definition is_index (key : string) : bool :=
  match array_index key with Some _ => true | None => false end.

Fixpoint insert_entry {A} (i : Z) (e : string * A) (l : list (Z * (string * A)))
  : list (Z * (string * A)) :=
  match l with
  | [] => [(i, e)]
  | (j, e') :: t =>
      if i <? j then (i, e) :: l else (j, e') :: insert_entry i e t
  end.

Fixpoint indexed_entries {A} (o : list (string * A)) : list (Z * (string * A)) :=
  match o with
  | [] => []
  | e :: t =>
      match array_index (fst e) with
      | Some i => insert_entry i e (indexed_entries t)
      | None => indexed_entries t
      end
  end.

Definition object_entries {A} (o : list (string * A)) : list (string * A) :=
  map snd (indexed_entries o) ++ filter (fun e => negb (is_index (fst e))) o.

(** [Object.entries(disks)]; [None] when the [reduce] throws. *)
Definition group_by_device (sections : list Section_)
  : option (list (string * list Section_)) :=
  if existsb (fun section => inherited_key (sec_device section)) sections
  then None
  else Some (object_entries
               (fold_left (fun acc section => group_add section acc) sections [])).

(** The [while] loop of [manageArchiveDiskSpace] for one device; it
    returns [cleanupPerformed].  A [break] ends it, also the one of the
    [catch]. *)
Fixpoint cleanupLoop (fuel : nat) (config : Config) (device : string)
  (sections : list Section_) (freeSpace : Js.jsnum) (cleanupPerformed : bool)
  : M bool :=
  match fuel with
  | O => fun s => (OutOfFuel, s)
  | S fuel' =>
      if Js.lt freeSpace (Js.Num (freeSpaceLimitGBArchive config)) then
        oldestRelease <- reads (fun root => getOldestArchiveRelease root sections) ;;
        match oldestRelease with
        | None => ret cleanupPerformed
        | Some oldest =>
            next <- try_catch
                      (if negb (debug config) then
                         deleteDirectory (rel_path oldest) ;;;
                         freeSpace' <- await (fun root => probe root device) ;;
                         ret (Some (freeSpace', true))
                       else ret (Some (freeSpace, cleanupPerformed)))
                      (ret None) ;;
            match next with
            | None => ret cleanupPerformed
            | Some (freeSpace', cleanupPerformed') =>
                cleanupLoop fuel' config device sections freeSpace'
                            cleanupPerformed'
            end
        end
      else ret cleanupPerformed
  end.

(** The [for] loop of [manageArchiveDiskSpace] over the devices. *)
Fixpoint cleanupDisks (fuel : nat) (config : Config)
  (disks : list (string * list Section_)) (cleanupPerformed : bool) : M bool :=
  match disks with
  | [] => ret cleanupPerformed
  | (device, sections) :: rest =>
      freeSpace <- await (fun root => probe root device) ;;
      if Js.ge freeSpace (Js.Num (freeSpaceLimitGBArchive config)) then
        cleanupDisks fuel config rest cleanupPerformed
      else
        cleanupPerformed' <- cleanupLoop fuel config device sections freeSpace
                                         cleanupPerformed ;;
        cleanupDisks fuel config rest cleanupPerformed'
  end.

(** [manageArchiveDiskSpace(config)] *)
Definition manageArchiveDiskSpace (fuel : nat) (config : Config) : M bool :=
  disks <- await_opt (fun _ => group_by_device (archiveDisksSections config)) ;;
  cleanupDisks fuel config disks false.

(** [manageArchiveSpace(config)] *)
Definition manageArchiveSpace (fuel : nat) (config : Config) : M bool :=
  manageArchiveDiskSpace fuel config.

(** The loop of [manageArchive] that looks for the archive section with
    the most free space; a failing probe is caught and skipped. *)
Fixpoint mostFreeLoop (root : node) (sections : list Section_)
  (bestSection : option Section_) (mostFreeSpace : Js.jsnum)
  : option Section_ * Js.jsnum :=
  match sections with
  | [] => (bestSection, mostFreeSpace)
  | archiveSection :: rest =>
      match probe root (sec_device archiveSection) with
      | Resolved freeSpace =>
          if Js.gt freeSpace mostFreeSpace then
            mostFreeLoop root rest (Some archiveSection) freeSpace
          else mostFreeLoop root rest bestSection mostFreeSpace
      | Rejected => mostFreeLoop root rest bestSection mostFreeSpace
      end
  end.

(** [manageArchive(config, incomingRelease)] *)
Definition manageArchive (fuel : nat) (config : Config)
  (incomingRelease : option Release) : M bool :=
  match incomingRelease with
  | None => manageArchiveSpace fuel config ;;; ret false
  | Some release =>
      match find (fun section =>
                    path_eqb (rel_path release)
                             (sec_path section ++ [rel_name release]))
                 (incomingDisksSections config) with
      | None => ret false
      | Some incomingSection =>
          let releaseSection := sec_section incomingSection in
          let matchingArchiveSections :=
            filter (fun section => String.eqb (sec_section section) releaseSection)
                   (archiveDisksSections config) in
          if (List.length matchingArchiveSections =? 0)%nat then ret false
          else
            best <- reads (fun root =>
                             mostFreeLoop root (archiveDisksSections config)
                                          None (Js.Num 0)) ;;
            match best with
            | (None, _) => ret false
            | (Some bestSection, mostFreeSpace) =>
                let releaseSizeInGB := (inject_Z (rel_size release) / 1024)%Q in
                if Js.ltQ mostFreeSpace
                          (releaseSizeInGB + inject_Z (archiveBufferGB config))%Q
                then ret false
                else
                  try_catch
                    (let sourcePath := sec_path incomingSection in
                     let sourceName := rel_name release in
                     let destinationPath := sec_path bestSection in
                     if negb (debug config) then
                       wipeDestination destinationPath sourceName ;;;
                       rcloneSync config sourcePath sourceName destinationPath ;;;
                       let sourceFullPath := sourcePath ++ [sourceName] in
                       let destFullPath := destinationPath ++ [sourceName] in
                       isVerified <- verifyFileCount sourceFullPath destFullPath ;;
                       if negb isVerified then ret false
                       else
                         sourceStats <- await_opt (fun root => stat root sourceFullPath) ;;
                         setTimestamp config destFullPath
                                      (st_mtimeMs sourceStats / 1000) ;;;
                         wipeDestination sourcePath sourceName ;;;
                         ret true
                     else ret true)
                    (ret false)
            end
      end
  end.

(* ------------------------------------------------------------------ *)
(** ** modules/incoming.js *)

(** A [try] block that may [return]: [Some b] is [return b], [None] lets
    the function go on after the block. *)
Definition returning (early : option bool) (rest : M bool) : M bool :=
  match early with
  | Some b => ret b
  | None => rest
  end.

(** The re-reading of the free space that ends each action of
    [manageIncoming], with its early [return true]. *)
Definition recheck (config : Config) (device : string) : M (option bool) :=
  freeSpace <- await (fun root => probe root device) ;;
  if Js.ge freeSpace (Js.Num (freeSpaceLimitGBRace config)) then ret (Some true)
  else ret None.

(** [manageIncoming(config, incomingSection)] *)
Definition manageIncoming (config : Config) (incomingSection : Section_)
  : M bool :=
  let device := sec_device incomingSection in
  freeSpace <- await (fun root => probe root device) ;;
  if Js.ge freeSpace (Js.Num (freeSpaceLimitGBRace config)) then ret false
  else
    oldestRelease <- reads (fun root =>
                              getOldestIncomingRelease root
                                (incomingDisksSections config)) ;;
    match oldestRelease with
    | None => ret false
    | Some oldest =>
        let releasePath := rel_path oldest in
        let size := rel_size oldest in
        let releaseSection := rel_section oldest in
        isEmpty <- reads (fun root => isDirectoryEmpty root releasePath) ;;
        early <- (if isEmpty then
                    try_catch
                      (if negb (debug config) then
                         deleteDirectory releasePath ;;;
                         recheck config device
                       else ret None)
                      (ret (Some false))
                  else ret None) ;;
        returning early
          (match find (fun archive => String.eqb (sec_section archive) releaseSection)
                      (archiveDisksSections config) with
           | Some archiveSection =>
               archiveFreeSpace <- await (fun root =>
                                            probe root (sec_device archiveSection)) ;;
               if Js.ltQ archiveFreeSpace
                         (inject_Z size / 1024 / 1024
                          + inject_Z (archiveBufferGB config))%Q
               then ret false
               else
                 early <- try_catch
                            (if negb (debug config) then
                               manageArchive 0 config
                                 (Some (mkRelease (rel_path oldest) (rel_name oldest)
                                                  (rel_mtime oldest) (rel_size oldest)
                                                  releaseSection)) ;;;
                               recheck config device
                             else ret None)
                            (ret (Some false)) ;;
                 returning early (ret true)
           | None =>
               early <- try_catch
                          (if negb (debug config) then
                             deleteDirectory releasePath ;;;
                             recheck config device
                           else ret None)
                          (ret (Some false)) ;;
               returning early (ret true)
           end)
    end.

End Program.

(* ================================================================== *)
(** * The rest of modules/utils.js and the main loop *)
(* ================================================================== *)

(** What [getIncomingReleases] returns for a directory:
    [{path, name, mtime}]. *)
Record IncomingDir : Type := mkIncomingDir {
  inc_path : Path;
  inc_name : string;
  inc_mtime : Z
}.

Section ProgramRest.

Variable env : Env.

(** [list.sort((a, b) => a.mtime - b.mtime)] on the directories of
    [getIncomingReleases]; stable. *)
Fixpoint insert_dir (x : IncomingDir) (l : list IncomingDir) : list IncomingDir :=
  match l with
  | [] => [x]
  | y :: t =>
      if inc_mtime x <=? inc_mtime y then x :: y :: t
      else y :: insert_dir x t
  end.

Fixpoint sort_dirs (l : list IncomingDir) : list IncomingDir :=
  match l with
  | [] => []
  | x :: t => insert_dir x (sort_dirs t)
  end.

(** [Promise.all] of promises that resolve or reject: the values when
    all resolve, [None] when one rejects. *)
Fixpoint all_resolved {A} (l : list (option A)) : option (list A) :=
  match l with
  | [] => Some []
  | Some a :: t =>
      match all_resolved t with
      | Some r => Some (a :: r)
      | None => None
      end
  | None :: _ => None
  end.

(** [getIncomingReleases(sectionPath, dated)]: the directories of a
    section, with numeric names only when [dated], oldest first; [[]]
    when the section cannot be listed or a [stat] fails. *)
Definition getIncomingReleases (root : node) (sectionPath : Path) (dated : bool)
  : list IncomingDir :=
  match readdir env root sectionPath with
  | None => []
  | Some entries =>
      let directories :=
        map (fun entry => (sectionPath ++ [d_name entry], d_name entry))
            (filter d_isDirectory entries) in
      let directories :=
        if dated then filter (fun dir => numeric_name (snd dir)) directories
        else directories in
      if (List.length directories =? 0)%nat then []
      else
        match all_resolved
                (map (fun dir =>
                        match stat root (fst dir) with
                        | Some stats =>
                            Some (mkIncomingDir (fst dir) (snd dir)
                                                (st_mtimeMs stats))
                        | None => None
                        end) directories) with
        | Some directoriesWithStats => sort_dirs directoriesWithStats
        | None => []
        end
  end.

(** [releaseExistsInArchive(archivePath, releaseName)] *)
Definition releaseExistsInArchive (root : node) (archivePath : Path)
  (releaseName : string) : bool :=
  match readdir env root archivePath with
  | Some entries =>
      existsb (fun entry =>
                 d_isDirectory entry && String.eqb (d_name entry) releaseName)
              entries
  | None => false
  end.

(** The first [for] loop of a round of [main]: every incoming section in
    turn; it returns [spaceFreed]. *)
Fixpoint manageIncomingSections (config : Config) (sections : list Section_)
  (spaceFreed : bool) : M bool :=
  match sections with
  | [] => ret spaceFreed
  | incomingSection :: rest =>
      actionTaken <- manageIncoming env config incomingSection ;;
      manageIncomingSections config rest
                             (if actionTaken then true else spaceFreed)
  end.

(** The second [for] loop: an archive section without path or device is
    passed over; one whose device is below the archive limit starts the
    reclaimer through [manageArchive(config, null)]. *)
Fixpoint manageArchiveSections (fuel : nat) (config : Config)
  (sections : list Section_) (spaceFreed : bool) : M bool :=
  match sections with
  | [] => ret spaceFreed
  | archiveSection :: rest =>
      if path_eqb (sec_path archiveSection) []
         || String.eqb (sec_device archiveSection) "" then
        manageArchiveSections fuel config rest spaceFreed
      else
        freeSpace <- await (fun root => probe env root (sec_device archiveSection)) ;;
        if Js.lt freeSpace (Js.Num (freeSpaceLimitGBArchive config)) then
          actionTaken <- manageArchive env fuel config None ;;
          manageArchiveSections fuel config rest
                                (if actionTaken then true else spaceFreed)
        else manageArchiveSections fuel config rest spaceFreed
  end.

(** One round of the [while (true)] loop of [main], without the waiting:
    whatever is thrown inside the round is caught and ends it. *)
Definition mainRound (fuel : nat) (config : Config) : M unit :=
  try_catch
    (spaceFreed <- manageIncomingSections config (incomingDisksSections config)
                                          false ;;
     manageArchiveSections fuel config (archiveDisksSections config) spaceFreed ;;;
     ret tt)
    (ret tt).

End ProgramRest.

(* ================================================================== *)
(** * The vocabulary of the properties *)
(* ================================================================== *)

(** [r] is in [l], nothing before it is as old, nothing after it is
    older: the earliest release, the first seen on ties. *)
Definition first_earliest (r : Release) (l : list Release) : Prop :=
  exists before after,
    l = before ++ r :: after
    /\ Forall (fun c => rel_mtime r < rel_mtime c) before
    /\ Forall (fun c => rel_mtime r <= rel_mtime c) after.

(** What the scan holds after the sections seen so far. *)
Definition scanned (g : option Release) (seen : list Release) : Prop :=
  match g with
  | None => seen = []
  | Some r => first_earliest r seen
  end.

(** What the scan makes of an entry of the listing of a section: the
    release [r], when the entry is a directory, [stat] can read it and,
    in a [dated] section, it was last modified more than a day ago. *)
Definition candidate (env : Env) (root : node) (s : Section_) (entry : Dirent)
  (r : Release) : Prop :=
  d_isDirectory entry = true
  /\ exists stats,
       stat root (sec_path s ++ [d_name entry]) = Some stats
       /\ (sec_dated s = true -> now env - st_mtimeMs stats > oneDayInMs)
       /\ r = mkRelease (sec_path s ++ [d_name entry]) (d_name entry)
                        (st_mtimeMs stats)
                        (getDirectorySize env root (sec_path s ++ [d_name entry]))
                        (sec_section s).

(** [r] is a candidate of one of the [sections]: of an entry that
    [readdir] lists there. *)
Definition candidate_in (env : Env) (root : node) (sections : list Section_)
  (r : Release) : Prop :=
  exists s entries entry,
    In s sections
    /\ readdir env root (sec_path s) = Some entries
    /\ In entry entries
    /\ candidate env root s entry r.

Section ChoiceSpec.

Variable env : Env.
Variable root : node.

(** The free space a probe of the section's device reports, when the
    probe succeeds with a number. *)
Definition reading (s : Section_) : option Z :=
  match probe env root (sec_device s) with
  | Resolved (Js.Num f) => Some f
  | _ => None
  end.

(** [best] is a section of [sections] with [free] gigabytes free; no
    section before it has as much, none after it has more. *)
Definition most_free (sections : list Section_) (best : Section_) (free : Z)
  : Prop :=
  exists before after,
    sections = before ++ best :: after
    /\ reading best = Some free
    /\ (forall s g, In s before -> reading s = Some g -> g < free)
    /\ (forall s g, In s after -> reading s = Some g -> g <= free).

(** What the loop holds after the sections seen so far. *)
Definition chosen (seen : list Section_) (best : option Section_) (most : Z)
  : Prop :=
  match best with
  | None => most = 0 /\ forall s g, In s seen -> reading s = Some g -> g <= 0
  | Some b => 0 < most /\ most_free seen b most
  end.

End ChoiceSpec.

(** Every command that [m] adds to the trace satisfies [P]. *)
Definition emits {A} (P : Event -> Prop) (m : M A) : Prop :=
  forall s o s', m s = (o, s') ->
    forall e, In e (trace s') -> In e (trace s) \/ P e.

(** The number of files and directories of a tree. *)
Fixpoint nodes (n : node) : nat :=
  match n with
  | File _ _ => 1
  | Dir _ es =>
      S ((fix sum (es : list (string * node)) : nat :=
            match es with
            | [] => 0%nat
            | (_, c) :: t => (nodes c + sum t)%nat
            end) es)
  end.

Definition entries_nodes (es : list (string * node)) : nat :=
  fold_right (fun e acc => nodes (snd e) + acc)%nat 0%nat es.

(** [m] leaves the filesystem and the trace as they are. *)
Definition readonly {A} (m : M A) : Prop := forall s, snd (m s) = s.

(** [m] ends: it returns or throws. *)
Definition halts {A} (m : M A) : Prop := forall s, fst (m s) <> OutOfFuel.

(** [p] is an entry directly in one of the [sections]. *)
Definition under (sections : list Section_) (p : Path) : Prop :=
  exists s name, In s sections /\ p = sec_path s ++ [name].

(** The commands of the reclaimer: the deletion of an entry of an
    archive section. *)
Definition reclaim_command (config : Config) (e : Event) : Prop :=
  exists p, e = EvDelete p /\ under (archiveDisksSections config) p.

(** The commands of a placement: [rm -rf] of an entry of an archive or
    of an incoming section, a copy from an incoming to an archive
    section, [touch] of an entry of an archive section. *)
Definition place_command (config : Config) (e : Event) : Prop :=
  match e with
  | EvWipe p =>
      under (archiveDisksSections config) p
      \/ under (incomingDisksSections config) p
  | EvRclone src _ dst =>
      (exists i, In i (incomingDisksSections config) /\ src = sec_path i)
      /\ (exists a, In a (archiveDisksSections config) /\ dst = sec_path a)
  | EvTouch p _ => under (archiveDisksSections config) p
  | EvDelete _ => False
  end.

(** The commands of [manageIncoming]: the deletion of an entry of an
    incoming section, or those of a placement. *)
Definition incoming_command (config : Config) (e : Event) : Prop :=
  (exists p, e = EvDelete p /\ under (incomingDisksSections config) p)
  \/ place_command config e.

Definition on_device (d : string) (section : Section_) : bool :=
  String.eqb (sec_device section) d.

(** What the object filled by [reduce] holds after the sections [seen]:
    one key per device, with the sections of that device in their
    order. *)
Definition grouped (acc : list (string * list Section_)) (seen : list Section_)
  : Prop :=
  NoDup (map fst acc)
  /\ forall d l, In (d, l) acc <-> l <> [] /\ l = filter (on_device d) seen.




(** A column of a line: not empty, no white space. *)
Definition is_token (s : string) : bool :=
  match s with
  | EmptyString => false
  | _ => forallb (fun c => negb (Js.is_space c)) (list_ascii_of_string s)
  end.


(** Oldest first. *)
Definition oldest_first (l : list IncomingDir) : Prop :=
  StronglySorted (fun a b => inc_mtime a <= inc_mtime b) l.



(* ================================================================== *)
(** * Small installations, used by the examples *)
(* ================================================================== *)

Module Sample.

(** [df] prints [free] gigabytes available. *)
Definition df_out (free : string) : ExecResult :=
  mkExec false (df_line ("/dev/sdx 500G 100G " ++ free ++ " 20% /mnt")) "".

Definition hour : Z := 60 * 60 * 1000.

Definition incoming : Section_ := mkSection ["site"; "TV"] "/dev/sda1" "TV" false.
Definition archive1 : Section_ := mkSection ["arc1"; "TV"] "/dev/sdb1" "TV" false.
Definition archive2 : Section_ := mkSection ["arc2"; "X264"] "/dev/sdc1" "X264" false.

Definition config : Config :=
  mkConfig [incoming] [archive1; archive2] 50 100 10 false.

End Sample.

Module ScanSample.

(** Two sections; the oldest release of the first is from t=10, the
    second holds two releases from t=5. *)
Definition env : Env :=
  mkEnv 1000 (fun _ _ => Sample.df_out "10G") (fun n => Some n)
        (fun _ => false) (fun _ => false)
        (fun _ root => (root, true)).

Definition root : node :=
  Dir 0 [("s1", Dir 0 [("b", Dir 12 []); ("a", Dir 10 [("f", File 10 3)])]);
         ("s2", Dir 0 [("c", Dir 5 []); ("notes.txt", File 1 9); ("d", Dir 5 [])])].

Definition s1 : Section_ := mkSection ["s1"] "/dev/sda1" "S1" false.
Definition s2 : Section_ := mkSection ["s2"] "/dev/sda2" "S2" false.
Definition missing : Section_ := mkSection ["s3"] "/dev/sda3" "S3" false.

End ScanSample.

Module DatedSample.

Import Sample.

(** A clock at 100 hours; [abc] was modified 25 hours ago, [20240101]
    23 hours ago. *)
Definition env : Env :=
  mkEnv (100 * hour) (fun _ _ => df_out "10G") (fun n => Some n)
        (fun _ => false) (fun _ => false)
        (fun _ root => (root, true)).

Definition root : node :=
  Dir 0 [("arc", Dir 0 [("abc", Dir (75 * hour) [("f", File 0 7)]);
                        ("20240101", Dir (77 * hour) [])])].

Definition dated : Section_ := mkSection ["arc"] "/dev/sdb1" "MP3" true.

Definition abc : Release := mkRelease ["arc"; "abc"] "abc" (75 * hour) 7 "MP3".

End DatedSample.

Module PlaceSample.

Import Sample.

(** The incoming device has 20G free, the archive devices 200G (label
    TV) and 500G (label X264). *)
Definition df_by_device (root : node) (device : string) : ExecResult :=
  if String.eqb device "/dev/sdb1" then df_out "200G"
  else if String.eqb device "/dev/sdc1" then df_out "500G"
  else df_out "20G".

Definition root : node :=
  Dir 0 [("site", Dir 0 [("TV", Dir 0 [("rel", Dir 1000 [("a.mkv", File 1000 2048)])])]);
         ("arc1", Dir 0 [("TV", Dir 0 [])]);
         ("arc2", Dir 0 [("X264", Dir 0 [])])].

Definition release : Release :=
  mkRelease ["site"; "TV"; "rel"] "rel" 1000 2048 "TV".

Definition start : State := mkState root [].

(** [rclone] copies the whole tree. *)
Definition env : Env :=
  mkEnv (100 * hour) df_by_device (fun n => Some n)
        (fun _ => false) (fun _ => false)
        (fun _ root => (root, true)).

(** [rclone] ends well but leaves the files out. *)
Definition env_partial : Env :=
  mkEnv (100 * hour) df_by_device (fun n => Some (Dir (node_mtimeMs n) []))
        (fun _ => false) (fun _ => false)
        (fun _ root => (root, true)).


Definition copy (e : Env) : M unit :=
  wipeDestination e ["arc2"; "X264"] "rel" ;;;
  rcloneSync e config ["site"; "TV"] "rel" ["arc2"; "X264"].

End PlaceSample.

Module InjectSample.

Import Sample.

(** Two names that the shell does not take literally: a command
    substitution, written with [$( )] and between backquotes.  Inside
    the double quotes of a command line the shell runs the commands of
    the substitution, in the directory the daemon was started in (the
    one that holds [site]), and puts what they print, here nothing, in
    its place. *)
Definition name : string := "$(cd site;cd TV;rm -rf *)".


Definition root_with (name : string) : node :=
  Dir 0 [("site", Dir 0 [("TV", Dir 0 [(name, Dir 1000 [("a.mkv", File 1000 2048)])])]);
         ("arc1", Dir 0 [("TV", Dir 0 [])]);
         ("arc2", Dir 0 [("X264", Dir 0 [])])].

Definition release : Release :=
  mkRelease ["site"; "TV"; name] name 1000 2048 "TV".


Definition start : State := mkState (root_with name) [].


(** What the shell does with the commands of the placement.  For
    [rm -rf] the substitution removes every entry of [site/TV], and
    [rm] is left with the path [arc2/X264/], which it removes.  For
    [rclone copy] the substitution finds nothing more to remove, and
    [rclone] is left with [site/TV//] and [arc2/X264/]: there is nothing
    to transfer and it ends with status 0. *)
Definition shell (e : Event) (root : node) : node * bool :=
  match e with
  | EvWipe _ =>
      (Dir 0 [("site", Dir 0 [("TV", Dir (100 * hour) [])]);
              ("arc1", Dir 0 [("TV", Dir 0 [])]);
              ("arc2", Dir (100 * hour) [])], true)
  | _ => (root, true)
  end.

Definition env : Env :=
  mkEnv (100 * hour) PlaceSample.df_by_device (fun n => Some n)
        (fun _ => false) (fun _ => false) shell.

(** After the two commands. *)
Definition copied_with (name : string) : State :=
  mkState (Dir 0 [("site", Dir 0 [("TV", Dir (100 * hour) [])]);
                  ("arc1", Dir 0 [("TV", Dir 0 [])]);
                  ("arc2", Dir (100 * hour) [])])
          [EvWipe ["arc2"; "X264"; name];
           EvRclone ["site"; "TV"] name ["arc2"; "X264"]].

Definition copied : State := copied_with name.


End InjectSample.

Module BigSample.

(** A release of 2 GiB. *)
Definition gib : Z := 1024 * 1024 * 1024.

Definition root : node :=
  Dir 0 [("site", Dir 0 [("TV", Dir 0 [("big", Dir 1000 [("a.mkv", File 1000 (2 * gib))])])]);
         ("arc1", Dir 0 [("TV", Dir 0 [])]);
         ("arc2", Dir 0 [("X264", Dir 0 [])])].

Definition release : Release :=
  mkRelease ["site"; "TV"; "big"] "big" 1000 (2 * gib) "TV".

Definition start : State := mkState root [].

End BigSample.

Module ReclaimSample.

Import Sample.

(** Three archived releases of 10 GB each on a device that has 80 GB
    free with all of them; the threshold is 100 GB. *)
Definition df_by_count (root : node) (device : string) : ExecResult :=
  match resolve ["arc1"] root with
  | Some (Dir _ [_; _; _]) => df_out "80G"
  | Some (Dir _ [_; _]) => df_out "90G"
  | _ => df_out "100G"
  end.

Definition env : Env :=
  mkEnv (100 * hour) df_by_count (fun n => Some n)
        (fun _ => false) (fun _ => false)
        (fun _ root => (root, true)).

Definition root : node :=
  Dir 0 [("arc1", Dir 0 [("r2", Dir 20 [("b", File 20 5)]);
                         ("r1", Dir 10 [("a", File 10 5)]);
                         ("r3", Dir 30 [("c", File 30 5)])])].

Definition archive : Section_ := mkSection ["arc1"] "/dev/sdb1" "TV" false.

Definition config : Config := mkConfig [] [archive] 50 100 10 false.

Definition config_debug : Config := mkConfig [] [archive] 50 100 10 true.

Definition start : State := mkState root [].

(** After the two oldest releases are gone. *)
Definition final : State :=
  mkState (Dir 0 [("arc1", Dir (100 * hour) [("r3", Dir 30 [("c", File 30 5)])])])
          [EvDelete ["arc1"; "r1"]; EvDelete ["arc1"; "r2"]].

End ReclaimSample.

Module EmptySample.

Import Sample.

(** The oldest incoming release is an empty directory; the archive holds
    a directory of the same name. *)
Definition root : node :=
  Dir 0 [("site", Dir 0 [("TV", Dir 0 [("rel", Dir 1000 [])])]);
         ("arc1", Dir 0 [("TV", Dir 0 [])]);
         ("arc2", Dir 0 [("X264", Dir 0 [("rel", Dir 500 [("keep.mkv", File 500 4096)])])])].

Definition start : State := mkState root [].

(** No archive section has the label of the incoming section. *)
Definition config_no_tier : Config := mkConfig [incoming] [archive2] 50 100 10 false.

End EmptySample.


Module QuietSample.

Import Sample.

(** Every device has 500G free. *)
Definition env : Env :=
  mkEnv (100 * hour) (fun _ _ => df_out "500G") (fun n => Some n)
        (fun _ => false) (fun _ => false)
        (fun _ root => (root, true)).

(** Every device is full. *)
Definition env_full : Env :=
  mkEnv (100 * hour) (fun _ _ => df_out "0G") (fun n => Some n)
        (fun _ => false) (fun _ => false)
        (fun _ root => (root, true)).

End QuietSample.

Module DeniedSample.

Import Sample.

(** The file of the release cannot be removed. *)
Definition env : Env :=
  mkEnv (100 * hour) PlaceSample.df_by_device (fun n => Some n)
        (fun _ => false) (fun p => path_eqb p ["site"; "TV"; "rel"; "a.mkv"])
        (fun _ root => (root, true)).

(** A release with that file and one that can be removed. *)
Definition start_two : State :=
  mkState
    (Dir 0 [("site", Dir 0 [("TV", Dir 0 [("rel", Dir 1000
                                             [("a.mkv", File 1000 2048);
                                              ("b.nfo", File 1000 1)])])])])
    [].

End DeniedSample.

Module SealedSample.

Import Sample.

(** A release with two files; [stat] throws on the second. *)
Definition env : Env :=
  mkEnv (100 * hour) (fun _ _ => df_out "10G") (fun n => Some n)
        (fun p => path_eqb p ["rel"; "b"]) (fun _ => false)
        (fun _ root => (root, true)).

Definition root : node :=
  Dir 0 [("rel", Dir 0 [("a", File 0 5); ("b", File 0 7)])].

End SealedSample.

Module RefillSample.

Import Sample.

(** The incoming device has 20G free while the empty release is there
    and 60G once it is gone. *)
Definition df_by_release (root : node) (device : string) : ExecResult :=
  match resolve ["site"; "TV"; "rel"] root with
  | Some _ => df_out "20G"
  | None => df_out "60G"
  end.

Definition env : Env :=
  mkEnv (100 * hour) df_by_release (fun n => Some n)
        (fun _ => false) (fun _ => false)
        (fun _ root => (root, true)).

End RefillSample.

(* ================================================================== *)
(** * The free-space probe *)
(* ================================================================== *)

Lemma getFreeSpace_command_failed r :
  exec_err r = true -> getFreeSpace r = Rejected.
Proof. intros H. unfold getFreeSpace. rewrite H. reflexivity. Qed.

Lemma getFreeSpace_stderr r :
  exec_stderr r <> "" -> getFreeSpace r = Rejected.
Proof.
  intros H. unfold getFreeSpace.
  destruct (String.eqb_spec (exec_stderr r) "") as [E | E]; [contradiction |].
  rewrite orb_true_r. reflexivity.
Qed.

Lemma getFreeSpace_one_line r :
  (List.length (Js.split_char LF (Js.trim (exec_stdout r))) < 2)%nat ->
  getFreeSpace r = Rejected.
Proof.
  intros H. unfold getFreeSpace.
  destruct (exec_err r || negb (String.eqb (exec_stderr r) "")); [reflexivity |].
  apply Nat.ltb_lt in H. rewrite H. reflexivity.
Qed.

Example getFreeSpace_sample :
  getFreeSpace (mkExec false (df_line "/dev/sda1           100G   50G       42G  50% /") "")
  = Resolved (Js.Num 42).
Proof. vm_compute. reflexivity. Qed.

(** C9.  The probe does not always fail on output it cannot parse: when
    the fourth column of the second line is not a number, [parseInt]
    gives [NaN] and the promise resolves with it; a negative column
    resolves with a negative number. *)
Theorem getFreeSpace_resolves_NaN :
  getFreeSpace (mkExec false (df_line "/dev/sdb1 500G 100G - 20% /mnt") "")
    = Resolved Js.NaN
  /\ getFreeSpace (mkExec false (df_line "/dev/sdb1 500G 100G -5G 20% /mnt") "")
    = Resolved (Js.Num (-5)).
Proof. split; vm_compute; reflexivity. Qed.

(* ================================================================== *)
(** * The release scan *)
(* ================================================================== *)

Section Scan.

Variable env : Env.
Variable root : node.


Lemma first_earliest_le r l c :
  first_earliest r l -> In c l -> rel_mtime r <= rel_mtime c.
Proof.
  intros (b & a & -> & Hb & Ha) Hin.
  rewrite Forall_forall in Hb, Ha.
  apply in_app_or in Hin as [Hin | [<- | Hin]].
  - specialize (Hb _ Hin). lia.
  - lia.
  - auto.
Qed.

Lemma first_earliest_cons_keep x r l :
  first_earliest r l -> rel_mtime r < rel_mtime x -> first_earliest r (x :: l).
Proof.
  intros (b & a & -> & Hb & Ha) Hlt.
  exists (x :: b), a. repeat split; auto.
Qed.

Lemma first_earliest_cons_new x l :
  (forall c, In c l -> rel_mtime x <= rel_mtime c) -> first_earliest x (x :: l).
Proof.
  intros H. exists [], l. repeat split; auto.
  apply Forall_forall. exact H.
Qed.

Lemma first_earliest_app_left r l l' :
  first_earliest r l ->
  (forall c, In c l' -> rel_mtime r <= rel_mtime c) ->
  first_earliest r (l ++ l').
Proof.
  intros (b & a & -> & Hb & Ha) H.
  exists b, (a ++ l'). repeat split; auto.
  - rewrite <- app_assoc. reflexivity.
  - apply Forall_app. split; auto. apply Forall_forall. exact H.
Qed.

Lemma first_earliest_app_right r l l' :
  first_earliest r l' ->
  (forall c, In c l -> rel_mtime r < rel_mtime c) ->
  first_earliest r (l ++ l').
Proof.
  intros (b & a & -> & Hb & Ha) H.
  exists (l ++ b), a. repeat split; auto.
  - rewrite <- app_assoc. reflexivity.
  - apply Forall_app. split; auto. apply Forall_forall. exact H.
Qed.

Lemma insert_by_mtime_head x l :
  exists t,
    insert_by_mtime x l
    = match l with
      | [] => x
      | y :: _ => if rel_mtime x <=? rel_mtime y then x else y
      end :: t.
Proof.
  destruct l as [| y l]; simpl; [eauto |].
  destruct (rel_mtime x <=? rel_mtime y); eauto.
Qed.

(** The stable sort puts the first earliest release in front. *)
Lemma sort_by_mtime_head l :
  match sort_by_mtime l with
  | [] => l = []
  | oldest :: _ => first_earliest oldest l
  end.
Proof.
  induction l as [| x l IH]; simpl; [reflexivity |].
  destruct (insert_by_mtime_head x (sort_by_mtime l)) as [t ->].
  destruct (sort_by_mtime l) as [| y s].
  - subst l. apply first_earliest_cons_new. intros c [].
  - destruct (Z.leb_spec (rel_mtime x) (rel_mtime y)).
    + apply first_earliest_cons_new. intros c Hc.
      pose proof (first_earliest_le _ _ _ IH Hc). lia.
    + apply first_earliest_cons_keep; auto.
Qed.


Lemma scanSection_scanned g seen s :
  scanned g seen ->
  scanned (scanSection env root g s) (seen ++ validDirectories env root s).
Proof.
  intros Hg. unfold scanSection.
  pose proof (sort_by_mtime_head (validDirectories env root s)) as Hs.
  destruct (sort_by_mtime (validDirectories env root s)) as [| o rest].
  - rewrite Hs, app_nil_r. exact Hg.
  - destruct g as [g |]; simpl in *.
    + destruct (Z.ltb_spec (rel_mtime o) (rel_mtime g)).
      * apply first_earliest_app_right; auto.
        intros c Hc. pose proof (first_earliest_le _ _ _ Hg Hc). lia.
      * apply first_earliest_app_left; auto.
        intros c Hc. pose proof (first_earliest_le _ _ _ Hs Hc). lia.
    + subst seen. exact Hs.
Qed.

Lemma fold_scanSection_scanned sections :
  forall g seen,
    scanned g seen ->
    scanned (fold_left (scanSection env root) sections g)
            (seen ++ List.concat (map (validDirectories env root) sections)).
Proof.
  induction sections as [| s sections IH]; intros g seen Hg; simpl.
  - rewrite app_nil_r. exact Hg.
  - rewrite app_assoc. apply IH. apply scanSection_scanned. exact Hg.
Qed.

Lemma findOldestDirectory_scanned sections :
  scanned (findOldestDirectory env root sections)
          (List.concat (map (validDirectories env root) sections)).
Proof.
  apply (fold_scanSection_scanned sections None []). reflexivity.
Qed.

Lemma concat_nil_iff {A} (ll : list (list A)) :
  List.concat ll = [] <-> forall l, In l ll -> l = [].
Proof.
  induction ll as [| l ll IH]; simpl.
  - split; [intros _ l [] | reflexivity].
  - split.
    + intros H. apply app_eq_nil in H as [H1 H2].
      intros l' [<- | Hin]; auto. apply IH; auto.
    + intros H. rewrite (H l (or_introl eq_refl)). simpl.
      apply IH. intros l' Hin. apply H. right. exact Hin.
Qed.

End Scan.

(** The sections with oldest releases from t=10 and t=5: the scan returns
    the release of the second section, the first of the two from t=5; a
    section that does not exist is passed over. *)
Example findOldestDirectory_two_sections :
  findOldestDirectory ScanSample.env ScanSample.root
                      [ScanSample.missing; ScanSample.s1; ScanSample.s2]
  = Some (mkRelease ["s2"; "c"] "c" 5 0 "S2")
  /\ findOldestDirectory ScanSample.env ScanSample.root [ScanSample.s2; ScanSample.s2]
     = Some (mkRelease ["s2"; "c"] "c" 5 0 "S2")
  /\ findOldestDirectory ScanSample.env ScanSample.root [ScanSample.missing]
     = None.
Proof. repeat split; vm_compute; reflexivity. Qed.

(* ================================================================== *)
(** * Sections with the [dated] flag *)
(* ================================================================== *)

Lemma in_not_null {A} (a : A) (l : list (option A)) :
  In a (not_null l) <-> In (Some a) l.
Proof.
  induction l as [| [x |] l IH]; simpl.
  - tauto.
  - rewrite IH. split; intros [H | H]; auto; left; congruence.
  - rewrite IH. split; [auto | intros [H | H]; [discriminate | auto]].
Qed.

Lemma scanDirectory_dated env root s dir r :
  sec_dated s = true ->
  (scanDirectory env root s dir = Some r
   <-> exists stats,
         stat root (fst dir) = Some stats
         /\ now env - st_mtimeMs stats > oneDayInMs
         /\ r = mkRelease (fst dir) (snd dir) (st_mtimeMs stats)
                          (getDirectorySize env root (fst dir)) (sec_section s)).
Proof.
  intros Hd. unfold scanDirectory, isOlderThanOneDay. rewrite Hd. simpl.
  destruct (stat root (fst dir)) as [stats |].
  - destruct (Z.gtb_spec (now env - st_mtimeMs stats) oneDayInMs); simpl.
    + split.
      * intros E. exists stats. repeat split; [lia | congruence].
      * intros (st' & E & _ & ->). congruence.
    + split; [discriminate |].
      intros (st' & E & Hgt & _). injection E as <-. lia.
  - split; [discriminate | intros (st' & E & _); discriminate].
Qed.

(** C4, as the scan does it.  In a section with the [dated] flag every
    immediate subdirectory is a candidate, whatever its name, unless its
    modification time is not more than 24 hours back: the candidates are
    exactly the directories listed in the section that are older than
    one day. *)
Theorem dated_section_candidates env root s entries :
  sec_dated s = true ->
  readdir env root (sec_path s) = Some entries ->
  forall r,
    In r (validDirectories env root s)
    <-> exists entry stats,
          In entry entries
          /\ d_isDirectory entry = true
          /\ stat root (sec_path s ++ [d_name entry]) = Some stats
          /\ now env - st_mtimeMs stats > oneDayInMs
          /\ r = mkRelease (sec_path s ++ [d_name entry]) (d_name entry)
                           (st_mtimeMs stats)
                           (getDirectorySize env root (sec_path s ++ [d_name entry]))
                           (sec_section s).
Proof.
  intros Hd Hr r. unfold validDirectories. rewrite Hr.
  rewrite in_not_null, in_map_iff. split.
  - intros (dir & E & Hin).
    apply in_map_iff in Hin as (entry & <- & Hin).
    apply filter_In in Hin as [Hin Hdir].
    apply (scanDirectory_dated env root s _ r Hd) in E as (stats & E1 & E2 & E3).
    exists entry, stats. auto.
  - intros (entry & stats & Hin & Hdir & E1 & E2 & E3).
    exists (sec_path s ++ [d_name entry], d_name entry). split.
    + apply (scanDirectory_dated env root s _ r Hd). exists stats. auto.
    + apply in_map_iff. exists entry. split; [reflexivity |].
      apply filter_In. auto.
Qed.


Lemma dated_section_candidates_witness :
  In DatedSample.abc
     (validDirectories DatedSample.env DatedSample.root DatedSample.dated)
  <-> exists entry stats,
        In entry [mkDirent "abc" true; mkDirent "20240101" true]
        /\ d_isDirectory entry = true
        /\ stat DatedSample.root (["arc"] ++ [d_name entry]) = Some stats
        /\ now DatedSample.env - st_mtimeMs stats > oneDayInMs
        /\ DatedSample.abc
           = mkRelease (["arc"] ++ [d_name entry]) (d_name entry)
                       (st_mtimeMs stats)
                       (getDirectorySize DatedSample.env DatedSample.root
                                         (["arc"] ++ [d_name entry]))
                       "MP3".
Proof.
  apply (dated_section_candidates DatedSample.env DatedSample.root
           DatedSample.dated [mkDirent "abc" true; mkDirent "20240101" true]);
    reflexivity.
Defined.

(** C4, as stated, fails: the scan of a [dated] section keeps a directory
    whose name is not numeric (modified 25 hours ago) and drops the
    numeric one modified 23 hours ago. *)
Lemma dated_section_keeps_other_names :
  sec_dated DatedSample.dated = true
  /\ validDirectories DatedSample.env DatedSample.root DatedSample.dated
     = [DatedSample.abc]
  /\ findOldestDirectory DatedSample.env DatedSample.root [DatedSample.dated]
     = Some DatedSample.abc
  /\ numeric_name (rel_name DatedSample.abc) = false
  /\ numeric_name "20240101" = true.
Proof. repeat split; vm_compute; reflexivity. Qed.

(* ================================================================== *)
(** * The choice of the archive section *)
(* ================================================================== *)

Section Choice.

Variable env : Env.
Variable root : node.


Lemma chosen_skip seen best most s :
  chosen env root seen best most ->
  (forall g, reading env root s = Some g -> g <= most) ->
  chosen env root (seen ++ [s]) best most.
Proof.
  intros H Hs. destruct best as [b |]; simpl in *.
  - destruct H as (Hpos & before & after & -> & Hb & Hbef & Haft).
    split; [exact Hpos |].
    exists before, (after ++ [s]). repeat split; auto.
    + rewrite <- app_assoc. reflexivity.
    + intros s' g Hin Hg. apply in_app_or in Hin as [Hin | [<- | []]]; eauto.
  - destruct H as [-> H]. split; [reflexivity |].
    intros s' g Hin Hg. apply in_app_or in Hin as [Hin | [<- | []]]; eauto.
Qed.

Lemma chosen_take seen best most s f :
  chosen env root seen best most ->
  reading env root s = Some f -> most < f ->
  chosen env root (seen ++ [s]) (Some s) f.
Proof.
  intros H Hs Hlt. simpl. split.
  - destruct best; simpl in H; lia.
  - exists seen, []. repeat split; auto.
    + intros s' g Hin Hg. destruct best as [b |]; simpl in H.
      * destruct H as (_ & before & after & -> & Hb & Hbef & Haft).
        apply in_app_or in Hin as [Hin | [<- | Hin]].
        -- specialize (Hbef _ _ Hin Hg). lia.
        -- rewrite Hb in Hg. injection Hg as <-. lia.
        -- specialize (Haft _ _ Hin Hg). lia.
      * destruct H as [-> H]. specialize (H _ _ Hin Hg). lia.
    + intros s' g [].
Qed.

Lemma mostFreeLoop_chosen sections :
  forall seen best most,
    chosen env root seen best most ->
    exists most',
      mostFreeLoop env root sections best (Js.Num most)
      = (fst (mostFreeLoop env root sections best (Js.Num most)), Js.Num most')
      /\ chosen env root (seen ++ sections)
                (fst (mostFreeLoop env root sections best (Js.Num most))) most'.
Proof.
  induction sections as [| s sections IH]; intros seen best most H; simpl.
  - exists most. rewrite app_nil_r. auto.
  - replace (seen ++ s :: sections) with ((seen ++ [s]) ++ sections)
      by (rewrite <- app_assoc; reflexivity).
    pose proof (chosen_skip seen best most s H) as Hskip.
    pose proof (chosen_take seen best most s) as Htake.
    unfold reading in Hskip, Htake.
    destruct (probe env root (sec_device s)) as [[| f] |].
    + simpl. apply IH. apply Hskip. discriminate.
    + unfold Js.gt, Js.lt. destruct (Z.ltb_spec most f).
      * apply IH. apply (Htake f H); auto.
      * apply IH. apply Hskip. intros g E. injection E as <-. lia.
    + apply IH. apply Hskip. discriminate.
Qed.

(** The loop of [manageArchive], from its initial values: it ends with
    the first section that has the most free space, or with none when no
    probe reports more than 0. *)
Lemma mostFreeLoop_most_free sections best most :
  mostFreeLoop env root sections None (Js.Num 0) = (best, most) ->
  match best with
  | Some b => exists free, most = Js.Num free /\ 0 < free
                           /\ most_free env root sections b free
  | None => forall s g, In s sections -> reading env root s = Some g -> g <= 0
  end.
Proof.
  intros E.
  destruct (mostFreeLoop_chosen sections [] None 0) as (m & E1 & H).
  { simpl. split; [reflexivity | intros s g []]. }
  rewrite E in E1. simpl in E1. injection E1 as ->.
  rewrite E in H. simpl in H.
  destruct best as [b |].
  - exists m. destruct H. auto.
  - apply H.
Qed.

End Choice.

(* ================================================================== *)
(** * The commands a call runs *)
(* ================================================================== *)


Section Emits.

Variable env : Env.
Context {A B : Type}.
Variable P : Event -> Prop.

Lemma emits_ret (a : A) : emits P (ret a).
Proof. intros s o s' E e He. injection E as <- <-. auto. Qed.

Lemma emits_reads (f : node -> A) : emits P (reads f).
Proof. intros s o s' E e He. injection E as <- <-. auto. Qed.

Lemma emits_await (f : node -> Settled A) : emits P (await f).
Proof.
  intros s o s' E e He. unfold await in E.
  destruct (f (fs s)); injection E as <- <-; auto.
Qed.

Lemma emits_await_opt (f : node -> option A) : emits P (await_opt f).
Proof.
  intros s o s' E e He. unfold await_opt in E.
  destruct (f (fs s)); injection E as <- <-; auto.
Qed.

Lemma emits_bind (m : M A) (k : A -> M B) :
  emits P m -> (forall a, emits P (k a)) -> emits P (bind m k).
Proof.
  intros Hm Hk s o s' E e He. unfold bind in E.
  destruct (m s) as [[a | |] s1] eqn:Em.
  - destruct (Hk a s1 o s' E e He) as [H | H]; auto.
    apply (Hm s _ s1 Em e H).
  - injection E as <- <-. apply (Hm s _ s1 Em e He).
  - injection E as <- <-. apply (Hm s _ s1 Em e He).
Qed.

Lemma emits_try_catch (m h : M A) :
  emits P m -> emits P h -> emits P (try_catch m h).
Proof.
  intros Hm Hh s o s' E e He. unfold try_catch in E.
  destruct (m s) as [[a | |] s1] eqn:Em.
  - injection E as <- <-. apply (Hm s _ s1 Em e He).
  - destruct (Hh s1 o s' E e He) as [H | H]; auto.
    apply (Hm s _ s1 Em e H).
  - injection E as <- <-. apply (Hm s _ s1 Em e He).
Qed.

Lemma emits_emit (ev : Event) : P ev -> emits P (emit ev).
Proof.
  intros Hev s o s' E e He. injection E as <- <-. simpl in He.
  apply in_app_or in He as [He | [<- | []]]; auto.
Qed.

(** A step that leaves the trace as it is. *)
Lemma emits_quiet (m : M A) :
  (forall s, trace (snd (m s)) = trace s) -> emits P m.
Proof.
  intros H s o s' E e He. specialize (H s). rewrite E in H. simpl in H.
  rewrite H in He. auto.
Qed.

End Emits.

Section EmitsOps.

Variable env : Env.
Variable P : Event -> Prop.

Lemma emits_deleteDirectory p :
  P (EvDelete p) -> emits P (deleteDirectory env p).
Proof.
  intros H. unfold deleteDirectory.
  apply emits_bind; [apply emits_emit; exact H | intros _].
  apply emits_quiet. intros s.
  destruct (resolve p (fs s)) as [[| m es] |]; try reflexivity.
  destruct (rm_tree env p (Dir m es)); reflexivity.
Qed.

Lemma run_shell_trace e s : trace (snd (run_shell env e s)) = trace s.
Proof. unfold run_shell. destruct (shell env e (fs s)). reflexivity. Qed.

Lemma emits_wipeDestination p name :
  P (EvWipe (p ++ [name])) -> emits P (wipeDestination env p name).
Proof.
  intros H. unfold wipeDestination.
  apply emits_bind; [apply emits_emit; exact H | intros _].
  apply emits_quiet. intros s.
  destruct (literal (p ++ [name])); [| apply run_shell_trace].
  destruct (denied env (p ++ [name])); reflexivity.
Qed.

Lemma emits_rcloneSync config src name dst :
  P (EvRclone src name dst) -> emits P (rcloneSync env config src name dst).
Proof.
  intros H. unfold rcloneSync.
  destruct (debug config); [apply emits_ret |].
  apply emits_bind; [apply emits_emit; exact H | intros _].
  apply emits_quiet. intros s.
  destruct (literal (src ++ [name]) && literal (dst ++ [name]));
    [| apply run_shell_trace].
  destruct (resolve (src ++ [name]) (fs s)) as [[| m es] |]; try reflexivity.
  destruct (unreadable env (src ++ [name])); try reflexivity.
  destruct (rclone env (Dir m es)); try reflexivity.
  destruct (write_at _ _ _ _); reflexivity.
Qed.

Lemma emits_setTimestamp config p ts :
  P (EvTouch p ts) -> emits P (setTimestamp env config p ts).
Proof.
  intros H. unfold setTimestamp.
  destruct (debug config); [apply emits_ret |].
  apply emits_bind; [apply emits_emit; exact H | intros _].
  apply emits_quiet. intros s.
  destruct (literal p); [| apply run_shell_trace].
  destruct (denied env p); try reflexivity.
  destruct (resolve p (fs s)); try reflexivity.
  destruct (resolve (parent p) (fs s)) as [[| m es] |]; reflexivity.
Qed.

Lemma emits_verifyFileCount src dst : emits P (verifyFileCount env src dst).
Proof.
  unfold verifyFileCount.
  apply emits_try_catch; [| apply emits_ret].
  apply emits_bind; [apply emits_await_opt | intros sf].
  apply emits_bind; [apply emits_await_opt | intros d].
  apply emits_ret.
Qed.

End EmitsOps.

(* ================================================================== *)
(** * Placing a release in the archive *)
(* ================================================================== *)

Lemma ret_unchanged {A} (a : A) s o s' (e : Event) :
  ret a s = (o, s') -> In e (trace s') -> In e (trace s).
Proof. intros E He. injection E as <- <-. exact He. Qed.

(** C7.  When [manageArchive] copies a release, at least one archive
    section has the label of the release's incoming section, and the
    copy goes to the archive section whose device reports the most free
    space among all configured archive sections, the first one in the
    configuration on ties; the label of that section plays no part. *)
Theorem manageArchive_destination env fuel config release s o s' src name dst :
  manageArchive env fuel config (Some release) s = (o, s') ->
  In (EvRclone src name dst) (trace s') ->
  ~ In (EvRclone src name dst) (trace s) ->
  exists incomingSection bestSection free,
    In incomingSection (incomingDisksSections config)
    /\ src = sec_path incomingSection
    /\ name = rel_name release
    /\ (exists a, In a (archiveDisksSections config)
                  /\ sec_section a = sec_section incomingSection)
    /\ dst = sec_path bestSection
    /\ most_free env (fs s) (archiveDisksSections config) bestSection free.
Proof.
  intros E Hin Hnew. unfold manageArchive in E.
  destruct (find _ (incomingDisksSections config)) as [inc |] eqn:Hfind;
    [| exfalso; eauto using ret_unchanged].
  destruct (filter _ (archiveDisksSections config)) as [| a matching] eqn:Hmatch;
    simpl in E; [exfalso; eauto using ret_unchanged |].
  unfold bind at 1, reads in E.
  destruct (mostFreeLoop env (fs s) (archiveDisksSections config) None (Js.Num 0))
    as [[best |] most] eqn:Hloop; [| exfalso; eauto using ret_unchanged].
  destruct (Js.ltQ most _); [exfalso; eauto using ret_unchanged |].
  apply mostFreeLoop_most_free in Hloop as (free & -> & Hpos & Hbest).
  assert (Hemits :
    emits (fun e => match e with
                    | EvRclone a' n d =>
                        a' = sec_path inc /\ n = rel_name release
                        /\ d = sec_path best
                    | _ => True
                    end)
          (try_catch
             (if negb (debug config) then
                wipeDestination env (sec_path best) (rel_name release) ;;;
                rcloneSync env config (sec_path inc) (rel_name release)
                           (sec_path best) ;;;
                isVerified <- verifyFileCount env
                                (sec_path inc ++ [rel_name release])
                                (sec_path best ++ [rel_name release]) ;;
                if negb isVerified then ret false
                else
                  sourceStats <- await_opt (fun root =>
                                   stat root (sec_path inc ++ [rel_name release])) ;;
                  setTimestamp env config (sec_path best ++ [rel_name release])
                               (st_mtimeMs sourceStats / 1000) ;;;
                  wipeDestination env (sec_path inc) (rel_name release) ;;;
                  ret true
              else ret true)
             (ret false))).
  { apply emits_try_catch; [| apply emits_ret].
    destruct (debug config); simpl; [apply emits_ret |].
    apply emits_bind; [apply emits_wipeDestination; exact I | intros _].
    apply emits_bind; [apply emits_rcloneSync; auto | intros _].
    apply emits_bind; [apply emits_verifyFileCount | intros v].
    destruct v; simpl; [| apply emits_ret].
    apply emits_bind; [apply emits_await_opt | intros st].
    apply emits_bind; [apply emits_setTimestamp; exact I | intros _].
    apply emits_bind; [apply emits_wipeDestination; exact I | intros _].
    apply emits_ret. }
  destruct (Hemits s o s' E _ Hin) as [H | (-> & -> & ->)]; [contradiction |].
  apply find_some in Hfind as [Hinc _].
  assert (Ha : In a (filter (fun section =>
                               String.eqb (sec_section section) (sec_section inc))
                            (archiveDisksSections config)))
    by (rewrite Hmatch; left; reflexivity).
  apply filter_In in Ha as [Ha Hlabel]. apply String.eqb_eq in Hlabel.
  exists inc, best, free. repeat split; eauto.
Qed.

(* ------------------------------------------------------------------ *)
(** ** Paths that a removal or a write leaves alone *)

Lemma lookup_set_entry_same name c c' es :
  lookup_entry name es = Some c ->
  lookup_entry name (set_entry name c' es) = Some c'.
Proof.
  induction es as [| [n d] es IH]; simpl; [discriminate |].
  destruct (String.eqb n name) eqn:En; simpl; rewrite En; auto.
Qed.

Lemma lookup_set_entry_other name other c' es :
  name <> other ->
  lookup_entry other (set_entry name c' es) = lookup_entry other es.
Proof.
  intros Hne. induction es as [| [n d] es IH]; simpl; [reflexivity |].
  destruct (String.eqb_spec n name) as [-> | Hn]; simpl.
  - destruct (String.eqb_spec name other); [contradiction | reflexivity].
  - rewrite IH. reflexivity.
Qed.

Lemma lookup_app_some name c es more :
  lookup_entry name es = Some c -> lookup_entry name (es ++ more) = Some c.
Proof.
  induction es as [| [n d] es IH]; simpl; [discriminate |].
  destruct (String.eqb n name); auto.
Qed.

Lemma lookup_remove_entry name es :
  lookup_entry name (remove_entry name es) = None.
Proof.
  induction es as [| [n d] es IH]; simpl; [reflexivity |].
  destruct (String.eqb n name) eqn:En; simpl; [| rewrite En]; auto.
Qed.

(** After [rm -rf q] nothing is left at [q] or below it. *)
Lemma resolve_remove_at now q :
  q <> [] -> forall below n, resolve (q ++ below) (remove_at now q n) = None.
Proof.
  induction q as [| name rest IH]; intros Hq below n; [contradiction |].
  destruct n as [m sz | m es]; [reflexivity |].
  cbn [remove_at app].
  destruct (lookup_entry name es) as [c |] eqn:El.
  - destruct rest as [| name' rest'].
    + cbn [resolve app]. rewrite lookup_remove_entry. reflexivity.
    + cbn [resolve]. rewrite (lookup_set_entry_same _ _ _ _ El).
      apply IH. discriminate.
  - cbn [resolve]. rewrite El. reflexivity.
Qed.

(** A write at [q] keeps what is at a path that does not pass through
    [q]. *)
Lemma resolve_write_at now q t :
  forall p n n' x,
    write_at now q t n = Some n' ->
    resolve p n = Some x ->
    (forall below, p <> q ++ below) ->
    exists x', resolve p n' = Some x'.
Proof.
  induction q as [| name rest IH]; intros p n n' x Hw Hr Hp.
  - exfalso. apply (Hp p). reflexivity.
  - destruct n as [m sz | m es]; [discriminate |]. simpl in Hw.
    destruct p as [| pname prest]; [simpl; eauto |].
    simpl in Hr.
    destruct (lookup_entry pname es) as [pc |] eqn:Ep; [| discriminate].
    destruct (lookup_entry name es) as [c |] eqn:El.
    + destruct (write_at now rest t c) as [c' |] eqn:Ew; [| discriminate].
      injection Hw as <-. simpl.
      destruct (string_dec name pname) as [-> | Hne].
      * rewrite (lookup_set_entry_same _ _ _ _ El).
        rewrite El in Ep. injection Ep as ->.
        apply (IH prest pc c' x Ew Hr).
        intros below ->. apply (Hp below). reflexivity.
      * rewrite (lookup_set_entry_other _ _ _ _ Hne), Ep. eauto.
    + destruct (write_at now rest t (Dir now [])) as [c' |]; [| discriminate].
      injection Hw as <-. simpl.
      rewrite (lookup_app_some _ _ _ _ Ep). eauto.
Qed.

(* ------------------------------------------------------------------ *)
(** ** A copy that is not verified *)

Lemma verifyFileCount_total env source destination s :
  verifyFileCount env source destination s
  = (Ok match readdir env (fs s) source, readdir env (fs s) destination with
        | Some sourceFiles, Some destFiles =>
            (List.length sourceFiles =? List.length destFiles)%nat
        | _, _ => false
        end, s).
Proof.
  unfold verifyFileCount, try_catch, bind, await_opt, ret.
  destruct (readdir env (fs s) source); [| reflexivity].
  destruct (readdir env (fs s) destination); reflexivity.
Qed.

Lemma wipeDestination_ok env p name s s0 :
  literal (p ++ [name]) = true ->
  wipeDestination env p name s = (Ok tt, s0) ->
  s0 = mkState (remove_at (now env) (p ++ [name]) (fs s))
               (trace s ++ [EvWipe (p ++ [name])]).
Proof.
  intros Hl. unfold wipeDestination, bind, emit. rewrite Hl. simpl.
  destruct (denied env (p ++ [name])); [discriminate |].
  intros E. injection E as <-. reflexivity.
Qed.



Lemma rcloneSync_ok env config src name dst s s1 :
  debug config = false ->
  literal (src ++ [name]) = true ->
  literal (dst ++ [name]) = true ->
  rcloneSync env config src name dst s = (Ok tt, s1) ->
  exists m es copied,
    resolve (src ++ [name]) (fs s) = Some (Dir m es)
    /\ unreadable env (src ++ [name]) = false
    /\ rclone env (Dir m es) = Some copied
    /\ write_at (now env) (dst ++ [name]) copied (fs s) = Some (fs s1)
    /\ trace s1 = trace s ++ [EvRclone src name dst].
Proof.
  intros Hd Hs Hl. unfold rcloneSync, bind, emit. rewrite Hd, Hs, Hl. simpl.
  destruct (resolve (src ++ [name]) (fs s)) as [[| m es] |]; try discriminate.
  destruct (unreadable env (src ++ [name])) eqn:Eu; [discriminate |].
  destruct (rclone env (Dir m es)) as [copied |] eqn:Er; [| discriminate].
  destruct (write_at _ _ copied (fs s)) as [root' |] eqn:Ew; [| discriminate].
  intros E. injection E as <-. simpl.
  exists m, es, copied. repeat split; auto.
Qed.







Example manageArchive_sample :
  manageArchive PlaceSample.env 0 Sample.config (Some PlaceSample.release)
                PlaceSample.start
  = (Ok true,
     mkState
       (Dir 0 [("site", Dir 0 [("TV", Dir (100 * Sample.hour) [])]);
               ("arc1", Dir 0 [("TV", Dir 0 [])]);
               ("arc2", Dir 0 [("X264", Dir (100 * Sample.hour)
                                            [("rel", Dir 1000 [("a.mkv", File 1000 2048)])])])])
       [EvWipe ["arc2"; "X264"; "rel"];
        EvRclone ["site"; "TV"] "rel" ["arc2"; "X264"];
        EvTouch ["arc2"; "X264"; "rel"] 1;
        EvWipe ["site"; "TV"; "rel"]]).
Proof. vm_compute. reflexivity. Qed.

Lemma manageArchive_destination_witness :
  exists incomingSection bestSection free,
    In incomingSection (incomingDisksSections Sample.config)
    /\ ["site"; "TV"] = sec_path incomingSection
    /\ "rel" = rel_name PlaceSample.release
    /\ (exists a, In a (archiveDisksSections Sample.config)
                  /\ sec_section a = sec_section incomingSection)
    /\ ["arc2"; "X264"] = sec_path bestSection
    /\ most_free PlaceSample.env (fs PlaceSample.start)
                 (archiveDisksSections Sample.config) bestSection free.
Proof.
  apply (manageArchive_destination PlaceSample.env 0 Sample.config
           PlaceSample.release PlaceSample.start (Ok true)
           (snd (manageArchive PlaceSample.env 0 Sample.config
                               (Some PlaceSample.release) PlaceSample.start))).
  - vm_compute. reflexivity.
  - vm_compute. auto.
  - simpl. intros H. exact H.
Defined.





(* ------------------------------------------------------------------ *)
(** ** The room a release needs *)


(** The comparison of [manageArchive], in integers. *)
Lemma room_check free size buffer :
  Js.ltQ (Js.Num free) (inject_Z size / 1024 + inject_Z buffer)%Q
  = (free * 1024 <? size + buffer * 1024).
Proof.
  unfold Js.ltQ.
  destruct (Z.ltb_spec (free * 1024) (size + buffer * 1024)) as [H | H].
  - apply negb_true_iff. apply not_true_iff_false. intros E.
    apply Qle_bool_iff in E. unfold Qle in E. simpl in E. lia.
  - apply negb_false_iff. apply Qle_bool_iff. unfold Qle. simpl. lia.
Qed.

(** C2.  The scan finds the release with its size in bytes (2 GiB), the
    archive device with the most free space has 500 GB, the buffer is
    10 GB: there is room for the size in GB plus the buffer, and yet
    [manageArchive] refuses, because it compares with the size divided
    by 1024. *)
Theorem manageArchive_refuses_room :
  findOldestDirectory PlaceSample.env BigSample.root
                      (incomingDisksSections Sample.config)
  = Some BigSample.release
  /\ mostFreeLoop PlaceSample.env BigSample.root
                  (archiveDisksSections Sample.config) None (Js.Num 0)
     = (Some Sample.archive2, Js.Num 500)
  /\ Js.ltQ (Js.Num 500)
            (inject_Z (rel_size BigSample.release) / inject_Z BigSample.gib
             + inject_Z (archiveBufferGB Sample.config))%Q = false
  /\ manageArchive PlaceSample.env 0 Sample.config (Some BigSample.release)
                   BigSample.start
     = (Ok false, BigSample.start).
Proof. repeat split; vm_compute; reflexivity. Qed.

Lemma manageArchive_no_room env fuel config release s inc best most :
  find (fun section =>
          path_eqb (rel_path release) (sec_path section ++ [rel_name release]))
       (incomingDisksSections config) = Some inc ->
  mostFreeLoop env (fs s) (archiveDisksSections config) None (Js.Num 0)
    = (Some best, most) ->
  Js.ltQ most (inject_Z (rel_size release) / 1024
               + inject_Z (archiveBufferGB config))%Q = true ->
  manageArchive env fuel config (Some release) s = (Ok false, s).
Proof.
  intros Hfind Hloop Hroom. unfold manageArchive. rewrite Hfind.
  destruct (filter _ (archiveDisksSections config)); simpl; [reflexivity |].
  unfold bind, reads. rewrite Hloop, Hroom. reflexivity.
Qed.

(* ================================================================== *)
(** * Reclaiming archive space *)
(* ================================================================== *)


(** With three archived releases and the threshold met after two
    deletions, the loop deletes the two oldest and keeps the third. *)
Example manageArchiveDiskSpace_two_deletions :
  manageArchiveDiskSpace ReclaimSample.env 3 ReclaimSample.config
                         ReclaimSample.start
  = (Ok true, ReclaimSample.final).
Proof. vm_compute. reflexivity. Qed.

(** C5.  Called without a release, [manageArchive] runs the reclaimer
    and then returns false whatever the reclaimer returned: here the
    reclaimer deletes two releases and returns true, and [manageArchive]
    returns false. *)
Theorem manageArchive_null_release_false :
  (forall env fuel config s b s',
      manageArchive env fuel config None s = (Ok b, s') -> b = false)
  /\ manageArchiveDiskSpace ReclaimSample.env 3 ReclaimSample.config
                            ReclaimSample.start
     = (Ok true, ReclaimSample.final)
  /\ manageArchive ReclaimSample.env 3 ReclaimSample.config None
                   ReclaimSample.start
     = (Ok false, ReclaimSample.final).
Proof.
  split; [| split; vm_compute; reflexivity].
  intros env fuel config s b s' E. unfold manageArchive, bind in E.
  destruct (manageArchiveSpace env fuel config s) as [[c | |] s1];
    try discriminate.
  injection E as <- _. reflexivity.
Qed.

(** With [debug] set, a pass of the loop neither deletes nor breaks: as
    long as the device is below the threshold and a release is found,
    the loop goes on with the same state, whatever the fuel. *)
Lemma cleanupLoop_debug_diverges env config device sections freeSpace s oldest :
  debug config = true ->
  Js.lt freeSpace (Js.Num (freeSpaceLimitGBArchive config)) = true ->
  getOldestArchiveRelease env (fs s) sections = Some oldest ->
  forall fuel cleanupPerformed,
    cleanupLoop env fuel config device sections freeSpace cleanupPerformed s
    = (OutOfFuel, s).
Proof.
  intros Hd Hlow Hold fuel.
  induction fuel as [| fuel IH]; intros cp; simpl; [reflexivity |].
  rewrite Hlow. unfold bind at 1, reads. rewrite Hold.
  unfold bind, try_catch. rewrite Hd. simpl. apply IH.
Qed.

(** C8.  With [debug] set and a device below the threshold that holds a
    release, the reclaim loop does not end: no amount of fuel lets
    [manageArchiveDiskSpace] return. *)
Theorem manageArchiveDiskSpace_debug_loops :
  forall fuel,
    manageArchiveDiskSpace ReclaimSample.env fuel ReclaimSample.config_debug
                           ReclaimSample.start
    = (OutOfFuel, ReclaimSample.start).
Proof.
  intros fuel.
  assert (Hloop : cleanupLoop ReclaimSample.env fuel ReclaimSample.config_debug
                    "/dev/sdb1" [ReclaimSample.archive] (Js.Num 80) false
                    ReclaimSample.start
                  = (OutOfFuel, ReclaimSample.start)).
  { apply (cleanupLoop_debug_diverges ReclaimSample.env
             ReclaimSample.config_debug "/dev/sdb1" [ReclaimSample.archive]
             (Js.Num 80) ReclaimSample.start
             (mkRelease ["arc1"; "r1"] "r1" 10 5 "TV")); reflexivity. }
  unfold manageArchiveDiskSpace, bind at 1, await_opt.
  replace (group_by_device (archiveDisksSections ReclaimSample.config_debug))
    with (Some [("/dev/sdb1", [ReclaimSample.archive])])
    by (vm_compute; reflexivity).
  unfold cleanupDisks, bind at 1, await.
  replace (probe ReclaimSample.env (fs ReclaimSample.start) "/dev/sdb1")
    with (Resolved (Js.Num 80)) by (vm_compute; reflexivity).
  replace (Js.ge (Js.Num 80)
                 (Js.Num (freeSpaceLimitGBArchive ReclaimSample.config_debug)))
    with false by reflexivity.
  unfold bind at 1. rewrite Hloop. reflexivity.
Qed.

(* ------------------------------------------------------------------ *)
(** ** Without [debug] the loop ends *)


Lemma nodes_Dir m es : nodes (Dir m es) = S (entries_nodes es).
Proof.
  simpl. f_equal. induction es as [| [n c] es IH]; simpl; [reflexivity |].
  rewrite IH. reflexivity.
Qed.

Lemma nodes_pos n : (0 < nodes n)%nat.
Proof. destruct n; simpl; lia. Qed.

Lemma entries_nodes_remove_le name es :
  (entries_nodes (remove_entry name es) <= entries_nodes es)%nat.
Proof.
  induction es as [| [n c] es IH]; simpl; [lia |].
  destruct (String.eqb n name); simpl; lia.
Qed.

Lemma entries_nodes_remove name c es :
  lookup_entry name es = Some c ->
  (entries_nodes (remove_entry name es) < entries_nodes es)%nat.
Proof.
  induction es as [| [n d] es IH]; simpl; [discriminate |].
  destruct (String.eqb n name); simpl.
  - intros _. pose proof (entries_nodes_remove_le name es).
    pose proof (nodes_pos d). lia.
  - intros E. specialize (IH E). lia.
Qed.

Lemma entries_nodes_set name c c' es :
  lookup_entry name es = Some c ->
  (nodes c' < nodes c)%nat ->
  (entries_nodes (set_entry name c' es) < entries_nodes es)%nat.
Proof.
  induction es as [| [n d] es IH]; simpl; [discriminate |].
  destruct (String.eqb n name); simpl.
  - intros E. injection E as ->. lia.
  - intros E H. specialize (IH E H). lia.
Qed.

(** Removing something that is there makes the tree smaller. *)
Lemma nodes_remove_at now p :
  forall root x,
    p <> [] -> resolve p root = Some x ->
    (nodes (remove_at now p root) < nodes root)%nat.
Proof.
  induction p as [| name rest IH]; intros root x Hp Hr; [contradiction |].
  destruct root as [m sz | m es]; [discriminate |].
  cbn [resolve] in Hr. cbn [remove_at].
  destruct (lookup_entry name es) as [c |] eqn:El; [| discriminate].
  destruct rest as [| name' rest'].
  - rewrite !nodes_Dir. pose proof (entries_nodes_remove _ _ _ El). lia.
  - rewrite !nodes_Dir.
    assert (nodes (remove_at now (name' :: rest') c) < nodes c)%nat
      by (apply (IH c x); [discriminate | exact Hr]).
    pose proof (entries_nodes_set name c _ es El H). lia.
Qed.

Lemma validDirectories_path env root s r :
  In r (validDirectories env root s) -> rel_path r <> [].
Proof.
  unfold validDirectories.
  destruct (readdir env root (sec_path s)) as [entries |]; [| intros []].
  rewrite in_not_null, in_map_iff. intros (dir & E & Hin).
  apply in_map_iff in Hin as (entry & <- & _).
  unfold scanDirectory in E. simpl in E.
  destruct (stat root (sec_path s ++ [d_name entry])); [| discriminate].
  destruct (sec_dated s && _)%bool; [discriminate |].
  injection E as <-. simpl. destruct (sec_path s); discriminate.
Qed.

Lemma findOldestDirectory_path env root sections r :
  findOldestDirectory env root sections = Some r -> rel_path r <> [].
Proof.
  intros E. pose proof (findOldestDirectory_scanned env root sections) as H.
  rewrite E in H. destruct H as (before & after & Hl & _).
  assert (Hin : In r (List.concat (map (validDirectories env root) sections)))
    by (rewrite Hl; apply in_or_app; right; left; reflexivity).
  apply in_concat in Hin as (l & Hl' & Hr).
  apply in_map_iff in Hl' as (s & <- & _).
  apply (validDirectories_path env root s r Hr).
Qed.

Lemma deleteDirectory_cases env p s :
  (exists s1, deleteDirectory env p s = (Throw, s1))
  \/ ((exists x, resolve p (fs s) = Some x)
      /\ deleteDirectory env p s
         = (Ok tt, mkState (remove_at (now env) p (fs s))
                           (trace s ++ [EvDelete p]))).
Proof.
  unfold deleteDirectory, bind, emit. cbn [fs trace].
  destruct (resolve p (fs s)) as [[m sz | m es] |]; eauto.
  destruct (rm_tree env p (Dir m es)); eauto.
Qed.

(** The [try] block of a pass without [debug]: it breaks, or it has
    removed the release and read the free space again. *)
Lemma cleanup_pass env device p s :
  (exists s1,
      try_catch
        (deleteDirectory env p ;;;
         freeSpace' <- await (fun root => probe env root device) ;;
         ret (Some (freeSpace', true)))
        (ret None) s = (Ok None, s1))
  \/ (exists f x,
        resolve p (fs s) = Some x
        /\ try_catch
             (deleteDirectory env p ;;;
              freeSpace' <- await (fun root => probe env root device) ;;
              ret (Some (freeSpace', true)))
             (ret None) s
           = (Ok (Some (f, true)),
              mkState (remove_at (now env) p (fs s))
                      (trace s ++ [EvDelete p]))).
Proof.
  unfold try_catch, bind, await.
  destruct (deleteDirectory_cases env p s) as [(s1 & ->) | ((x & Hx) & ->)].
  - left. unfold ret. eauto.
  - cbn [fs].
    destruct (probe env (remove_at (now env) p (fs s)) device) as [f |].
    + right. exists f, x. split; [exact Hx | reflexivity].
    + left. unfold ret. eauto.
Qed.

(** Without [debug] every pass of the loop that does not end it removes
    a directory, so the loop returns once the fuel exceeds the size of
    the tree. *)
Lemma cleanupLoop_terminates env config device sections :
  debug config = false ->
  forall fuel freeSpace cleanupPerformed s,
    (nodes (fs s) < fuel)%nat ->
    exists b s',
      cleanupLoop env fuel config device sections freeSpace cleanupPerformed s
      = (Ok b, s').
Proof.
  intros Hd fuel.
  induction fuel as [| fuel IH]; intros free cp s Hfuel; [lia |].
  cbn [cleanupLoop]. destruct (Js.lt free _); [| unfold ret; eauto].
  unfold bind at 1, reads.
  destruct (getOldestArchiveRelease env (fs s) sections) as [oldest |] eqn:Hold;
    [| unfold ret; eauto].
  apply findOldestDirectory_path in Hold.
  rewrite Hd. cbn [negb]. unfold bind at 1.
  destruct (cleanup_pass env device (rel_path oldest) s)
    as [(s1 & ->) | (f & x & Hr & ->)].
  - unfold ret. eauto.
  - apply IH. cbn [fs].
    pose proof (nodes_remove_at (now env) _ _ _ Hold Hr). lia.
Qed.

(* ================================================================== *)
(** * An empty release in the incoming tier *)
(* ================================================================== *)


Lemma deleteDirectory_empty env p s :
  isDirectoryEmpty env (fs s) p = true ->
  denied env p = false ->
  deleteDirectory env p s
  = (Ok tt, mkState (remove_at (now env) p (fs s)) (trace s ++ [EvDelete p])).
Proof.
  unfold isDirectoryEmpty, readdir. intros He Hd.
  destruct (unreadable env p) eqn:Hu; [discriminate |].
  unfold deleteDirectory, bind, emit. cbn [fs trace].
  destruct (resolve p (fs s)) as [[m sz | m es] |]; try discriminate.
  destruct es as [| e es]; [| discriminate].
  cbn [rm_tree]. rewrite Hu, Hd. reflexivity.
Qed.

(** When the removal of the empty release brings the device back to the
    threshold, [manageIncoming] stops there: the directory is gone,
    nothing else was run, and the call returns true. *)
Lemma manageIncoming_empty_release_done env config section s free oldest free' :
  debug config = false ->
  probe env (fs s) (sec_device section) = Resolved free ->
  Js.ge free (Js.Num (freeSpaceLimitGBRace config)) = false ->
  getOldestIncomingRelease env (fs s) (incomingDisksSections config)
    = Some oldest ->
  isDirectoryEmpty env (fs s) (rel_path oldest) = true ->
  denied env (rel_path oldest) = false ->
  probe env (remove_at (now env) (rel_path oldest) (fs s)) (sec_device section)
    = Resolved free' ->
  Js.ge free' (Js.Num (freeSpaceLimitGBRace config)) = true ->
  manageIncoming env config section s
  = (Ok true, mkState (remove_at (now env) (rel_path oldest) (fs s))
                      (trace s ++ [EvDelete (rel_path oldest)]))
  /\ resolve (rel_path oldest) (remove_at (now env) (rel_path oldest) (fs s))
     = None.
Proof.
  intros Hd Hp Hlow Hold He Hden Hp' Hok. split.
  - unfold manageIncoming, bind at 1, await. rewrite Hp, Hlow.
    unfold bind at 1, reads. rewrite Hold.
    unfold bind at 1. rewrite He, Hd. cbn [negb].
    unfold bind at 1, try_catch, bind at 1.
    rewrite (deleteDirectory_empty env _ s He Hden).
    unfold recheck, bind, await. cbn [fs]. rewrite Hp', Hok. reflexivity.
  - apply findOldestDirectory_path in Hold.
    rewrite <- (app_nil_r (rel_path oldest)) at 1.
    apply resolve_remove_at. exact Hold.
Qed.

(** C3.  The empty release is not the end of the call when its removal
    leaves the device below the threshold.  With an archive section of
    its label, [manageIncoming] goes on to [manageArchive] for the
    release it has just removed: the directory of that name in the
    archive is wiped and a copy is started (it fails).  Without such a
    section it tries to delete the release a second time, and the call
    returns false. *)
Theorem manageIncoming_empty_release_falls_through :
  findOldestDirectory PlaceSample.env EmptySample.root [Sample.incoming]
  = Some (mkRelease ["site"; "TV"; "rel"] "rel" 1000 0 "TV")
  /\ isDirectoryEmpty PlaceSample.env EmptySample.root ["site"; "TV"; "rel"] = true
  /\ manageIncoming PlaceSample.env Sample.config Sample.incoming
                    EmptySample.start
     = (Ok true,
        mkState
          (Dir 0 [("site", Dir 0 [("TV", Dir (100 * Sample.hour) [])]);
                  ("arc1", Dir 0 [("TV", Dir 0 [])]);
                  ("arc2", Dir 0 [("X264", Dir (100 * Sample.hour) [])])])
          [EvDelete ["site"; "TV"; "rel"];
           EvWipe ["arc2"; "X264"; "rel"];
           EvRclone ["site"; "TV"] "rel" ["arc2"; "X264"]])
  /\ manageIncoming PlaceSample.env EmptySample.config_no_tier Sample.incoming
                    EmptySample.start
     = (Ok false,
        mkState
          (Dir 0 [("site", Dir 0 [("TV", Dir (100 * Sample.hour) [])]);
                  ("arc1", Dir 0 [("TV", Dir 0 [])]);
                  ("arc2", Dir 0 [("X264", Dir 0 [("rel", Dir 500 [("keep.mkv", File 500 4096)])])])])
          [EvDelete ["site"; "TV"; "rel"];
           EvDelete ["site"; "TV"; "rel"]]).
Proof. repeat split; vm_compute; reflexivity. Qed.

(* ================================================================== *)
(** * Calls that end, calls that change nothing *)
(* ================================================================== *)

Section Halts.

Context {A B : Type}.

Lemma halts_ret (a : A) : halts (ret a).
Proof. intros s. discriminate. Qed.

Lemma halts_reads (f : node -> A) : halts (reads f).
Proof. intros s. discriminate. Qed.

Lemma halts_await (f : node -> Settled A) : halts (await f).
Proof. intros s. unfold await. destruct (f (fs s)); discriminate. Qed.

Lemma halts_await_opt (f : node -> option A) : halts (await_opt f).
Proof. intros s. unfold await_opt. destruct (f (fs s)); discriminate. Qed.

Lemma halts_bind (m : M A) (k : A -> M B) :
  halts m -> (forall a, halts (k a)) -> halts (bind m k).
Proof.
  intros Hm Hk s. unfold bind. specialize (Hm s).
  destruct (m s) as [[a | |] s1]; simpl in *;
    [apply Hk | discriminate | contradiction].
Qed.

Lemma halts_try_catch (m h : M A) :
  halts m -> halts h -> halts (try_catch m h).
Proof.
  intros Hm Hh s. unfold try_catch. specialize (Hm s).
  destruct (m s) as [[a | |] s1]; simpl in *;
    [discriminate | apply Hh | contradiction].
Qed.

Lemma readonly_ret (a : A) : readonly (ret a).
Proof. intros s. reflexivity. Qed.

Lemma readonly_reads (f : node -> A) : readonly (reads f).
Proof. intros s. reflexivity. Qed.

Lemma readonly_await (f : node -> Settled A) : readonly (await f).
Proof. intros s. unfold await. destruct (f (fs s)); reflexivity. Qed.

Lemma readonly_await_opt (f : node -> option A) : readonly (await_opt f).
Proof. intros s. unfold await_opt. destruct (f (fs s)); reflexivity. Qed.

Lemma readonly_bind (m : M A) (k : A -> M B) :
  readonly m -> (forall a, readonly (k a)) -> readonly (bind m k).
Proof.
  intros Hm Hk s. unfold bind. specialize (Hm s).
  destruct (m s) as [[a | |] s1]; simpl in *; subst s1;
    [apply Hk | reflexivity | reflexivity].
Qed.

Lemma readonly_try_catch (m h : M A) :
  readonly m -> readonly h -> readonly (try_catch m h).
Proof.
  intros Hm Hh s. unfold try_catch. specialize (Hm s).
  destruct (m s) as [[a | |] s1]; simpl in *; subst s1;
    [reflexivity | apply Hh | reflexivity].
Qed.

End Halts.

Lemma halts_emit e : halts (emit e).
Proof. intros s. discriminate. Qed.

Lemma halts_deleteDirectory env p : halts (deleteDirectory env p).
Proof.
  unfold deleteDirectory. apply halts_bind; [apply halts_emit | intros _].
  intros s. destruct (resolve p (fs s)) as [[m sz | m es] |]; try discriminate.
  destruct (rm_tree env p (Dir m es)); discriminate.
Qed.

Lemma halts_run_shell env e : halts (run_shell env e).
Proof.
  intros s. unfold run_shell. destruct (shell env e (fs s)) as [r []];
    discriminate.
Qed.

Lemma halts_wipeDestination env p name : halts (wipeDestination env p name).
Proof.
  unfold wipeDestination. apply halts_bind; [apply halts_emit | intros _].
  destruct (literal (p ++ [name])); [| apply halts_run_shell].
  intros s. destruct (denied env (p ++ [name])); discriminate.
Qed.

Lemma halts_rcloneSync env config src name dst :
  halts (rcloneSync env config src name dst).
Proof.
  unfold rcloneSync. destruct (debug config); [apply halts_ret |].
  apply halts_bind; [apply halts_emit | intros _].
  destruct (literal (src ++ [name]) && literal (dst ++ [name]));
    [| apply halts_run_shell].
  intros s.
  destruct (resolve (src ++ [name]) (fs s)) as [[m sz | m es] |]; try discriminate.
  destruct (unreadable env (src ++ [name])); try discriminate.
  destruct (rclone env (Dir m es)); try discriminate.
  destruct (write_at _ _ _ _); discriminate.
Qed.

Lemma halts_setTimestamp env config p ts : halts (setTimestamp env config p ts).
Proof.
  unfold setTimestamp. destruct (debug config); [apply halts_ret |].
  apply halts_bind; [apply halts_emit | intros _].
  destruct (literal p); [| apply halts_run_shell].
  intros s. destruct (denied env p); try discriminate.
  destruct (resolve p (fs s)); try discriminate.
  destruct (resolve (parent p) (fs s)) as [[m sz | m es] |]; discriminate.
Qed.

Lemma halts_verifyFileCount env src dst : halts (verifyFileCount env src dst).
Proof. intros s. rewrite verifyFileCount_total. discriminate. Qed.

(** With a release, [manageArchive] always returns a boolean: whatever
    fails inside is caught, and the reclaim loop is not entered. *)
Theorem manageArchive_release_returns env fuel config release s :
  exists b s', manageArchive env fuel config (Some release) s = (Ok b, s').
Proof.
  assert (Hok : forall (m : M bool) st,
             halts m -> exists b s', try_catch m (ret false) st = (Ok b, s')).
  { intros m st Hm. unfold try_catch. specialize (Hm st).
    destruct (m st) as [[b | |] s1]; simpl in *; unfold ret; eauto.
    contradiction. }
  unfold manageArchive.
  destruct (find _ (incomingDisksSections config)) as [inc |];
    [| unfold ret; eauto].
  destruct (filter _ (archiveDisksSections config)); simpl;
    [unfold ret; eauto |].
  unfold bind at 1, reads.
  destruct (mostFreeLoop env (fs s) (archiveDisksSections config) None (Js.Num 0))
    as [[best |] most]; [| unfold ret; eauto].
  destruct (Js.ltQ most _); [unfold ret; eauto |].
  apply Hok.
  destruct (debug config); simpl; [apply halts_ret |].
  apply halts_bind; [apply halts_wipeDestination | intros _].
  apply halts_bind; [apply halts_rcloneSync | intros _].
  apply halts_bind; [apply halts_verifyFileCount | intros v].
  destruct v; simpl; [| apply halts_ret].
  apply halts_bind; [apply halts_await_opt | intros st].
  apply halts_bind; [apply halts_setTimestamp | intros _].
  apply halts_bind; [apply halts_wipeDestination | intros _].
  apply halts_ret.
Qed.

(* ------------------------------------------------------------------ *)
(** ** [debug]: a dry run *)

Lemma cleanupLoop_debug env config device sections :
  debug config = true ->
  forall fuel freeSpace cleanupPerformed s,
    exists o,
      cleanupLoop env fuel config device sections freeSpace cleanupPerformed s
      = (o, s)
      /\ forall b, o = Ok b -> b = cleanupPerformed.
Proof.
  intros Hd fuel.
  induction fuel as [| fuel IH]; intros free cp s; cbn [cleanupLoop].
  - exists OutOfFuel. split; [reflexivity | discriminate].
  - destruct (Js.lt free _);
      [| exists (Ok cp); split; [reflexivity | congruence]].
    unfold bind at 1, reads.
    destruct (getOldestArchiveRelease env (fs s) sections);
      [| exists (Ok cp); split; [reflexivity | congruence]].
    rewrite Hd. cbn [negb]. unfold bind at 1, try_catch, ret. apply IH.
Qed.

Lemma cleanupDisks_debug env fuel config :
  debug config = true ->
  forall disks cleanupPerformed s,
    exists o,
      cleanupDisks env fuel config disks cleanupPerformed s = (o, s)
      /\ forall b, o = Ok b -> b = cleanupPerformed.
Proof.
  intros Hd disks.
  induction disks as [| [device sections] disks IH]; intros cp s;
    cbn [cleanupDisks].
  - exists (Ok cp). split; [reflexivity | congruence].
  - unfold bind at 1, await.
    destruct (probe env (fs s) device) as [free |];
      [| exists Throw; split; [reflexivity | discriminate]].
    destruct (Js.ge free _); [apply IH |].
    unfold bind.
    destruct (cleanupLoop_debug env config device sections Hd fuel free cp s)
      as (o & -> & Hb).
    destruct o as [b | |].
    + rewrite (Hb b eq_refl). apply IH.
    + exists Throw. split; [reflexivity | discriminate].
    + exists OutOfFuel. split; [reflexivity | discriminate].
Qed.

Lemma reclaimer_debug env fuel config s :
  debug config = true ->
  snd (manageArchiveDiskSpace env fuel config s) = s
  /\ fst (manageArchiveDiskSpace env fuel config s) <> Ok true.
Proof.
  intros Hd. unfold manageArchiveDiskSpace, bind, await_opt.
  destruct (group_by_device (archiveDisksSections config)) as [disks |];
    [| split; [reflexivity | discriminate]].
  destruct (cleanupDisks_debug env fuel config Hd disks false s)
    as (o & -> & Hb).
  split; [reflexivity |].
  simpl. intros E. specialize (Hb true E). discriminate.
Qed.

(** With [debug] set the reclaimer changes nothing and never reports a
    cleanup. *)
Theorem manageArchiveDiskSpace_debug env fuel config s :
  debug config = true ->
  snd (manageArchiveDiskSpace env fuel config s) = s
  /\ fst (manageArchiveDiskSpace env fuel config s) <> Ok true.
Proof. apply reclaimer_debug. Qed.

Lemma manageArchiveDiskSpace_debug_witness :
  snd (manageArchiveDiskSpace ReclaimSample.env 5 ReclaimSample.config_debug
                              ReclaimSample.start) = ReclaimSample.start
  /\ fst (manageArchiveDiskSpace ReclaimSample.env 5 ReclaimSample.config_debug
                                 ReclaimSample.start) <> Ok true.
Proof.
  apply (manageArchiveDiskSpace_debug ReclaimSample.env 5
           ReclaimSample.config_debug ReclaimSample.start).
  reflexivity.
Defined.

Lemma manageArchive_debug_readonly env fuel config incomingRelease :
  debug config = true ->
  readonly (manageArchive env fuel config incomingRelease).
Proof.
  intros Hd. destruct incomingRelease as [release |].
  - unfold manageArchive.
    destruct (find _ (incomingDisksSections config)) as [inc |];
      [| apply readonly_ret].
    destruct (filter _ (archiveDisksSections config)); simpl;
      [apply readonly_ret |].
    apply readonly_bind; [apply readonly_reads | intros [[best |] most]];
      [| apply readonly_ret].
    destruct (Js.ltQ most _); [apply readonly_ret |].
    rewrite Hd. simpl.
    apply readonly_try_catch; apply readonly_ret.
  - unfold manageArchive, manageArchiveSpace.
    apply readonly_bind; [| intros b; apply readonly_ret].
    intros s. apply (reclaimer_debug env fuel config s Hd).
Qed.

Lemma recheck_readonly env config device : readonly (recheck env config device).
Proof.
  unfold recheck. apply readonly_bind; [apply readonly_await | intros f].
  destruct (Js.ge f _); apply readonly_ret.
Qed.

Lemma manageIncoming_debug_readonly env config section :
  debug config = true ->
  readonly (manageIncoming env config section).
Proof.
  intros Hd. unfold manageIncoming.
  apply readonly_bind; [apply readonly_await | intros free].
  destruct (Js.ge free _); [apply readonly_ret |].
  apply readonly_bind; [apply readonly_reads | intros [oldest |]];
    [| apply readonly_ret].
  apply readonly_bind; [apply readonly_reads | intros isEmpty].
  rewrite Hd. cbn [negb].
  apply readonly_bind.
  { destruct isEmpty; [| apply readonly_ret].
    apply readonly_try_catch; apply readonly_ret. }
  intros [b |]; simpl; [apply readonly_ret |].
  destruct (find _ (archiveDisksSections config)) as [archiveSection |].
  - apply readonly_bind; [apply readonly_await | intros archiveFree].
    destruct (Js.ltQ archiveFree _); [apply readonly_ret |].
    apply readonly_bind; [apply readonly_try_catch; apply readonly_ret |].
    intros [b |]; apply readonly_ret.
  - apply readonly_bind; [apply readonly_try_catch; apply readonly_ret |].
    intros [b |]; apply readonly_ret.
Qed.

Lemma manageIncomingSections_debug_readonly env config sections :
  debug config = true ->
  forall spaceFreed,
    readonly (manageIncomingSections env config sections spaceFreed).
Proof.
  intros Hd. induction sections as [| section rest IH]; intros sf;
    cbn [manageIncomingSections].
  - apply readonly_ret.
  - apply readonly_bind; [apply manageIncoming_debug_readonly; exact Hd |].
    intros b. apply IH.
Qed.

Lemma manageArchiveSections_debug_readonly env fuel config sections :
  debug config = true ->
  forall spaceFreed,
    readonly (manageArchiveSections env fuel config sections spaceFreed).
Proof.
  intros Hd. induction sections as [| section rest IH]; intros sf;
    cbn [manageArchiveSections].
  - apply readonly_ret.
  - destruct (path_eqb (sec_path section) [] || _)%bool; [apply IH |].
    apply readonly_bind; [apply readonly_await | intros free].
    destruct (Js.lt free _); [| apply IH].
    apply readonly_bind; [apply manageArchive_debug_readonly; exact Hd |].
    intros b. apply IH.
Qed.

(** With [debug] set nothing is executed: [manageIncoming],
    [manageArchive] (with or without a release) and a whole round of
    [main] leave the filesystem as it is and run no command. *)
Theorem debug_dry_run env fuel config :
  debug config = true ->
  (forall section, readonly (manageIncoming env config section))
  /\ (forall incomingRelease,
        readonly (manageArchive env fuel config incomingRelease))
  /\ readonly (mainRound env fuel config).
Proof.
  intros Hd. split; [| split].
  - intros section. apply manageIncoming_debug_readonly. exact Hd.
  - intros r. apply manageArchive_debug_readonly. exact Hd.
  - unfold mainRound. apply readonly_try_catch; [| apply readonly_ret].
    apply readonly_bind;
      [apply manageIncomingSections_debug_readonly; exact Hd | intros sf].
    apply readonly_bind;
      [apply manageArchiveSections_debug_readonly; exact Hd | intros sf'].
    apply readonly_ret.
Qed.

Lemma debug_dry_run_witness :
  (forall section,
      readonly (manageIncoming ReclaimSample.env ReclaimSample.config_debug section))
  /\ (forall incomingRelease,
        readonly (manageArchive ReclaimSample.env 5 ReclaimSample.config_debug
                                incomingRelease))
  /\ readonly (mainRound ReclaimSample.env 5 ReclaimSample.config_debug).
Proof.
  apply (debug_dry_run ReclaimSample.env 5 ReclaimSample.config_debug).
  reflexivity.
Defined.

(* ================================================================== *)
(** * What a scan returns *)
(* ================================================================== *)

Lemma scanDirectory_some env root s dir r :
  scanDirectory env root s dir = Some r
  <-> exists stats,
        stat root (fst dir) = Some stats
        /\ (sec_dated s = true -> now env - st_mtimeMs stats > oneDayInMs)
        /\ r = mkRelease (fst dir) (snd dir) (st_mtimeMs stats)
                         (getDirectorySize env root (fst dir)) (sec_section s).
Proof.
  destruct (sec_dated s) eqn:Hd.
  - rewrite (scanDirectory_dated env root s dir r Hd). split.
    + intros (stats & E1 & E2 & E3). exists stats. auto.
    + intros (stats & E1 & E2 & E3). exists stats. auto.
  - unfold scanDirectory. rewrite Hd. simpl.
    destruct (stat root (fst dir)) as [stats |].
    + split.
      * intros E. exists stats. repeat split; [discriminate | congruence].
      * intros (st' & E & _ & ->). congruence.
    + split; [discriminate | intros (st' & E & _); discriminate].
Qed.

Lemma validDirectories_iff env root s entries r :
  readdir env root (sec_path s) = Some entries ->
  (In r (validDirectories env root s)
   <-> exists entry stats,
         In entry entries
         /\ d_isDirectory entry = true
         /\ stat root (sec_path s ++ [d_name entry]) = Some stats
         /\ (sec_dated s = true -> now env - st_mtimeMs stats > oneDayInMs)
         /\ r = mkRelease (sec_path s ++ [d_name entry]) (d_name entry)
                          (st_mtimeMs stats)
                          (getDirectorySize env root (sec_path s ++ [d_name entry]))
                          (sec_section s)).
Proof.
  intros Hr. unfold validDirectories. rewrite Hr.
  rewrite in_not_null, in_map_iff. split.
  - intros (dir & E & Hin).
    apply in_map_iff in Hin as (entry & <- & Hin).
    apply filter_In in Hin as [Hin Hdir].
    apply scanDirectory_some in E as (stats & E1 & E2 & E3).
    exists entry, stats. auto.
  - intros (entry & stats & Hin & Hdir & E1 & E2 & E3).
    exists (sec_path s ++ [d_name entry], d_name entry). split.
    + apply scanDirectory_some. exists stats. auto.
    + apply in_map_iff. exists entry. split; [reflexivity |].
      apply filter_In. auto.
Qed.

(* ------------------------------------------------------------------ *)
(** ** The earliest release, the first seen *)

Lemma not_null_filter_map {A B C} (P : A -> bool) (g : A -> B)
  (f : B -> option C) (l : list A) :
  not_null (map f (map g (filter P l)))
  = not_null (map (fun x => if P x then f (g x) else None) l).
Proof.
  induction l as [| x l IH]; simpl; [reflexivity |].
  destruct (P x); simpl; [| exact IH].
  destruct (f (g x)); rewrite IH; reflexivity.
Qed.

Lemma not_null_map_split {A B} (f : A -> option B) (l : list A) :
  forall before r after,
    not_null (map f l) = before ++ r :: after ->
    exists lb x la,
      l = lb ++ x :: la
      /\ f x = Some r
      /\ not_null (map f lb) = before
      /\ not_null (map f la) = after.
Proof.
  induction l as [| y l IH]; intros before r after E; simpl in E.
  - destruct before; discriminate.
  - destruct (f y) as [r0 |] eqn:Ey.
    + destruct before as [| b0 before].
      * simpl in E. injection E as -> <-.
        exists [], y, l. simpl. auto.
      * simpl in E. injection E as -> E.
        destruct (IH before r after E) as (lb & x & la & -> & Hx & Hb & Ha).
        exists (y :: lb), x, la. simpl. rewrite Ey, Hb. auto.
    + destruct (IH before r after E) as (lb & x & la & -> & Hx & Hb & Ha).
      exists (y :: lb), x, la. simpl. rewrite Ey. auto.
Qed.

Lemma concat_map_split {A B} (f : A -> list B) (l : list A) :
  forall before r after,
    List.concat (map f l) = before ++ r :: after ->
    exists lb x la before' after',
      l = lb ++ x :: la
      /\ f x = before' ++ r :: after'
      /\ before = List.concat (map f lb) ++ before'
      /\ after = after' ++ List.concat (map f la).
Proof.
  induction l as [| y l IH]; intros before r after E; simpl in E.
  - destruct before; discriminate.
  - apply app_eq_app in E as (l2 & [[E1 E2] | [E1 E2]]).
    + destruct l2 as [| r' l2].
      * simpl in E2. rewrite app_nil_r in E1.
        destruct (IH [] r after (eq_sym E2))
          as (lb & x & la & b' & a' & -> & Hx & Hb & Ha).
        exists (y :: lb), x, la, b', a'. simpl.
        rewrite <- app_assoc, <- Hb, app_nil_r. auto.
      * simpl in E2. injection E2 as <- ->.
        exists [], y, l, before, l2. simpl. auto.
    + destruct (IH l2 r after E2)
        as (lb & x & la & b' & a' & -> & Hx & Hb & Ha).
      exists (y :: lb), x, la, b', a'. simpl.
      rewrite <- app_assoc, <- Hb. auto.
Qed.

(** The valid directories of a section, entry by entry. *)
Lemma validDirectories_entries env root s entries :
  readdir env root (sec_path s) = Some entries ->
  validDirectories env root s
  = not_null (map (fun entry =>
                     if d_isDirectory entry then
                       scanDirectory env root s
                         (sec_path s ++ [d_name entry], d_name entry)
                     else None) entries).
Proof.
  intros Hr. unfold validDirectories. rewrite Hr.
  apply (not_null_filter_map d_isDirectory
           (fun entry => (sec_path s ++ [d_name entry], d_name entry))
           (scanDirectory env root s)).
Qed.

Lemma candidate_scanned env root s entry r :
  candidate env root s entry r
  <-> (if d_isDirectory entry then
         scanDirectory env root s (sec_path s ++ [d_name entry], d_name entry)
       else None) = Some r.
Proof.
  unfold candidate. destruct (d_isDirectory entry).
  - rewrite scanDirectory_some. simpl. split.
    + intros [_ H]. exact H.
    + intros H. split; [reflexivity | exact H].
  - split; [intros [H _]; discriminate | discriminate].
Qed.

Lemma candidate_valid env root s entries entry r :
  readdir env root (sec_path s) = Some entries ->
  In entry entries ->
  candidate env root s entry r ->
  In r (validDirectories env root s).
Proof.
  intros Hr Hin Hc. rewrite (validDirectories_entries env root s entries Hr).
  apply in_not_null. apply in_map_iff. exists entry. split; [| exact Hin].
  apply candidate_scanned. exact Hc.
Qed.

Lemma candidate_in_valid env root sections r :
  candidate_in env root sections r ->
  In r (List.concat (map (validDirectories env root) sections)).
Proof.
  intros (s & entries & entry & Hs & Hr & Hin & Hc).
  apply in_concat. exists (validDirectories env root s). split.
  - apply in_map. exact Hs.
  - apply (candidate_valid env root s entries entry r Hr Hin Hc).
Qed.

(** What the scan returns, in terms of the listings. *)
Lemma findOldestDirectory_scan env root sections o :
  findOldestDirectory env root sections = o ->
  match o with
  | None => forall r, ~ candidate_in env root sections r
  | Some r =>
      exists sbefore s safter ebefore entry eafter,
        sections = sbefore ++ s :: safter
        /\ readdir env root (sec_path s) = Some (ebefore ++ entry :: eafter)
        /\ candidate env root s entry r
        /\ (forall c, candidate_in env root sbefore c ->
                      rel_mtime r < rel_mtime c)
        /\ (forall e c, In e ebefore -> candidate env root s e c ->
                        rel_mtime r < rel_mtime c)
        /\ (forall e c, In e eafter -> candidate env root s e c ->
                        rel_mtime r <= rel_mtime c)
        /\ (forall c, candidate_in env root safter c ->
                      rel_mtime r <= rel_mtime c)
  end.
Proof.
  intros <-. pose proof (findOldestDirectory_scanned env root sections) as H.
  destruct (findOldestDirectory env root sections) as [r |]; simpl in H.
  - destruct H as (before & after & Hl & Hbefore & Hafter).
    rewrite Forall_forall in Hbefore, Hafter.
    apply concat_map_split in Hl
      as (sb & s & sa & b' & a' & -> & Hs & -> & ->).
    destruct (readdir env root (sec_path s)) as [entries |] eqn:Hread.
    2:{ unfold validDirectories in Hs. rewrite Hread in Hs.
        destruct b'; discriminate. }
    rewrite (validDirectories_entries env root s entries Hread) in Hs.
    apply not_null_map_split in Hs as (eb & entry & ea & -> & Hentry & <- & <-).
    exists sb, s, sa, eb, entry, ea.
    split; [reflexivity |]. split; [exact Hread |].
    split; [apply candidate_scanned; exact Hentry |].
    split; [| split; [| split]].
    + intros c Hc. apply Hbefore. apply in_or_app. left.
      apply candidate_in_valid. exact Hc.
    + intros e c He Hc. apply Hbefore. apply in_or_app. right.
      apply in_not_null. apply in_map_iff. exists e.
      split; [apply candidate_scanned; exact Hc | exact He].
    + intros e c He Hc. apply Hafter. apply in_or_app. left.
      apply in_not_null. apply in_map_iff. exists e.
      split; [apply candidate_scanned; exact Hc | exact He].
    + intros c Hc. apply Hafter. apply in_or_app. right.
      apply candidate_in_valid. exact Hc.
  - intros r Hc. apply candidate_in_valid in Hc. rewrite H in Hc. destruct Hc.
Qed.

(** C6.  The scan returns a release that [readdir] and [stat] give for
    an entry of one of the sections; its modification time is earlier
    than that of every candidate seen before it (the candidates of the
    sections before its own, and of the entries listed before it in its
    own section) and not later than that of every candidate seen after
    it: the earliest, the first seen on ties.  It returns null exactly
    when no section that can be listed has a candidate; a section that
    cannot be listed has none and does not stop the scan. *)
Theorem findOldestDirectory_first_earliest env root sections o :
  findOldestDirectory env root sections = o ->
  (o = None <-> forall r, ~ candidate_in env root sections r)
  /\ forall r,
       o = Some r ->
       exists sbefore s safter ebefore entry eafter,
         sections = sbefore ++ s :: safter
         /\ readdir env root (sec_path s) = Some (ebefore ++ entry :: eafter)
         /\ candidate env root s entry r
         /\ (forall c, candidate_in env root sbefore c ->
                       rel_mtime r < rel_mtime c)
         /\ (forall e c, In e ebefore -> candidate env root s e c ->
                         rel_mtime r < rel_mtime c)
         /\ (forall e c, In e eafter -> candidate env root s e c ->
                         rel_mtime r <= rel_mtime c)
         /\ (forall c, candidate_in env root safter c ->
                       rel_mtime r <= rel_mtime c).
Proof.
  intros E. pose proof (findOldestDirectory_scan env root sections o E) as H.
  split.
  - split.
    + intros ->. exact H.
    + intros Hnone. destruct o as [r |]; [| reflexivity]. exfalso.
      destruct H as (sb & s & sa & eb & entry & ea & -> & Hread & Hc & _).
      apply (Hnone r). exists s, (eb ++ entry :: ea), entry.
      split; [apply in_or_app; right; left; reflexivity |].
      split; [exact Hread |].
      split; [apply in_or_app; right; left; reflexivity | exact Hc].
  - intros r ->. exact H.
Qed.

(** The sections with oldest releases from t=10 and t=5: the scan
    returns the release of the second section, the first of its two from
    t=5; the section that does not exist is passed over. *)
Lemma findOldestDirectory_first_earliest_witness :
  exists sbefore s safter ebefore entry eafter,
    [ScanSample.missing; ScanSample.s1; ScanSample.s2] = sbefore ++ s :: safter
    /\ readdir ScanSample.env ScanSample.root (sec_path s)
       = Some (ebefore ++ entry :: eafter)
    /\ candidate ScanSample.env ScanSample.root s entry
                 (mkRelease ["s2"; "c"] "c" 5 0 "S2")
    /\ (forall c, candidate_in ScanSample.env ScanSample.root sbefore c -> 5 < rel_mtime c)
    /\ (forall e c, In e ebefore ->
                    candidate ScanSample.env ScanSample.root s e c ->
                    5 < rel_mtime c)
    /\ (forall e c, In e eafter ->
                    candidate ScanSample.env ScanSample.root s e c ->
                    5 <= rel_mtime c)
    /\ (forall c, candidate_in ScanSample.env ScanSample.root safter c ->
                  5 <= rel_mtime c).
Proof.
  destruct (findOldestDirectory_first_earliest ScanSample.env ScanSample.root
              [ScanSample.missing; ScanSample.s1; ScanSample.s2]
              (Some (mkRelease ["s2"; "c"] "c" 5 0 "S2"))) as [_ H].
  - vm_compute. reflexivity.
  - exact (H _ eq_refl).
Defined.


(** In a section without the [dated] flag the candidates are exactly the
    entries that [readdir] lists as directories, whatever their age or
    name; a plain file is never a candidate. *)
Theorem undated_section_candidates env root s entries :
  sec_dated s = false ->
  readdir env root (sec_path s) = Some entries ->
  forall r,
    In r (validDirectories env root s)
    <-> exists entry stats,
          In entry entries
          /\ d_isDirectory entry = true
          /\ stat root (sec_path s ++ [d_name entry]) = Some stats
          /\ r = mkRelease (sec_path s ++ [d_name entry]) (d_name entry)
                           (st_mtimeMs stats)
                           (getDirectorySize env root (sec_path s ++ [d_name entry]))
                           (sec_section s).
Proof.
  intros Hd Hr r. rewrite (validDirectories_iff env root s entries r Hr).
  split; intros (entry & stats & H1 & H2 & H3 & H); exists entry, stats.
  - destruct H as [_ H]. auto.
  - repeat split; auto. rewrite Hd. discriminate.
Qed.

Lemma undated_section_candidates_witness :
  In (mkRelease ["s2"; "c"] "c" 5 0 "S2")
     (validDirectories ScanSample.env ScanSample.root ScanSample.s2)
  <-> exists entry stats,
        In entry [mkDirent "c" true; mkDirent "notes.txt" false; mkDirent "d" true]
        /\ d_isDirectory entry = true
        /\ stat ScanSample.root (["s2"] ++ [d_name entry]) = Some stats
        /\ mkRelease ["s2"; "c"] "c" 5 0 "S2"
           = mkRelease (["s2"] ++ [d_name entry]) (d_name entry)
                       (st_mtimeMs stats)
                       (getDirectorySize ScanSample.env ScanSample.root
                                         (["s2"] ++ [d_name entry]))
                       "S2".
Proof.
  apply (undated_section_candidates ScanSample.env ScanSample.root ScanSample.s2
           [mkDirent "c" true; mkDirent "notes.txt" false; mkDirent "d" true]);
    reflexivity.
Defined.

Lemma findOldestDirectory_found env root sections r :
  findOldestDirectory env root sections = Some r ->
  exists s entries stats,
    In s sections
    /\ readdir env root (sec_path s) = Some entries
    /\ In (mkDirent (rel_name r) true) entries
    /\ rel_path r = sec_path s ++ [rel_name r]
    /\ rel_section r = sec_section s
    /\ stat root (rel_path r) = Some stats
    /\ rel_mtime r = st_mtimeMs stats
    /\ rel_size r = getDirectorySize env root (rel_path r)
    /\ (sec_dated s = true -> now env - rel_mtime r > oneDayInMs).
Proof.
  intros E. pose proof (findOldestDirectory_scanned env root sections) as H.
  rewrite E in H. destruct H as (before & after & Hl & _).
  assert (Hin : In r (List.concat (map (validDirectories env root) sections)))
    by (rewrite Hl; apply in_or_app; right; left; reflexivity).
  apply in_concat in Hin as (l & Hl' & Hr).
  apply in_map_iff in Hl' as (s & <- & Hs).
  destruct (readdir env root (sec_path s)) as [entries |] eqn:Hread.
  - destruct (proj1 (validDirectories_iff env root s entries r Hread) Hr)
      as (entry & stats & H1 & H2 & H3 & H4 & Er).
    clear E Hl. subst r.
    exists s, entries, stats. simpl. repeat split; auto.
    destruct entry as [name isDir]. simpl in *. subst isDir. exact H1.
  - unfold validDirectories in Hr. rewrite Hread in Hr. destruct Hr.
Qed.

(** The release a scan returns is an entry that [readdir] lists as a
    directory of one of the sections: its path is the section's path and
    its name, its label the section's label, its time the one [stat]
    gives, its size the one [getDirectorySize] gives; in a [dated]
    section it is older than one day. *)
Theorem findOldestDirectory_release env root sections r :
  findOldestDirectory env root sections = Some r ->
  exists s entries stats,
    In s sections
    /\ readdir env root (sec_path s) = Some entries
    /\ In (mkDirent (rel_name r) true) entries
    /\ rel_path r = sec_path s ++ [rel_name r]
    /\ rel_section r = sec_section s
    /\ stat root (rel_path r) = Some stats
    /\ rel_mtime r = st_mtimeMs stats
    /\ rel_size r = getDirectorySize env root (rel_path r)
    /\ (sec_dated s = true -> now env - rel_mtime r > oneDayInMs).
Proof. apply findOldestDirectory_found. Qed.

Lemma findOldestDirectory_release_witness :
  exists s entries stats,
    In s [ScanSample.missing; ScanSample.s1; ScanSample.s2]
    /\ readdir ScanSample.env ScanSample.root (sec_path s) = Some entries
    /\ In (mkDirent (rel_name (mkRelease ["s2"; "c"] "c" 5 0 "S2")) true) entries
    /\ rel_path (mkRelease ["s2"; "c"] "c" 5 0 "S2")
       = sec_path s ++ [rel_name (mkRelease ["s2"; "c"] "c" 5 0 "S2")]
    /\ rel_section (mkRelease ["s2"; "c"] "c" 5 0 "S2") = sec_section s
    /\ stat ScanSample.root (rel_path (mkRelease ["s2"; "c"] "c" 5 0 "S2"))
       = Some stats
    /\ rel_mtime (mkRelease ["s2"; "c"] "c" 5 0 "S2") = st_mtimeMs stats
    /\ rel_size (mkRelease ["s2"; "c"] "c" 5 0 "S2")
       = getDirectorySize ScanSample.env ScanSample.root
                          (rel_path (mkRelease ["s2"; "c"] "c" 5 0 "S2"))
    /\ (sec_dated s = true ->
        now ScanSample.env - rel_mtime (mkRelease ["s2"; "c"] "c" 5 0 "S2")
        > oneDayInMs).
Proof.
  apply (findOldestDirectory_release ScanSample.env ScanSample.root
           [ScanSample.missing; ScanSample.s1; ScanSample.s2]).
  vm_compute. reflexivity.
Defined.

(* ================================================================== *)
(** * The grouping of the archive sections by device *)
(* ================================================================== *)

Lemma group_add_keys section acc :
  map fst (group_add section acc)
  = if in_dec string_dec (sec_device section) (map fst acc)
    then map fst acc
    else map fst acc ++ [sec_device section].
Proof.
  induction acc as [| [d l] acc IH]; simpl; [reflexivity |].
  destruct (String.eqb_spec d (sec_device section)) as [-> | Hne]; simpl.
  - destruct (string_dec (sec_device section) (sec_device section));
      [reflexivity | contradiction].
  - rewrite IH.
    destruct (string_dec d (sec_device section)); [contradiction |].
    destruct (in_dec string_dec (sec_device section) (map fst acc));
      reflexivity.
Qed.

Lemma group_add_In section acc d l :
  NoDup (map fst acc) ->
  (In (d, l) (group_add section acc)
   <-> (d <> sec_device section /\ In (d, l) acc)
       \/ (d = sec_device section
           /\ ((exists l0, In (d, l0) acc /\ l = l0 ++ [section])
               \/ (~ In d (map fst acc) /\ l = [section])))).
Proof.
  induction acc as [| [d0 l0] acc IH]; intros Hnd; simpl.
  - split.
    + intros [E | []]. injection E as <- <-. right. split; auto.
    + intros [[_ []] | [-> [(l0 & [] & _) | [_ ->]]]]. auto.
  - inversion_clear Hnd as [| ? ? Hnotin Hnd'].
    destruct (String.eqb_spec d0 (sec_device section)) as [-> | Hne]; simpl.
    + split.
      * intros [E | Hin].
        -- injection E as <- <-. right. split; [reflexivity |].
           left. exists l0. auto.
        -- left. split; [| auto]. intros ->. apply Hnotin.
           apply (in_map fst) in Hin. exact Hin.
      * intros [[Hd [E | Hin]] | [-> [(l1 & [E | Hin] & ->) | [Hn _]]]].
        -- injection E as <- _. contradiction.
        -- auto.
        -- injection E as <-. auto.
        -- exfalso. apply Hnotin. apply (in_map fst) in Hin. exact Hin.
        -- exfalso. apply Hn. auto.
    + rewrite (IH Hnd'). split.
      * intros [E | [[Hd Hin] | [-> H]]].
        -- injection E as <- <-. auto.
        -- auto.
        -- right. split; [reflexivity |].
           destruct H as [(l1 & Hin & ->) | [Hn ->]].
           ++ left. exists l1. auto.
           ++ right. split; [| reflexivity]. intros [E | Hin]; auto.
      * intros [[Hd [E | Hin]] | [-> [(l1 & [E | Hin] & ->) | [Hn ->]]]].
        -- auto.
        -- auto.
        -- injection E as E _. contradiction.
        -- right. right. split; [reflexivity |]. left. exists l1. auto.
        -- right. right. split; [reflexivity |]. right. split; [| reflexivity].
           intros Hin. apply Hn. auto.
Qed.

Lemma filter_on_device_snoc d seen section :
  filter (on_device d) (seen ++ [section])
  = filter (on_device d) seen
    ++ (if String.eqb (sec_device section) d then [section] else []).
Proof. rewrite filter_app. reflexivity. Qed.

Lemma grouped_add acc seen section :
  grouped acc seen -> grouped (group_add section acc) (seen ++ [section]).
Proof.
  intros [Hnd Hin]. split.
  - rewrite group_add_keys.
    destruct (in_dec string_dec (sec_device section) (map fst acc)) as [H | H];
      [exact Hnd |].
    apply NoDup_app; [exact Hnd | repeat constructor; intros [] | ].
    intros a Ha [<- | []]. contradiction.
  - intros d l. rewrite (group_add_In section acc d l Hnd).
    rewrite filter_on_device_snoc. split.
    + intros [[Hd H] | [-> [(l0 & H & ->) | [Hn ->]]]].
      * apply Hin in H as [H1 H2].
        destruct (String.eqb_spec (sec_device section) d) as [E | E];
          [symmetry in E; contradiction |].
        rewrite app_nil_r. auto.
      * apply Hin in H as [H1 H2]. rewrite String.eqb_refl.
        split; [destruct l0; discriminate | congruence].
      * rewrite String.eqb_refl. split; [discriminate |].
        destruct (filter (on_device (sec_device section)) seen) as [| x l'] eqn:Ef;
          [reflexivity |].
        exfalso. apply Hn.
        assert (Hx : In (sec_device section, x :: l') acc)
          by (apply Hin; split; [discriminate | congruence]).
        apply (in_map fst) in Hx. exact Hx.
    + intros [Hne ->].
      destruct (String.eqb_spec (sec_device section) d) as [E | E].
      * subst d. right. split; [reflexivity |].
        destruct (filter (on_device (sec_device section)) seen) as [| x l'] eqn:Ef.
        -- right. split; [| reflexivity]. intros Hk.
           apply in_map_iff in Hk as ([d' l0] & Ed & Hk). simpl in Ed. subst d'.
           apply Hin in Hk as [H1 H2]. rewrite Ef in H2. contradiction.
        -- left. exists (x :: l'). split; [| reflexivity].
           apply Hin. split; [discriminate | congruence].
      * rewrite app_nil_r in *. left. split; [congruence |].
        apply Hin. auto.
Qed.

Lemma fold_group_add sections :
  forall acc seen,
    grouped acc seen ->
    grouped (fold_left (fun acc section => group_add section acc) sections acc)
            (seen ++ sections).
Proof.
  induction sections as [| section sections IH]; intros acc seen H; simpl.
  - rewrite app_nil_r. exact H.
  - replace (seen ++ section :: sections) with ((seen ++ [section]) ++ sections)
      by (rewrite <- app_assoc; reflexivity).
    apply IH. apply grouped_add. exact H.
Qed.

Lemma reduce_grouped sections :
  grouped (fold_left (fun acc section => group_add section acc) sections [])
          sections.
Proof.
  apply (fold_group_add sections [] []).
  split; [constructor |].
  intros d l. simpl. split; [intros [] | intros [H ->]; contradiction].
Qed.

Lemma insert_entry_perm {A} i (e : string * A) l :
  Permutation (insert_entry i e l) ((i, e) :: l).
Proof.
  induction l as [| [j e'] l IH]; simpl; [reflexivity |].
  destruct (i <? j); [reflexivity |].
  rewrite IH. apply perm_swap.
Qed.

Lemma indexed_entries_perm {A} (o : list (string * A)) :
  Permutation (map snd (indexed_entries o))
              (filter (fun e => is_index (fst e)) o).
Proof.
  induction o as [| e o IH]; simpl; [reflexivity |].
  unfold is_index at 1. destruct (array_index (fst e)) as [i |]; [| exact IH].
  rewrite (Permutation_map snd (insert_entry_perm i e (indexed_entries o))).
  simpl. apply perm_skip. exact IH.
Qed.

Lemma filter_split_perm {A} (f : A -> bool) (l : list A) :
  Permutation (filter f l ++ filter (fun x => negb (f x)) l) l.
Proof.
  induction l as [| x l IH]; simpl; [reflexivity |].
  destruct (f x); simpl.
  - apply perm_skip. exact IH.
  - rewrite <- Permutation_middle. apply perm_skip. exact IH.
Qed.

(** [Object.entries] lists every entry of the object, once. *)
Lemma object_entries_perm {A} (o : list (string * A)) :
  Permutation (object_entries o) o.
Proof.
  unfold object_entries. rewrite indexed_entries_perm.
  apply (filter_split_perm (fun e => is_index (fst e))).
Qed.

Lemma group_by_device_throws sections :
  group_by_device sections = None
  <-> exists section,
        In section sections /\ inherited_key (sec_device section) = true.
Proof.
  unfold group_by_device.
  destruct (existsb _ sections) eqn:E.
  - apply existsb_exists in E. tauto.
  - split; [discriminate |]. intros H. apply existsb_exists in H. congruence.
Qed.

Lemma group_by_device_grouped sections groups :
  group_by_device sections = Some groups ->
  NoDup (map fst groups)
  /\ forall device group,
       In (device, group) groups
       <-> group <> []
           /\ group = filter (fun section =>
                               String.eqb (sec_device section) device)
                             sections.
Proof.
  unfold group_by_device. destruct (existsb _ sections); [discriminate |].
  intros E. injection E as <-.
  destruct (reduce_grouped sections) as [Hnd Hin].
  pose proof (object_entries_perm
                (fold_left (fun acc section => group_add section acc)
                           sections [])) as Hperm.
  split.
  - apply (Permutation_NoDup (Permutation_sym (Permutation_map fst Hperm))).
    exact Hnd.
  - intros device group. rewrite <- (Hin device group). split.
    + apply (Permutation_in _ Hperm).
    + apply (Permutation_in _ (Permutation_sym Hperm)).
Qed.

(** The entries of the reclaimer's grouping, when the [reduce] does not
    throw: one key per device, and under a device exactly the configured
    sections of that device, in the order of the configuration; no group
    is empty.  The [reduce] throws exactly when a device has a name that
    every object inherits. *)
Theorem group_by_device_groups sections :
  (forall groups,
      group_by_device sections = Some groups ->
      NoDup (map fst groups)
      /\ forall device group,
           In (device, group) groups
           <-> group <> []
               /\ group = filter (fun section =>
                                   String.eqb (sec_device section) device)
                                 sections)
  /\ (group_by_device sections = None
      <-> exists section,
            In section sections /\ inherited_key (sec_device section) = true).
Proof.
  split; [apply group_by_device_grouped | apply group_by_device_throws].
Qed.

(** Devices named [10] and [9], and one named after a method of every
    object. *)
Example group_by_device_sample :
  group_by_device [mkSection ["a"] "10" "A" false;
                   mkSection ["b"] "/dev/sdb1" "B" false;
                   mkSection ["c"] "9" "C" false;
                   mkSection ["d"] "10" "D" false]
  = Some [("9", [mkSection ["c"] "9" "C" false]);
          ("10", [mkSection ["a"] "10" "A" false;
                  mkSection ["d"] "10" "D" false]);
          ("/dev/sdb1", [mkSection ["b"] "/dev/sdb1" "B" false])]
  /\ group_by_device [mkSection ["a"] "toString" "A" false] = None.
Proof. split; vm_compute; reflexivity. Qed.

(* ================================================================== *)
(** * Nothing to do *)
(* ================================================================== *)

Lemma cleanupDisks_enough_space env fuel config s disks :
  (forall device group,
      In (device, group) disks ->
      exists f, probe env (fs s) device = Resolved f
                /\ Js.ge f (Js.Num (freeSpaceLimitGBArchive config)) = true) ->
  forall cleanupPerformed,
    cleanupDisks env fuel config disks cleanupPerformed s
    = (Ok cleanupPerformed, s).
Proof.
  induction disks as [| [device group] disks IH]; intros H cp;
    cbn [cleanupDisks]; [reflexivity |].
  destruct (H device group (or_introl eq_refl)) as (f & Hp & Hge).
  unfold bind, await. rewrite Hp, Hge.
  apply IH. intros d g Hin. apply (H d g). right. exact Hin.
Qed.

(** When every archive device reports free space at or above the archive
    limit, the reclaimer does nothing and returns false.  (No device has
    a name that every object inherits: the grouping would throw.) *)
Theorem manageArchiveDiskSpace_enough_space env fuel config s :
  (forall section,
      In section (archiveDisksSections config) ->
      inherited_key (sec_device section) = false) ->
  (forall section,
      In section (archiveDisksSections config) ->
      exists f, probe env (fs s) (sec_device section) = Resolved f
                /\ Js.ge f (Js.Num (freeSpaceLimitGBArchive config)) = true) ->
  manageArchiveDiskSpace env fuel config s = (Ok false, s).
Proof.
  intros Hkeys H. unfold manageArchiveDiskSpace, bind at 1, await_opt.
  destruct (group_by_device (archiveDisksSections config)) as [disks |] eqn:Eg.
  2:{ apply group_by_device_throws in Eg as (section & Hin & Hk).
      rewrite (Hkeys section Hin) in Hk. discriminate. }
  apply cleanupDisks_enough_space.
  intros device group Hin.
  apply (proj2 (group_by_device_grouped _ _ Eg)) in Hin as [Hne ->].
  destruct (filter _ (archiveDisksSections config)) as [| x l] eqn:Ef;
    [contradiction |].
  assert (Hx : In x (filter (fun section =>
                               String.eqb (sec_device section) device)
                            (archiveDisksSections config)))
    by (rewrite Ef; left; reflexivity).
  apply filter_In in Hx as [Hx Hd]. apply String.eqb_eq in Hd. subst device.
  apply H. exact Hx.
Qed.

Lemma manageArchiveDiskSpace_enough_space_witness :
  manageArchiveDiskSpace ReclaimSample.env 0 ReclaimSample.config
                         ReclaimSample.final
  = (Ok false, ReclaimSample.final).
Proof.
  apply (manageArchiveDiskSpace_enough_space ReclaimSample.env 0
           ReclaimSample.config ReclaimSample.final).
  - intros section [<- | []]. reflexivity.
  - intros section [<- | []]. exists (Js.Num 100).
    split; vm_compute; reflexivity.
Defined.

(** With 500G free on every device, an archive section whose device is
    named [toString] makes the reclaimer throw before it probes. *)
Example manageArchiveDiskSpace_inherited_device :
  manageArchiveDiskSpace QuietSample.env 0
    (mkConfig [] [mkSection ["arc1"] "toString" "TV" false] 50 100 10 false)
    ReclaimSample.final
  = (Throw, ReclaimSample.final).
Proof. vm_compute. reflexivity. Qed.

Lemma manageIncomingSections_enough_space env config s sections :
  (forall section,
      In section sections ->
      exists f, probe env (fs s) (sec_device section) = Resolved f
                /\ Js.ge f (Js.Num (freeSpaceLimitGBRace config)) = true) ->
  forall spaceFreed,
    manageIncomingSections env config sections spaceFreed s = (Ok spaceFreed, s).
Proof.
  induction sections as [| section rest IH]; intros H sf;
    cbn [manageIncomingSections]; [reflexivity |].
  destruct (H section (or_introl eq_refl)) as (f & Hp & Hge).
  unfold bind at 1, manageIncoming, bind at 1, await. rewrite Hp, Hge.
  unfold ret. apply IH. intros x Hx. apply H. right. exact Hx.
Qed.

Lemma manageArchiveSections_enough_space env fuel config s sections :
  (forall section,
      In section sections ->
      exists f, probe env (fs s) (sec_device section) = Resolved f
                /\ Js.lt f (Js.Num (freeSpaceLimitGBArchive config)) = false) ->
  forall spaceFreed,
    manageArchiveSections env fuel config sections spaceFreed s
    = (Ok spaceFreed, s).
Proof.
  induction sections as [| section rest IH]; intros H sf;
    cbn [manageArchiveSections]; [reflexivity |].
  assert (Hrest : manageArchiveSections env fuel config rest sf s = (Ok sf, s))
    by (apply IH; intros x Hx; apply H; right; exact Hx).
  destruct (path_eqb (sec_path section) [] || _)%bool; [exact Hrest |].
  destruct (H section (or_introl eq_refl)) as (f & Hp & Hlt).
  unfold bind, await. rewrite Hp, Hlt. exact Hrest.
Qed.

(** A round of [main] does nothing when every incoming device reports
    free space at or above the race limit and no archive device reports
    less than the archive limit. *)
Theorem mainRound_enough_space env fuel config s :
  (forall section,
      In section (incomingDisksSections config) ->
      exists f, probe env (fs s) (sec_device section) = Resolved f
                /\ Js.ge f (Js.Num (freeSpaceLimitGBRace config)) = true) ->
  (forall section,
      In section (archiveDisksSections config) ->
      exists f, probe env (fs s) (sec_device section) = Resolved f
                /\ Js.lt f (Js.Num (freeSpaceLimitGBArchive config)) = false) ->
  mainRound env fuel config s = (Ok tt, s).
Proof.
  intros Hi Ha. unfold mainRound, try_catch, bind.
  rewrite (manageIncomingSections_enough_space env config s _ Hi false).
  rewrite (manageArchiveSections_enough_space env fuel config s _ Ha false).
  reflexivity.
Qed.

(* ================================================================== *)
(** * The paths the commands act on *)
(* ================================================================== *)

Lemma emits_weaken {A} (P Q : Event -> Prop) (m : M A) :
  (forall e, P e -> Q e) -> emits P m -> emits Q m.
Proof.
  intros HPQ Hm s o s' E e He.
  destruct (Hm s o s' E e He); auto.
Qed.

Lemma emits_unchanged {A} (P : Event -> Prop) (m : M A) s o s' :
  m s = (o, s') -> s' = s ->
  forall e, In e (trace s') -> In e (trace s) \/ P e.
Proof. intros _ -> e He. auto. Qed.

(** A placement wipes and touches only the entry with the release's name
    in the chosen archive section, copies from the release's incoming
    section to that archive section, and wipes only the entry with the
    release's name in the incoming section. *)
Lemma manageArchive_release_emits env fuel config release :
  emits (place_command config) (manageArchive env fuel config (Some release)).
Proof.
  intros s o s' E e He. unfold manageArchive in E.
  destruct (find _ (incomingDisksSections config)) as [inc |] eqn:Hfind;
    [| left; eauto using ret_unchanged].
  destruct (filter _ (archiveDisksSections config)) as [| a matching] eqn:Hmatch;
    simpl in E; [left; eauto using ret_unchanged |].
  unfold bind at 1, reads in E.
  destruct (mostFreeLoop env (fs s) (archiveDisksSections config) None (Js.Num 0))
    as [[best |] most] eqn:Hloop; [| left; eauto using ret_unchanged].
  destruct (Js.ltQ most _); [left; eauto using ret_unchanged |].
  apply mostFreeLoop_most_free in Hloop
    as (free & -> & Hpos & before & after & Hsec & _).
  apply find_some in Hfind as [Hinc _].
  assert (Hbest : In best (archiveDisksSections config))
    by (rewrite Hsec; apply in_or_app; right; left; reflexivity).
  revert s o s' E e He. fold (emits (A := bool) (place_command config)).
  apply emits_try_catch; [| apply emits_ret].
  destruct (debug config); simpl; [apply emits_ret |].
  apply emits_bind; [apply emits_wipeDestination | intros _].
  { left. exists best, (rel_name release). auto. }
  apply emits_bind; [apply emits_rcloneSync | intros _].
  { split; eauto. }
  apply emits_bind; [apply emits_verifyFileCount | intros v].
  destruct v; simpl; [| apply emits_ret].
  apply emits_bind; [apply emits_await_opt | intros st].
  apply emits_bind; [apply emits_setTimestamp | intros _].
  { exists best, (rel_name release). auto. }
  apply emits_bind; [apply emits_wipeDestination | intros _].
  { right. exists inc, (rel_name release). auto. }
  apply emits_ret.
Qed.

Lemma cleanupLoop_emits env config device sections :
  incl sections (archiveDisksSections config) ->
  forall fuel freeSpace cleanupPerformed,
    emits (reclaim_command config)
          (cleanupLoop env fuel config device sections freeSpace cleanupPerformed).
Proof.
  intros Hincl fuel.
  induction fuel as [| fuel IH]; intros free cp; cbn [cleanupLoop].
  - intros s o s' E e He. injection E as <- <-. auto.
  - destruct (Js.lt free _); [| apply emits_ret].
    intros s o s' E. unfold bind at 1, reads in E.
    destruct (getOldestArchiveRelease env (fs s) sections) as [oldest |] eqn:Hold;
      [| revert E; apply emits_ret].
    apply findOldestDirectory_found in Hold
      as (section & entries & stats & Hin & _ & _ & Hpath & _).
    revert s o s' E. fold (emits (A := bool) (reclaim_command config)).
    apply emits_bind.
    + apply emits_try_catch; [| apply emits_ret].
      destruct (debug config); simpl; [apply emits_ret |].
      apply emits_bind; [apply emits_deleteDirectory | intros _].
      { exists (rel_path oldest). split; [reflexivity |].
        exists section, (rel_name oldest). auto. }
      apply emits_bind; [apply emits_await | intros f]. apply emits_ret.
    + intros [[f cp'] |]; [apply IH | apply emits_ret].
Qed.

Lemma cleanupDisks_emits env fuel config disks :
  (forall device group, In (device, group) disks ->
                        incl group (archiveDisksSections config)) ->
  forall cleanupPerformed,
    emits (reclaim_command config)
          (cleanupDisks env fuel config disks cleanupPerformed).
Proof.
  induction disks as [| [device group] disks IH]; intros H cp;
    cbn [cleanupDisks]; [apply emits_ret |].
  assert (Hrest : forall cp', emits (reclaim_command config)
                                    (cleanupDisks env fuel config disks cp'))
    by (apply IH; intros d g Hin; apply (H d g); right; exact Hin).
  apply emits_bind; [apply emits_await | intros f].
  destruct (Js.ge f _); [apply Hrest |].
  apply emits_bind; [| exact Hrest].
  apply cleanupLoop_emits. apply (H device group). left. reflexivity.
Qed.

Lemma reclaimer_emits env fuel config :
  emits (reclaim_command config) (manageArchiveDiskSpace env fuel config).
Proof.
  unfold manageArchiveDiskSpace. intros s o s' E.
  unfold bind, await_opt in E.
  destruct (group_by_device (archiveDisksSections config)) as [disks |] eqn:Eg.
  - assert (Hincl : forall device group,
               In (device, group) disks ->
               incl group (archiveDisksSections config)).
    { intros device group Hin x Hx.
      apply (proj2 (group_by_device_grouped _ _ Eg)) in Hin as [_ ->].
      apply filter_In in Hx as [Hx _]. exact Hx. }
    exact (cleanupDisks_emits env fuel config disks Hincl false s o s' E).
  - injection E as <- <-. intros e He. left. exact He.
Qed.

(** The reclaimer calls nothing but [deleteDirectory], and every path
    it hands to it is the path of a configured archive section followed
    by one name. *)
Theorem manageArchiveDiskSpace_emits env fuel config :
  emits (reclaim_command config) (manageArchiveDiskSpace env fuel config).
Proof. apply reclaimer_emits. Qed.

Lemma recheck_emits env config device P : emits P (recheck env config device).
Proof.
  unfold recheck. apply emits_bind; [apply emits_await | intros f].
  destruct (Js.ge f _); apply emits_ret.
Qed.

Lemma manageIncoming_emits env config section :
  emits (incoming_command config) (manageIncoming env config section).
Proof.
  unfold manageIncoming.
  apply emits_bind; [apply emits_await | intros free].
  destruct (Js.ge free _); [apply emits_ret |].
  intros s o s' E. unfold bind at 1 in E. unfold reads at 1 in E.
  destruct (getOldestIncomingRelease env (fs s) (incomingDisksSections config))
    as [oldest |] eqn:Hold; [| revert E; apply emits_ret].
  apply findOldestDirectory_found in Hold
    as (sec & entries & stats & Hin & _ & _ & Hpath & _).
  assert (Hdel : incoming_command config (EvDelete (rel_path oldest))).
  { left. exists (rel_path oldest). split; [reflexivity |].
    exists sec, (rel_name oldest). auto. }
  revert s o s' E. fold (emits (A := bool) (incoming_command config)).
  apply emits_bind; [apply emits_reads | intros isEmpty].
  apply emits_bind.
  { destruct isEmpty; [| apply emits_ret].
    apply emits_try_catch; [| apply emits_ret].
    destruct (debug config); cbn [negb]; [apply emits_ret |].
    apply emits_bind; [apply emits_deleteDirectory; exact Hdel | intros _].
    apply recheck_emits. }
  intros [b |]; cbn [returning]; [apply emits_ret |].
  destruct (find _ (archiveDisksSections config)) as [archiveSection |].
  - apply emits_bind; [apply emits_await | intros archiveFree].
    destruct (Js.ltQ archiveFree _); [apply emits_ret |].
    apply emits_bind; [| intros [b |]; cbn [returning]; apply emits_ret].
    apply emits_try_catch; [| apply emits_ret].
    destruct (debug config); cbn [negb]; [apply emits_ret |].
    apply emits_bind; [| intros _; apply recheck_emits].
    apply (emits_weaken (place_command config)); [intros e He; right; exact He |].
    apply manageArchive_release_emits.
  - apply emits_bind; [| intros [b |]; cbn [returning]; apply emits_ret].
    apply emits_try_catch; [| apply emits_ret].
    destruct (debug config); cbn [negb]; [apply emits_ret |].
    apply emits_bind; [apply emits_deleteDirectory; exact Hdel | intros _].
    apply recheck_emits.
Qed.

Lemma manageIncomingSections_emits env config sections :
  forall spaceFreed,
    emits (incoming_command config)
          (manageIncomingSections env config sections spaceFreed).
Proof.
  induction sections as [| section rest IH]; intros sf;
    cbn [manageIncomingSections]; [apply emits_ret |].
  apply emits_bind; [apply manageIncoming_emits | intros b; apply IH].
Qed.

Lemma manageArchiveSections_emits env fuel config sections :
  forall spaceFreed,
    emits (reclaim_command config)
          (manageArchiveSections env fuel config sections spaceFreed).
Proof.
  induction sections as [| section rest IH]; intros sf;
    cbn [manageArchiveSections]; [apply emits_ret |].
  destruct (path_eqb (sec_path section) [] || _)%bool; [apply IH |].
  apply emits_bind; [apply emits_await | intros f].
  destruct (Js.lt f _); [| apply IH].
  apply emits_bind; [| intros b; apply IH].
  unfold manageArchive, manageArchiveSpace.
  apply emits_bind; [apply reclaimer_emits | intros b].
  apply emits_ret.
Qed.

(** The paths a round of [main] hands to its commands are made of the
    path of a configured section and one name: [deleteDirectory] and
    [rm -rf] get such a path of an incoming or an archive section,
    [rclone copy] gets the path of an incoming section, a name and the
    path of an archive section, [touch] gets such a path of an archive
    section.  (What the shell makes of a path it does not take
    literally is another matter.) *)
Theorem mainRound_emits env fuel config :
  emits (fun e => incoming_command config e \/ reclaim_command config e)
        (mainRound env fuel config).
Proof.
  unfold mainRound. apply emits_try_catch; [| apply emits_ret].
  apply emits_bind.
  - apply (emits_weaken (incoming_command config)); [auto |].
    apply manageIncomingSections_emits.
  - intros sf. apply emits_bind; [| intros sf'; apply emits_ret].
    apply (emits_weaken (reclaim_command config)); [auto |].
    apply manageArchiveSections_emits.
Qed.

(* ================================================================== *)
(** * A successful placement *)
(* ================================================================== *)

Lemma lookup_app_none name c es :
  lookup_entry name es = None ->
  lookup_entry name (es ++ [(name, c)]) = Some c.
Proof.
  induction es as [| [n d] es IH]; simpl.
  - rewrite String.eqb_refl. reflexivity.
  - destruct (String.eqb n name); [discriminate | exact IH].
Qed.

Lemma lookup_remove_entry_other name other es :
  name <> other ->
  lookup_entry other (remove_entry name es) = lookup_entry other es.
Proof.
  intros Hne. induction es as [| [n d] es IH]; simpl; [reflexivity |].
  destruct (String.eqb_spec n name) as [-> | Hn]; simpl.
  - destruct (String.eqb_spec name other); [contradiction | exact IH].
  - rewrite IH. reflexivity.
Qed.

(** What was written at [p] is what [p] leads to. *)
Lemma resolve_write_at_same now p t :
  forall n n', write_at now p t n = Some n' -> resolve p n' = Some t.
Proof.
  induction p as [| name rest IH]; intros n n' Hw; simpl in Hw.
  - injection Hw as <-. reflexivity.
  - destruct n as [m sz | m es]; [discriminate |].
    destruct (lookup_entry name es) as [c |] eqn:El.
    + destruct (write_at now rest t c) as [c' |] eqn:Ew; [| discriminate].
      injection Hw as <-. simpl.
      rewrite (lookup_set_entry_same _ _ _ _ El). apply (IH c c' Ew).
    + destruct (write_at now rest t (Dir now [])) as [c' |] eqn:Ew;
        [| discriminate].
      injection Hw as <-. simpl.
      rewrite (lookup_app_none _ _ _ El). apply (IH _ c' Ew).
Qed.

Lemma write_at_existing now p t :
  forall n x, resolve p n = Some x -> exists n', write_at now p t n = Some n'.
Proof.
  induction p as [| name rest IH]; intros n x Hr; simpl; [eauto |].
  destruct n as [m sz | m es]; [discriminate |]. simpl in Hr.
  destruct (lookup_entry name es) as [c |]; [| discriminate].
  destruct (IH c x Hr) as (c' & ->). eauto.
Qed.

Lemma lookup_app_other name other c es :
  name <> other ->
  lookup_entry other (es ++ [(name, c)]) = lookup_entry other es.
Proof.
  intros Hne. induction es as [| [n d] es IH]; simpl.
  - destruct (String.eqb_spec name other); [contradiction | reflexivity].
  - destruct (String.eqb n other); auto.
Qed.

(** A write at [q] leaves alone what is at a path that neither passes
    through [q] nor leads to it. *)
Lemma resolve_write_at_apart now q t :
  forall p n n',
    write_at now q t n = Some n' ->
    (forall below, p <> q ++ below) ->
    (forall below, q <> p ++ below) ->
    resolve p n' = resolve p n.
Proof.
  induction q as [| name rest IH]; intros p n n' Hw Hp Hq.
  - exfalso. apply (Hp p). reflexivity.
  - destruct p as [| pname prest];
      [exfalso; apply (Hq (name :: rest)); reflexivity |].
    destruct n as [m sz | m es]; [discriminate |]. cbn [write_at] in Hw.
    destruct (lookup_entry name es) as [c |] eqn:El.
    + destruct (write_at now rest t c) as [c' |] eqn:Ew; [| discriminate].
      injection Hw as <-. cbn [resolve].
      destruct (string_dec name pname) as [-> | Hne].
      * rewrite (lookup_set_entry_same _ _ _ _ El), El.
        apply (IH prest c c' Ew).
        -- intros below ->. apply (Hp below). reflexivity.
        -- intros below E. apply (Hq below). rewrite E. reflexivity.
      * rewrite (lookup_set_entry_other _ _ _ _ Hne). reflexivity.
    + destruct (write_at now rest t (Dir now [])) as [c' |] eqn:Ew;
        [| discriminate].
      injection Hw as <-. cbn [resolve].
      destruct (string_dec name pname) as [-> | Hne].
      * rewrite (lookup_app_none _ _ _ El), El.
        rewrite (IH prest (Dir now []) c' Ew).
        -- destruct prest; [exfalso; apply (Hq rest); reflexivity | reflexivity].
        -- intros below ->. apply (Hp below). reflexivity.
        -- intros below E. apply (Hq below). rewrite E. reflexivity.
      * rewrite (lookup_app_other _ _ _ _ Hne). reflexivity.
Qed.

(** So does a removal at [q]. *)
Lemma resolve_remove_at_apart now q :
  forall p n,
    (forall below, p <> q ++ below) ->
    (forall below, q <> p ++ below) ->
    resolve p (remove_at now q n) = resolve p n.
Proof.
  induction q as [| name rest IH]; intros p n Hp Hq.
  - exfalso. apply (Hp p). reflexivity.
  - destruct p as [| pname prest];
      [exfalso; apply (Hq (name :: rest)); reflexivity |].
    destruct n as [m sz | m es]; [reflexivity |].
    cbn [remove_at].
    destruct (lookup_entry name es) as [c |] eqn:El; [| reflexivity].
    destruct (string_dec name pname) as [-> | Hne].
    + destruct rest as [| name' rest'].
      * exfalso. apply (Hp prest). reflexivity.
      * cbn [resolve]. rewrite (lookup_set_entry_same _ _ _ _ El), El.
        apply IH.
        -- intros below ->. apply (Hp below). reflexivity.
        -- intros below E. apply (Hq below). rewrite E. reflexivity.
    + destruct rest as [| name' rest']; cbn [resolve].
      * rewrite (lookup_remove_entry_other _ _ _ Hne). reflexivity.
      * rewrite (lookup_set_entry_other _ _ _ _ Hne). reflexivity.
Qed.

Lemma parent_cons a b q : parent (a :: b :: q) = a :: parent (b :: q).
Proof. reflexivity. Qed.

(** A removal of what is at [q] keeps what is at a path that does not
    pass through [q], with its time; only the directory that held the
    entry has the time of the removal. *)
Lemma resolve_remove_at_keeps now q :
  forall p n x y,
    resolve q n = Some y -> q <> [] ->
    resolve p n = Some x ->
    (forall below, p <> q ++ below) ->
    exists x', resolve p (remove_at now q n) = Some x'
               /\ (p = parent q -> node_mtimeMs x' = now)
               /\ (p <> parent q -> node_mtimeMs x' = node_mtimeMs x).
Proof.
  induction q as [| name rest IH]; intros p n x y Hy Hq Hr Hp; [contradiction |].
  destruct n as [m sz | m es]; [discriminate |].
  cbn [resolve] in Hy. cbn [remove_at].
  destruct (lookup_entry name es) as [c |] eqn:El; [| discriminate].
  destruct p as [| pname prest].
  - cbn [resolve] in Hr. injection Hr as <-.
    destruct rest as [| name' rest'].
    + eexists. split; [reflexivity |].
      split; [reflexivity | intros H; exfalso; apply H; reflexivity].
    + eexists. split; [reflexivity |].
      split; [intros H; rewrite parent_cons in H; discriminate | reflexivity].
  - cbn [resolve] in Hr.
    destruct (lookup_entry pname es) as [pc |] eqn:Ep; [| discriminate].
    destruct (string_dec name pname) as [-> | Hne].
    + rewrite El in Ep. injection Ep as <-.
      destruct rest as [| name' rest'].
      * exfalso. apply (Hp prest). reflexivity.
      * cbn [resolve]. rewrite (lookup_set_entry_same _ _ _ _ El).
        destruct (IH prest c x y Hy ltac:(discriminate) Hr)
          as (x' & Hx' & Hnow & Hsame).
        { intros below ->. apply (Hp below). reflexivity. }
        exists x'. split; [exact Hx' |]. rewrite parent_cons. split.
        -- intros E. injection E as E. auto.
        -- intros E. apply Hsame. intros E'. apply E. rewrite E'. reflexivity.
    + exists x. split.
      * destruct rest as [| name' rest']; cbn [resolve].
        -- rewrite (lookup_remove_entry_other _ _ _ Hne), Ep. exact Hr.
        -- rewrite (lookup_set_entry_other _ _ _ _ Hne), Ep. exact Hr.
      * split; [| reflexivity].
        intros E. exfalso. destruct rest as [| name' rest'].
        -- discriminate.
        -- rewrite parent_cons in E. injection E as E _. congruence.
Qed.

Lemma literal_app p name :
  literal p = true -> literal [name] = true -> literal (p ++ [name]) = true.
Proof.
  unfold literal. intros Hp Hn.
  apply andb_prop in Hp as [Hp1 Hp2]. apply andb_prop in Hn as [Hn1 Hn2].
  rewrite forallb_app, Hp1, Hn1. destruct p as [| c p]; assumption.
Qed.

Lemma setTimestamp_ok env config p seconds s s1 n :
  debug config = false ->
  literal p = true ->
  resolve p (fs s) = Some n ->
  setTimestamp env config p seconds s = (Ok tt, s1) ->
  s1 = mkState (replace_at env p (set_mtime (seconds * 1000) n) (fs s))
               (trace s ++ [EvTouch p seconds]).
Proof.
  intros Hd Hl Hr. unfold setTimestamp, bind, emit. rewrite Hd, Hl. simpl.
  destruct (denied env p); [discriminate |]. rewrite Hr.
  intros E. injection E as <-. reflexivity.
Qed.

Lemma node_mtimeMs_set_mtime m n : node_mtimeMs (set_mtime m n) = m.
Proof. destruct n; reflexivity. Qed.

(** Whatever is at [p] after a removal was there before. *)
Lemma resolve_remove_at_was now q :
  forall p n x',
    resolve p (remove_at now q n) = Some x' -> exists x, resolve p n = Some x.
Proof.
  induction q as [| name rest IH]; intros p n x' Hr; [simpl in Hr; eauto |].
  destruct n as [m sz | m es]; [simpl in Hr; eauto |].
  cbn [remove_at] in Hr.
  destruct (lookup_entry name es) as [c |] eqn:El; [| eauto].
  destruct p as [| pname prest]; [simpl; eauto |].
  cbn [resolve].
  destruct rest as [| name' rest']; cbn [resolve] in Hr.
  - destruct (string_dec name pname) as [-> | Hne].
    + rewrite lookup_remove_entry in Hr. discriminate.
    + rewrite (lookup_remove_entry_other _ _ _ Hne) in Hr.
      destruct (lookup_entry pname es); [eauto | discriminate].
  - destruct (string_dec name pname) as [-> | Hne].
    + rewrite (lookup_set_entry_same _ _ _ _ El) in Hr. rewrite El.
      apply (IH prest c x' Hr).
    + rewrite (lookup_set_entry_other _ _ _ _ Hne) in Hr.
      destruct (lookup_entry pname es); [eauto | discriminate].
Qed.

Lemma path_eqb_eq p q : path_eqb p q = true -> p = q.
Proof. unfold path_eqb. destruct (list_eq_dec string_dec p q); [auto | discriminate]. Qed.

Lemma readdir_resolves env root p entries :
  readdir env root p = Some entries ->
  exists m es, resolve p root = Some (Dir m es).
Proof.
  unfold readdir. destruct (unreadable env p); [discriminate |].
  destruct (resolve p root) as [[m sz | m es] |]; try discriminate. eauto.
Qed.

(** When [manageArchive] returns true (without [debug], with a name and
    section paths that the commands take literally) it has run exactly
    four commands: the [rm -rf] of the destination, the copy, the
    [touch] of the destination and the [rm -rf] of the source.
    Afterwards nothing is left at the release's path.  Unless the
    destination lies inside the release itself, the [touch] carries the
    modification time the release had, in whole seconds, and the
    destination ends with that time. *)
Theorem manageArchive_success env fuel config release s s' :
  debug config = false ->
  literal [rel_name release] = true ->
  (forall section,
      In section (incomingDisksSections config ++ archiveDisksSections config) ->
      literal (sec_path section) = true) ->
  manageArchive env fuel config (Some release) s = (Ok true, s') ->
  exists inc best source seconds,
    In inc (incomingDisksSections config)
    /\ In best (archiveDisksSections config)
    /\ rel_path release = sec_path inc ++ [rel_name release]
    /\ resolve (rel_path release) (fs s) = Some source
    /\ trace s'
       = trace s
         ++ [EvWipe (sec_path best ++ [rel_name release]);
             EvRclone (sec_path inc) (rel_name release) (sec_path best);
             EvTouch (sec_path best ++ [rel_name release]) seconds;
             EvWipe (rel_path release)]
    /\ resolve (rel_path release) (fs s') = None
    /\ ((forall below,
            sec_path best ++ [rel_name release] <> rel_path release ++ below) ->
        seconds = node_mtimeMs source / 1000
        /\ exists d,
             resolve (sec_path best ++ [rel_name release]) (fs s') = Some d
             /\ node_mtimeMs d = seconds * 1000).
Proof.
  intros Hd Hname Hpaths E. unfold manageArchive in E.
  destruct (find _ (incomingDisksSections config)) as [inc |] eqn:Hfind;
    [| discriminate].
  destruct (filter _ (archiveDisksSections config)) as [| a matching];
    simpl in E; [discriminate |].
  unfold bind at 1, reads in E.
  destruct (mostFreeLoop env (fs s) (archiveDisksSections config) None (Js.Num 0))
    as [[best |] most] eqn:Hloop; [| discriminate].
  destruct (Js.ltQ most _); [discriminate |].
  apply mostFreeLoop_most_free in Hloop
    as (free & -> & Hpos & before & after & Hsec & _).
  apply find_some in Hfind as [Hinc Hpath]. apply path_eqb_eq in Hpath.
  assert (Hbest : In best (archiveDisksSections config))
    by (rewrite Hsec; apply in_or_app; right; left; reflexivity).
  rewrite Hd in E. cbn [negb] in E.
  set (src := sec_path inc ++ [rel_name release]) in *.
  set (dst := sec_path best ++ [rel_name release]) in *.
  assert (Hlsrc : literal src = true).
  { unfold src. apply literal_app; [| exact Hname].
    apply Hpaths. apply in_or_app. left. exact Hinc. }
  assert (Hldst : literal dst = true).
  { unfold dst. apply literal_app; [| exact Hname].
    apply Hpaths. apply in_or_app. right. exact Hbest. }
  unfold try_catch, bind in E.
  destruct (wipeDestination env (sec_path best) (rel_name release) s)
    as [[[] | |] s0] eqn:E0; try discriminate.
  apply (wipeDestination_ok _ _ _ _ _ Hldst) in E0. fold dst in E0.
  destruct (rcloneSync env config (sec_path inc) (rel_name release)
                       (sec_path best) s0) as [[[] | |] s2] eqn:E2;
    try discriminate.
  apply (rcloneSync_ok _ _ _ _ _ _ _ Hd Hlsrc Hldst) in E2
    as (m & es & copied & Hsrc0 & _ & _ & Hw & Ht2).
  fold src in Hsrc0. fold dst in Hw.
  rewrite verifyFileCount_total in E.
  destruct (readdir env (fs s2) src) as [sourceFiles |]; [| discriminate].
  destruct (readdir env (fs s2) dst) as [destFiles |] eqn:Hrd; [| discriminate].
  destruct (List.length sourceFiles =? List.length destFiles)%nat;
    [| discriminate].
  cbn [negb] in E. unfold await_opt, stat in E.
  rewrite E0 in Hsrc0, Hw. cbn [fs] in Hsrc0, Hw.
  assert (Hbelow : forall below, src <> dst ++ below).
  { intros below Eb. rewrite Eb in Hsrc0.
    rewrite resolve_remove_at in Hsrc0; [discriminate |].
    unfold dst. destruct (sec_path best); discriminate. }
  destruct (resolve_write_at _ _ _ _ _ _ _ Hw Hsrc0 Hbelow) as (x2 & Hx2).
  rewrite Hx2 in E.
  assert (Hst : exists sz, (match x2 with
                            | File m0 sz0 => Some (mkStats m0 sz0)
                            | Dir m0 _ => Some (mkStats m0 0)
                            end) = Some (mkStats (node_mtimeMs x2) sz))
    by (destruct x2; simpl; eauto).
  destruct Hst as (sz & Hst). rewrite Hst in E. cbn [st_mtimeMs] in E.
  apply readdir_resolves in Hrd as (md & esd & Hdst2).
  destruct (setTimestamp env config dst (node_mtimeMs x2 / 1000) s2)
    as [[[] | |] s3] eqn:E3; try discriminate.
  apply (setTimestamp_ok _ _ _ _ _ _ _ Hd Hldst Hdst2) in E3.
  destruct (wipeDestination env (sec_path inc) (rel_name release) s3)
    as [[[] | |] s4] eqn:E4; try discriminate.
  apply (wipeDestination_ok _ _ _ _ _ Hlsrc) in E4. fold src in E4.
  injection E as <-.
  destruct (resolve_remove_at_was _ _ _ _ _ Hsrc0) as (source & Hsource).
  exists inc, best, source, (node_mtimeMs x2 / 1000).
  split; [exact Hinc |].
  split; [exact Hbest |].
  split; [exact Hpath |].
  rewrite Hpath.
  split; [exact Hsource |].
  split.
  { rewrite E4, E3, Ht2, E0. simpl. rewrite <- !app_assoc. reflexivity. }
  split.
  { rewrite E4. simpl. rewrite <- (app_nil_r src) at 1.
    apply resolve_remove_at. unfold src. destruct (sec_path inc); discriminate. }
  intros Hout. split.
  - rewrite (resolve_write_at_apart _ _ _ _ _ _ Hw Hbelow Hout) in Hx2.
    rewrite (resolve_remove_at_apart _ _ _ _ Hbelow Hout) in Hx2.
    rewrite Hsource in Hx2. injection Hx2 as ->. reflexivity.
  - rewrite E4. cbn [fs]. rewrite E3. cbn [fs].
    destruct (write_at_existing (now env) dst
                (set_mtime (node_mtimeMs x2 / 1000 * 1000) (Dir md esd))
                (fs s2) _ Hdst2) as (root3 & Hw3).
    unfold replace_at. rewrite Hw3.
    rewrite (resolve_remove_at_apart _ _ _ _ Hout Hbelow).
    pose proof (resolve_write_at_same _ _ _ _ _ Hw3) as Hd3.
    exists (set_mtime (node_mtimeMs x2 / 1000 * 1000) (Dir md esd)).
    split; [exact Hd3 | reflexivity].
Qed.

Lemma manageArchive_success_witness :
  exists inc best source seconds,
    In inc (incomingDisksSections Sample.config)
    /\ In best (archiveDisksSections Sample.config)
    /\ rel_path PlaceSample.release = sec_path inc ++ [rel_name PlaceSample.release]
    /\ resolve (rel_path PlaceSample.release) (fs PlaceSample.start) = Some source
    /\ trace (snd (manageArchive PlaceSample.env 0 Sample.config
                                 (Some PlaceSample.release) PlaceSample.start))
       = trace PlaceSample.start
         ++ [EvWipe (sec_path best ++ [rel_name PlaceSample.release]);
             EvRclone (sec_path inc) (rel_name PlaceSample.release) (sec_path best);
             EvTouch (sec_path best ++ [rel_name PlaceSample.release]) seconds;
             EvWipe (rel_path PlaceSample.release)]
    /\ resolve (rel_path PlaceSample.release)
               (fs (snd (manageArchive PlaceSample.env 0 Sample.config
                                       (Some PlaceSample.release) PlaceSample.start)))
       = None
    /\ ((forall below,
            sec_path best ++ [rel_name PlaceSample.release]
            <> rel_path PlaceSample.release ++ below) ->
        seconds = node_mtimeMs source / 1000
        /\ exists d,
             resolve (sec_path best ++ [rel_name PlaceSample.release])
                     (fs (snd (manageArchive PlaceSample.env 0 Sample.config
                                             (Some PlaceSample.release)
                                             PlaceSample.start)))
             = Some d
             /\ node_mtimeMs d = seconds * 1000).
Proof.
  apply (manageArchive_success PlaceSample.env 0 Sample.config
           PlaceSample.release PlaceSample.start).
  - reflexivity.
  - reflexivity.
  - intros section [<- | [<- | [<- | []]]]; reflexivity.
  - vm_compute. reflexivity.
Defined.

(* ================================================================== *)
(** * Placements that do not start *)
(* ================================================================== *)

(** When no archive device reports more than 0 GB free (or every probe
    fails), [manageArchive] returns false and runs nothing, whatever
    the size of the release. *)
Theorem manageArchive_no_free_space env fuel config release s :
  (forall section g,
      In section (archiveDisksSections config) ->
      reading env (fs s) section = Some g -> g <= 0) ->
  manageArchive env fuel config (Some release) s = (Ok false, s).
Proof.
  intros H. unfold manageArchive.
  destruct (find _ (incomingDisksSections config)) as [inc |]; [| reflexivity].
  destruct (filter _ (archiveDisksSections config)); simpl; [reflexivity |].
  unfold bind, reads.
  destruct (mostFreeLoop env (fs s) (archiveDisksSections config) None (Js.Num 0))
    as [[best |] most] eqn:Hloop; [| reflexivity].
  apply mostFreeLoop_most_free in Hloop
    as (free & -> & Hpos & before & after & Hsec & Hread & _).
  assert (Hbest : In best (archiveDisksSections config))
    by (rewrite Hsec; apply in_or_app; right; left; reflexivity).
  specialize (H best free Hbest Hread). lia.
Qed.

Lemma manageArchive_no_free_space_witness :
  manageArchive QuietSample.env_full 0 Sample.config (Some PlaceSample.release)
                PlaceSample.start
  = (Ok false, PlaceSample.start).
Proof.
  apply (manageArchive_no_free_space QuietSample.env_full 0 Sample.config
           PlaceSample.release PlaceSample.start).
  intros section g [<- | [<- | []]] E; vm_compute in E; injection E as <-; lia.
Defined.

Lemma mainRound_enough_space_witness :
  mainRound QuietSample.env 0 Sample.config PlaceSample.start
  = (Ok tt, PlaceSample.start).
Proof.
  apply (mainRound_enough_space QuietSample.env 0 Sample.config PlaceSample.start).
  - intros section [<- | []]. exists (Js.Num 500).
    split; vm_compute; reflexivity.
  - intros section [<- | [<- | []]]; exists (Js.Num 500);
      split; vm_compute; reflexivity.
Defined.

(* ================================================================== *)
(** * What [manageIncoming] returns *)
(* ================================================================== *)

(** After the call of [manageArchive], [manageIncoming] reads the free
    space again and returns true; the boolean [manageArchive] returned
    is not looked at, so a placement that failed is reported as an
    action taken. *)
Theorem manageIncoming_ignores_placement env config section s
  free oldest archiveSection archiveFree placed s1 free1 :
  debug config = false ->
  probe env (fs s) (sec_device section) = Resolved free ->
  Js.ge free (Js.Num (freeSpaceLimitGBRace config)) = false ->
  getOldestIncomingRelease env (fs s) (incomingDisksSections config)
    = Some oldest ->
  isDirectoryEmpty env (fs s) (rel_path oldest) = false ->
  find (fun archive => String.eqb (sec_section archive) (rel_section oldest))
       (archiveDisksSections config) = Some archiveSection ->
  probe env (fs s) (sec_device archiveSection) = Resolved archiveFree ->
  Js.ltQ archiveFree (inject_Z (rel_size oldest) / 1024 / 1024
                      + inject_Z (archiveBufferGB config))%Q = false ->
  manageArchive env 0 config
    (Some (mkRelease (rel_path oldest) (rel_name oldest) (rel_mtime oldest)
                     (rel_size oldest) (rel_section oldest))) s
    = (Ok placed, s1) ->
  probe env (fs s1) (sec_device section) = Resolved free1 ->
  manageIncoming env config section s = (Ok true, s1).
Proof.
  intros Hd Hp Hlow Hold He Hfind Hpa Hroom Hplace Hp1.
  unfold manageIncoming, bind at 1, await. rewrite Hp, Hlow.
  unfold bind at 1, reads. rewrite Hold.
  unfold bind at 1. rewrite He, Hd. cbn [negb].
  unfold bind at 1, ret. cbn [returning]. rewrite Hfind.
  unfold bind at 1. rewrite Hpa, Hroom.
  unfold bind at 1, try_catch, bind at 1. rewrite Hplace.
  unfold recheck, bind, await. rewrite Hp1.
  destruct (Js.ge free1 _); reflexivity.
Qed.

Lemma manageIncoming_ignores_placement_witness :
  manageIncoming PlaceSample.env_partial Sample.config Sample.incoming
                 PlaceSample.start
  = (Ok true, snd (PlaceSample.copy PlaceSample.env_partial PlaceSample.start)).
Proof.
  apply (manageIncoming_ignores_placement PlaceSample.env_partial Sample.config
           Sample.incoming PlaceSample.start (Js.Num 20) PlaceSample.release
           Sample.archive1 (Js.Num 200) false _ (Js.Num 20));
    vm_compute; reflexivity.
Defined.

(** A release whose label has no archive section is deleted outright:
    when [deleteDirectory] succeeds and the free space can be read, the
    call returns true; when the deletion throws or the probe fails
    afterwards, it returns false. *)
Theorem manageIncoming_no_archive_tier env config section s free oldest :
  debug config = false ->
  probe env (fs s) (sec_device section) = Resolved free ->
  Js.ge free (Js.Num (freeSpaceLimitGBRace config)) = false ->
  getOldestIncomingRelease env (fs s) (incomingDisksSections config)
    = Some oldest ->
  isDirectoryEmpty env (fs s) (rel_path oldest) = false ->
  find (fun archive => String.eqb (sec_section archive) (rel_section oldest))
       (archiveDisksSections config) = None ->
  manageIncoming env config section s
  = match deleteDirectory env (rel_path oldest) s with
    | (Ok _, s1) =>
        match probe env (fs s1) (sec_device section) with
        | Resolved _ => (Ok true, s1)
        | Rejected => (Ok false, s1)
        end
    | (_, s1) => (Ok false, s1)
    end.
Proof.
  intros Hd Hp Hlow Hold He Hfind.
  unfold manageIncoming, bind at 1, await. rewrite Hp, Hlow.
  unfold bind at 1, reads. rewrite Hold.
  unfold bind at 1. rewrite He, Hd. cbn [negb].
  unfold bind at 1, ret. cbn [returning]. rewrite Hfind.
  unfold bind at 1, try_catch, bind at 1.
  pose proof (halts_deleteDirectory env (rel_path oldest) s) as Hh.
  destruct (deleteDirectory env (rel_path oldest) s) as [[[] | |] s1];
    [| reflexivity | simpl in Hh; contradiction].
  unfold recheck, bind, await.
  destruct (probe env (fs s1) (sec_device section)) as [f |]; [| reflexivity].
  destruct (Js.ge f _); reflexivity.
Qed.

Lemma manageIncoming_no_archive_tier_witness :
  manageIncoming PlaceSample.env EmptySample.config_no_tier Sample.incoming
                 PlaceSample.start
  = match deleteDirectory PlaceSample.env (rel_path PlaceSample.release)
                          PlaceSample.start with
    | (Ok _, s1) =>
        match probe PlaceSample.env (fs s1) (sec_device Sample.incoming) with
        | Resolved _ => (Ok true, s1)
        | Rejected => (Ok false, s1)
        end
    | (_, s1) => (Ok false, s1)
    end.
Proof.
  apply (manageIncoming_no_archive_tier PlaceSample.env
           EmptySample.config_no_tier Sample.incoming PlaceSample.start
           (Js.Num 20) PlaceSample.release);
    vm_compute; reflexivity.
Defined.

(* ================================================================== *)
(** * Deleting and wiping *)
(* ================================================================== *)

Lemma remove_entry_absent name es :
  lookup_entry name es = None -> remove_entry name es = es.
Proof.
  induction es as [| [n d] es IH]; simpl; [reflexivity |].
  destruct (String.eqb n name); [discriminate |].
  intros H. rewrite (IH H). reflexivity.
Qed.

Lemma set_entry_same name c es :
  lookup_entry name es = Some c -> set_entry name c es = es.
Proof.
  induction es as [| [n d] es IH]; simpl; [reflexivity |].
  destruct (String.eqb n name).
  - intros E. injection E as ->. reflexivity.
  - intros H. rewrite (IH H). reflexivity.
Qed.

(** [rm -rf] of what is not there changes nothing. *)
Lemma remove_at_absent now p :
  forall n, resolve p n = None -> remove_at now p n = n.
Proof.
  induction p as [| name rest IH]; intros n Hr; [discriminate |].
  destruct n as [m sz | m es]; [reflexivity |].
  cbn [remove_at]. cbn [resolve] in Hr.
  destruct (lookup_entry name es) as [c |] eqn:El; [| reflexivity].
  destruct rest as [| name' rest']; [discriminate |].
  rewrite (IH c Hr), (set_entry_same _ _ _ El). reflexivity.
Qed.

(** On a path where nothing is, [wipeDestination] succeeds and
    [deleteDirectory] throws; neither changes the filesystem.  (The
    path is one that the shell takes literally.) *)
Theorem wipe_and_delete_absent env p name s :
  literal (p ++ [name]) = true ->
  resolve (p ++ [name]) (fs s) = None ->
  denied env (p ++ [name]) = false ->
  wipeDestination env p name s
  = (Ok tt, mkState (fs s) (trace s ++ [EvWipe (p ++ [name])]))
  /\ deleteDirectory env (p ++ [name]) s
     = (Throw, mkState (fs s) (trace s ++ [EvDelete (p ++ [name])])).
Proof.
  intros Hl Hr Hd. split.
  - unfold wipeDestination, bind, emit. rewrite Hl. cbn [fs trace]. rewrite Hd.
    rewrite (remove_at_absent _ _ _ Hr). reflexivity.
  - unfold deleteDirectory, bind, emit. cbn [fs trace]. rewrite Hr. reflexivity.
Qed.

Lemma wipe_and_delete_absent_witness :
  wipeDestination PlaceSample.env ["arc1"; "TV"] "rel" PlaceSample.start
  = (Ok tt, mkState (fs PlaceSample.start)
                    (trace PlaceSample.start ++ [EvWipe (["arc1"; "TV"] ++ ["rel"])]))
  /\ deleteDirectory PlaceSample.env (["arc1"; "TV"] ++ ["rel"]) PlaceSample.start
     = (Throw, mkState (fs PlaceSample.start)
                       (trace PlaceSample.start
                        ++ [EvDelete (["arc1"; "TV"] ++ ["rel"])])).
Proof.
  apply (wipe_and_delete_absent PlaceSample.env ["arc1"; "TV"] "rel"
           PlaceSample.start); reflexivity.
Defined.

(** Below a path where nothing is protected the recursion of
    [deleteDirectory] removes everything. *)
Lemma rm_tree_unprotected env :
  forall k n p,
    (nodes n <= k)%nat ->
    (forall below, denied env (p ++ below) = false
                   /\ unreadable env (p ++ below) = false) ->
    rm_tree env p n = None.
Proof.
  induction k as [| k IH]; intros n p Hk Hp.
  { pose proof (nodes_pos n). lia. }
  assert (Hp0 : denied env p = false /\ unreadable env p = false)
    by (rewrite <- (app_nil_r p); apply Hp).
  destruct Hp0 as [Hden Hunr].
  destruct n as [m sz | m es]; cbn [rm_tree].
  - rewrite Hden. reflexivity.
  - rewrite Hunr. rewrite nodes_Dir in Hk.
    assert (Hleft :
      (fix each (es0 : list (string * node)) : list (string * node) :=
         match es0 with
         | [] => []
         | (name, c) :: t =>
             match rm_tree env (p ++ [name]) c with
             | Some r => (name, r) :: each t
             | None => each t
             end
         end) es = []).
    { assert (Hes : (entries_nodes es <= k)%nat) by lia. clear Hk.
      induction es as [| [name c] es IHes]; [reflexivity |].
      simpl in Hes.
      rewrite (IH c (p ++ [name])); [apply IHes; lia | lia |].
      intros below. rewrite <- app_assoc. apply Hp. }
    rewrite Hleft, Hden. reflexivity.
Qed.

(** A directory below which nothing is protected is deleted entirely:
    [deleteDirectory] returns, nothing is left at the path, and whatever
    lies elsewhere is still there with its time, except the directory
    that held it, which has the time of the deletion. *)
Theorem deleteDirectory_unprotected env p s m es :
  p <> [] ->
  resolve p (fs s) = Some (Dir m es) ->
  (forall below, denied env (p ++ below) = false
                 /\ unreadable env (p ++ below) = false) ->
  deleteDirectory env p s
  = (Ok tt, mkState (remove_at (now env) p (fs s)) (trace s ++ [EvDelete p]))
  /\ resolve p (remove_at (now env) p (fs s)) = None
  /\ forall q x,
       resolve q (fs s) = Some x ->
       (forall below, q <> p ++ below) ->
       exists x', resolve q (remove_at (now env) p (fs s)) = Some x'
                  /\ (q = parent p -> node_mtimeMs x' = now env)
                  /\ (q <> parent p -> node_mtimeMs x' = node_mtimeMs x).
Proof.
  intros Hp Hr Hfree. split; [| split].
  - unfold deleteDirectory, bind, emit. cbn [fs trace]. rewrite Hr.
    rewrite (rm_tree_unprotected env (nodes (Dir m es)) (Dir m es) p
               (le_n _) Hfree).
    reflexivity.
  - rewrite <- (app_nil_r p) at 1. apply resolve_remove_at. exact Hp.
  - intros q x Hq Hout.
    apply (resolve_remove_at_keeps (now env) p q (fs s) x _ Hr Hp Hq Hout).
Qed.

Lemma deleteDirectory_unprotected_witness :
  deleteDirectory PlaceSample.env ["site"; "TV"; "rel"] PlaceSample.start
  = (Ok tt, mkState (remove_at (now PlaceSample.env) ["site"; "TV"; "rel"]
                               (fs PlaceSample.start))
                    (trace PlaceSample.start ++ [EvDelete ["site"; "TV"; "rel"]]))
  /\ resolve ["site"; "TV"; "rel"]
             (remove_at (now PlaceSample.env) ["site"; "TV"; "rel"]
                        (fs PlaceSample.start)) = None
  /\ forall q x,
       resolve q (fs PlaceSample.start) = Some x ->
       (forall below, q <> ["site"; "TV"; "rel"] ++ below) ->
       exists x', resolve q (remove_at (now PlaceSample.env) ["site"; "TV"; "rel"]
                                       (fs PlaceSample.start))
                  = Some x'
                  /\ (q = parent ["site"; "TV"; "rel"] ->
                      node_mtimeMs x' = now PlaceSample.env)
                  /\ (q <> parent ["site"; "TV"; "rel"] ->
                      node_mtimeMs x' = node_mtimeMs x).
Proof.
  apply (deleteDirectory_unprotected PlaceSample.env ["site"; "TV"; "rel"]
           PlaceSample.start 1000 [("a.mkv", File 1000 2048)]).
  - discriminate.
  - reflexivity.
  - intros below. split; reflexivity.
Defined.

(** What the recursion leaves of a directory is that directory, with no
    more entries; its time is the old one when it has as many entries as
    before, and the time of the deletion when it lost one. *)
Lemma rm_tree_Dir env p m es r :
  rm_tree env p (Dir m es) = Some r ->
  exists m' es',
    r = Dir m' es'
    /\ (List.length es' <= List.length es)%nat
    /\ (List.length es' = List.length es -> m' = m)
    /\ ((List.length es' < List.length es)%nat -> m' = now env).
Proof.
  cbn [rm_tree]. destruct (unreadable env p).
  { intros E. injection E as <-. exists m, es.
    repeat split; intros; try lia; reflexivity. }
  match goal with
  | |- context [(List.length ?l <? _)%nat] => set (left := l)
  end.
  assert (Hlen : (List.length left <= List.length es)%nat).
  { unfold left. clear.
    induction es as [| [name c] es IH]; [simpl; lia |].
    simpl. destruct (rm_tree env (p ++ [name]) c); simpl; lia. }
  clearbody left.
  destruct (Nat.ltb_spec (List.length left) (List.length es)) as [Hlt | Hge];
    (destruct left as [| e rest];
     [destruct (denied env p); [| discriminate] |]);
    intros E; injection E as <-; eexists; eexists;
    (split; [reflexivity |]);
    cbn [List.length] in *; repeat split; intros; try lia; reflexivity.
Qed.

(** A [deleteDirectory] that throws has not removed the directory
    itself: [rmdir] is reached only after everything below is gone.  The
    directory has its old time when none of its entries went, and the
    time of the deletion when one did. *)
Theorem deleteDirectory_throws_keeps env p s s1 m es :
  resolve p (fs s) = Some (Dir m es) ->
  deleteDirectory env p s = (Throw, s1) ->
  exists m' es',
    resolve p (fs s1) = Some (Dir m' es')
    /\ (List.length es' <= List.length es)%nat
    /\ (List.length es' = List.length es -> m' = m)
    /\ ((List.length es' < List.length es)%nat -> m' = now env).
Proof.
  intros Hr. unfold deleteDirectory, bind, emit. cbn [fs trace]. rewrite Hr.
  destruct (rm_tree env p (Dir m es)) as [r |] eqn:Erm; [| discriminate].
  intros E. injection E as <-. cbn [fs].
  destruct (rm_tree_Dir env p m es r Erm) as (m' & es' & -> & Hlen & Hsame & Hlost).
  destruct (write_at_existing (now env) p (Dir m' es') (fs s) _ Hr) as (root' & Hw).
  unfold replace_at. rewrite Hw. exists m', es'.
  split; [apply (resolve_write_at_same _ _ _ _ _ Hw) | auto].
Qed.

Lemma deleteDirectory_throws_keeps_witness :
  (* nothing could be removed *)
  (exists m' es',
      resolve ["site"; "TV"; "rel"]
              (fs (snd (deleteDirectory DeniedSample.env ["site"; "TV"; "rel"]
                                        PlaceSample.start)))
      = Some (Dir m' es')
      /\ (List.length es' <= 1)%nat
      /\ (List.length es' = 1%nat -> m' = 1000)
      /\ ((List.length es' < 1)%nat -> m' = now DeniedSample.env))
  (* one of two files was removed *)
  /\ (exists m' es',
        resolve ["site"; "TV"; "rel"]
                (fs (snd (deleteDirectory DeniedSample.env ["site"; "TV"; "rel"]
                                          DeniedSample.start_two)))
        = Some (Dir m' es')
        /\ (List.length es' <= 2)%nat
        /\ (List.length es' = 2%nat -> m' = 1000)
        /\ ((List.length es' < 2)%nat -> m' = now DeniedSample.env)).
Proof.
  split.
  - apply (deleteDirectory_throws_keeps DeniedSample.env ["site"; "TV"; "rel"]
             PlaceSample.start _ 1000 [("a.mkv", File 1000 2048)]).
    + reflexivity.
    + vm_compute. reflexivity.
  - apply (deleteDirectory_throws_keeps DeniedSample.env ["site"; "TV"; "rel"]
             DeniedSample.start_two _ 1000
             [("a.mkv", File 1000 2048); ("b.nfo", File 1000 1)]).
    + reflexivity.
    + vm_compute. reflexivity.
Defined.

Example deleteDirectory_partial :
  deleteDirectory DeniedSample.env ["site"; "TV"; "rel"] DeniedSample.start_two
  = (Throw,
     mkState
       (Dir 0 [("site", Dir 0 [("TV", Dir 0 [("rel", Dir (100 * Sample.hour)
                                                [("a.mkv", File 1000 2048)])])])])
       [EvDelete ["site"; "TV"; "rel"]]).
Proof. vm_compute. reflexivity. Qed.

Lemma remove_at_below now a q m es :
  q <> [] ->
  remove_at now (a :: q) (Dir m es)
  = match lookup_entry a es with
    | Some c => Dir m (set_entry a (remove_at now q c) es)
    | None => Dir m es
    end.
Proof.
  intros Hq. cbn [remove_at].
  destruct (lookup_entry a es); [| reflexivity].
  destruct q; [contradiction | reflexivity].
Qed.

Lemma resolve_parent_remove_at now name p :
  forall n,
    resolve p (remove_at now (p ++ [name]) n)
    = match resolve p n with
      | Some (Dir m es) =>
          Some (Dir match lookup_entry name es with
                    | Some _ => now
                    | None => m
                    end (remove_entry name es))
      | other => other
      end.
Proof.
  induction p as [| a rest IH]; intros n.
  - destruct n as [m sz | m es]; [reflexivity |].
    cbn [app remove_at resolve].
    destruct (lookup_entry name es) eqn:El; [reflexivity |].
    rewrite (remove_entry_absent _ _ El). reflexivity.
  - destruct n as [m sz | m es]; [reflexivity |].
    change ((a :: rest) ++ [name]) with (a :: (rest ++ [name])).
    rewrite remove_at_below by (destruct rest; discriminate).
    cbn [resolve].
    destruct (lookup_entry a es) as [c |] eqn:El.
    + cbn [resolve]. rewrite (lookup_set_entry_same _ _ _ _ El). apply IH.
    + cbn [resolve]. rewrite El. reflexivity.
Qed.

Lemma existsb_remove_entry name es :
  existsb (fun entry => d_isDirectory entry && String.eqb (d_name entry) name)
          (map (fun e => mkDirent (fst e) (is_dir (snd e))) (remove_entry name es))
  = false.
Proof.
  induction es as [| [n c] es IH]; simpl; [reflexivity |].
  destruct (String.eqb n name) eqn:En; [exact IH |].
  simpl. rewrite En, andb_false_r. exact IH.
Qed.

(** After a [wipeDestination] that succeeded on a path that the shell
    takes literally, [releaseExistsInArchive] answers false for that
    section and name. *)
Theorem wipeDestination_then_absent env p name s s1 :
  literal (p ++ [name]) = true ->
  wipeDestination env p name s = (Ok tt, s1) ->
  releaseExistsInArchive env (fs s1) p name = false.
Proof.
  intros Hl E. apply (wipeDestination_ok _ _ _ _ _ Hl) in E. subst s1. cbn [fs].
  unfold releaseExistsInArchive, readdir.
  destruct (unreadable env p); [reflexivity |].
  rewrite resolve_parent_remove_at.
  destruct (resolve p (fs s)) as [[m sz | m es] |]; try reflexivity.
  apply existsb_remove_entry.
Qed.

Lemma wipeDestination_then_absent_witness :
  releaseExistsInArchive PlaceSample.env
    (fs (snd (wipeDestination PlaceSample.env ["arc2"; "X264"] "rel"
                              EmptySample.start)))
    ["arc2"; "X264"] "rel"
  = false.
Proof.
  apply (wipeDestination_then_absent PlaceSample.env ["arc2"; "X264"] "rel"
           EmptySample.start).
  - reflexivity.
  - vm_compute. reflexivity.
Defined.

(** [verifyFileCount] answers true exactly when both directories can be
    listed and have the same number of top-level entries; names, sizes
    and what lies below play no part. *)
Theorem verifyFileCount_shallow env source destination s :
  verifyFileCount env source destination s = (Ok true, s)
  <-> exists m es m' es',
        unreadable env source = false
        /\ unreadable env destination = false
        /\ resolve source (fs s) = Some (Dir m es)
        /\ resolve destination (fs s) = Some (Dir m' es')
        /\ List.length es = List.length es'.
Proof.
  rewrite verifyFileCount_total. unfold readdir. split.
  - intros E.
    destruct (unreadable env source); [discriminate |].
    destruct (resolve source (fs s)) as [[m sz | m es] |]; try discriminate.
    destruct (unreadable env destination); [discriminate |].
    destruct (resolve destination (fs s)) as [[m' sz' | m' es'] |];
      try discriminate.
    injection E as E. apply Nat.eqb_eq in E. rewrite !length_map in E.
    exists m, es, m', es'. auto.
  - intros (m & es & m' & es' & -> & -> & -> & -> & Hlen).
    rewrite !length_map, Hlen, Nat.eqb_refl. reflexivity.
Qed.

(* ================================================================== *)
(** * The reclaimer ends *)
(* ================================================================== *)

Lemma entries_nodes_set_eq name c c' es :
  lookup_entry name es = Some c ->
  (entries_nodes (set_entry name c' es) + nodes c
   = entries_nodes es + nodes c')%nat.
Proof.
  induction es as [| [n d] es IH]; simpl; [discriminate |].
  destruct (String.eqb n name); simpl.
  - intros E. injection E as ->. lia.
  - intros E. specialize (IH E). lia.
Qed.

Lemma entries_nodes_cons name c es :
  entries_nodes ((name, c) :: es) = (nodes c + entries_nodes es)%nat.
Proof. reflexivity. Qed.

Lemma nodes_remove_at_le now p :
  forall n, (nodes (remove_at now p n) <= nodes n)%nat.
Proof.
  induction p as [| name rest IH]; intros n; [simpl; lia |].
  destruct n as [m sz | m es]; [simpl; lia |].
  cbn [remove_at].
  destruct (lookup_entry name es) as [c |] eqn:El; [| lia].
  destruct rest as [| name' rest'].
  - rewrite !nodes_Dir. pose proof (entries_nodes_remove_le name es). lia.
  - rewrite !nodes_Dir.
    pose proof (entries_nodes_set_eq name c (remove_at now (name' :: rest') c)
                                     es El).
    specialize (IH c). lia.
Qed.

Lemma nodes_write_at now p t :
  forall n n' old,
    resolve p n = Some old ->
    write_at now p t n = Some n' ->
    (nodes n' + nodes old = nodes n + nodes t)%nat.
Proof.
  induction p as [| name rest IH]; intros n n' old Hr Hw.
  - simpl in *. injection Hr as <-. injection Hw as <-. lia.
  - destruct n as [m sz | m es]; [discriminate |]. simpl in Hr, Hw.
    destruct (lookup_entry name es) as [c |] eqn:El; [| discriminate].
    destruct (write_at now rest t c) as [c' |] eqn:Ew; [| discriminate].
    injection Hw as <-. rewrite !nodes_Dir.
    pose proof (IH c c' old Hr Ew).
    pose proof (entries_nodes_set_eq name c c' es El). lia.
Qed.

(** What a failed deletion leaves is not bigger than what was there. *)
Lemma rm_tree_nodes env :
  forall k n p r,
    (nodes n <= k)%nat -> rm_tree env p n = Some r -> (nodes r <= nodes n)%nat.
Proof.
  induction k as [| k IH]; intros n p r Hk Hrm.
  { pose proof (nodes_pos n). lia. }
  destruct n as [m sz | m es]; simpl in Hrm.
  - destruct (denied env p); [injection Hrm as <-; lia | discriminate].
  - destruct (unreadable env p); [injection Hrm as <-; lia |].
    rewrite nodes_Dir in Hk.
    assert (Hleft :
      (entries_nodes
         ((fix each (es0 : list (string * node)) : list (string * node) :=
             match es0 with
             | [] => []
             | (name, c) :: t =>
                 match rm_tree env (p ++ [name]) c with
                 | Some r => (name, r) :: each t
                 | None => each t
                 end
             end) es) <= entries_nodes es)%nat).
    { assert (Hes : (entries_nodes es <= k)%nat) by lia. clear Hk Hrm.
      induction es as [| [name c] es IHes]; [simpl; lia |].
      rewrite entries_nodes_cons in Hes |- *.
      destruct (rm_tree env (p ++ [name]) c) as [r' |] eqn:Ec.
      - rewrite entries_nodes_cons.
        assert (nodes r' <= nodes c)%nat
          by (apply (IH c (p ++ [name]) r'); [lia | exact Ec]).
        assert (Hrec := IHes ltac:(lia)). lia.
      - assert (Hrec := IHes ltac:(lia)). lia. }
    match type of Hrm with
    | match ?l with _ => _ end = _ => destruct l eqn:El
    end.
    + destruct (denied env p); [| discriminate].
      injection Hrm as <-. rewrite !nodes_Dir. simpl. lia.
    + injection Hrm as <-. rewrite !nodes_Dir. exact (le_n_S _ _ Hleft).
Qed.

Lemma deleteDirectory_nodes env p s o s1 :
  deleteDirectory env p s = (o, s1) -> (nodes (fs s1) <= nodes (fs s))%nat.
Proof.
  unfold deleteDirectory, bind, emit. cbn [fs trace].
  destruct (resolve p (fs s)) as [[m sz | m es] |] eqn:Hr;
    try (intros E; injection E as _ <-; simpl; lia).
  destruct (rm_tree env p (Dir m es)) as [r |] eqn:Erm;
    intros E; injection E as _ <-; cbn [fs].
  - unfold replace_at.
    destruct (write_at (now env) p r (fs s)) as [root' |] eqn:Ew; [| lia].
    pose proof (nodes_write_at _ _ _ _ _ _ Hr Ew).
    pose proof (rm_tree_nodes env _ _ _ _ (le_n _) Erm). lia.
  - apply nodes_remove_at_le.
Qed.

Lemma cleanupLoop_nodes env config device sections :
  forall fuel freeSpace cleanupPerformed s o s1,
    cleanupLoop env fuel config device sections freeSpace cleanupPerformed s
    = (o, s1) ->
    (nodes (fs s1) <= nodes (fs s))%nat.
Proof.
  induction fuel as [| fuel IH]; intros free cp s o s1; cbn [cleanupLoop].
  - intros E. injection E as _ <-. lia.
  - destruct (Js.lt free _); [| intros E; injection E as _ <-; lia].
    unfold bind at 1, reads.
    destruct (getOldestArchiveRelease env (fs s) sections) as [oldest |];
      [| intros E; injection E as _ <-; lia].
    unfold bind at 1, try_catch.
    destruct (debug config); cbn [negb].
    + unfold ret at 1. intros E. apply IH in E. exact E.
    + unfold bind at 1.
      destruct (deleteDirectory env (rel_path oldest) s) as [[[] | |] s0] eqn:Ed;
        apply deleteDirectory_nodes in Ed.
      * unfold bind at 1, await.
        destruct (probe env (fs s0) device) as [f |].
        -- unfold ret at 1. intros E. apply IH in E. lia.
        -- unfold ret. intros E. injection E as _ <-. lia.
      * unfold ret. intros E. injection E as _ <-. lia.
      * intros E. injection E as _ <-. lia.
Qed.

Lemma cleanupDisks_terminates env fuel config :
  debug config = false ->
  forall disks cleanupPerformed s,
    (nodes (fs s) < fuel)%nat ->
    fst (cleanupDisks env fuel config disks cleanupPerformed s) <> OutOfFuel.
Proof.
  intros Hd disks.
  induction disks as [| [device sections] disks IH]; intros cp s Hfuel;
    cbn [cleanupDisks]; [discriminate |].
  unfold bind at 1, await.
  destruct (probe env (fs s) device) as [f |]; [| discriminate].
  destruct (Js.ge f _); [apply IH; exact Hfuel |].
  unfold bind.
  destruct (cleanupLoop_terminates env config device sections Hd fuel f cp s Hfuel)
    as (b & s1 & E).
  rewrite E. apply IH.
  apply cleanupLoop_nodes in E. lia.
Qed.

(** Without [debug] the reclaimer ends: every pass of its loop that does
    not leave it has removed a directory, so with more fuel than there
    are files and directories [manageArchiveDiskSpace] returns or
    throws. *)
Theorem manageArchiveDiskSpace_terminates env fuel config s :
  debug config = false ->
  (nodes (fs s) < fuel)%nat ->
  fst (manageArchiveDiskSpace env fuel config s) <> OutOfFuel.
Proof.
  intros Hd Hfuel. unfold manageArchiveDiskSpace, bind, await_opt.
  destruct (group_by_device (archiveDisksSections config)) as [disks |];
    [| discriminate].
  apply cleanupDisks_terminates; assumption.
Qed.

Lemma manageArchiveDiskSpace_terminates_witness :
  fst (manageArchiveDiskSpace ReclaimSample.env 20 ReclaimSample.config
                              ReclaimSample.start) <> OutOfFuel.
Proof.
  apply (manageArchiveDiskSpace_terminates ReclaimSample.env 20
           ReclaimSample.config ReclaimSample.start).
  - reflexivity.
  - vm_compute. lia.
Defined.

(* ================================================================== *)
(** * [getIncomingReleases] *)
(* ================================================================== *)

Lemma insert_dir_In x y l : In x (insert_dir y l) <-> x = y \/ In x l.
Proof.
  induction l as [| z l IH]; simpl.
  - split; intros [H | H]; auto.
  - destruct (inc_mtime y <=? inc_mtime z); simpl.
    + split; intros [H | H]; auto.
    + rewrite IH. split; intros [H | [H | H]]; auto.
Qed.

Lemma sort_dirs_In x l : In x (sort_dirs l) <-> In x l.
Proof.
  induction l as [| y l IH]; simpl; [tauto |].
  rewrite insert_dir_In, IH. split; intros [H | H]; auto.
Qed.

Lemma insert_dir_sorted x l : oldest_first l -> oldest_first (insert_dir x l).
Proof.
  unfold oldest_first. intros Hs.
  induction Hs as [| y l Hs IH Hy]; simpl.
  - repeat constructor.
  - destruct (Z.leb_spec (inc_mtime x) (inc_mtime y)).
    + constructor; [constructor; assumption |].
      constructor; [assumption |].
      rewrite Forall_forall in Hy |- *. intros z Hz. specialize (Hy z Hz). lia.
    + constructor; [assumption |].
      rewrite Forall_forall in Hy |- *. intros z Hz.
      apply insert_dir_In in Hz as [-> | Hz]; [lia | auto].
Qed.

Lemma sort_dirs_sorted l : oldest_first (sort_dirs l).
Proof.
  induction l as [| x l IH]; simpl; [constructor |].
  apply insert_dir_sorted. exact IH.
Qed.

Lemma all_resolved_In {A} (l : list (option A)) r (x : A) :
  all_resolved l = Some r -> (In x r <-> In (Some x) l).
Proof.
  revert r. induction l as [| [a |] l IH]; intros r; simpl.
  - intros E. injection E as <-. tauto.
  - destruct (all_resolved l) as [r' |]; [| discriminate].
    intros E. injection E as <-. simpl. rewrite (IH r' eq_refl).
    split; intros [H | H]; auto; left; congruence.
  - discriminate.
Qed.

Lemma all_resolved_none {A} (l : list (option A)) :
  all_resolved l = None -> In None l.
Proof.
  induction l as [| [a |] l IH]; simpl; [discriminate | | auto].
  destruct (all_resolved l); [discriminate | auto].
Qed.

(** What [getIncomingReleases] returns for a section that can be listed
    and whose directories [stat] can read: the list is sorted oldest
    first, and its elements are exactly the entries that [readdir] lists
    as directories, each with the time [stat] gives; with [dated], those
    of them whose name is purely numeric.  No directory is left out for
    its age. *)
Theorem getIncomingReleases_listing env root sectionPath dated entries :
  readdir env root sectionPath = Some entries ->
  (forall entry,
      In entry entries -> d_isDirectory entry = true ->
      stat root (sectionPath ++ [d_name entry]) <> None) ->
  oldest_first (getIncomingReleases env root sectionPath dated)
  /\ forall d,
       In d (getIncomingReleases env root sectionPath dated)
       <-> exists entry stats,
             In entry entries
             /\ d_isDirectory entry = true
             /\ (dated = true -> numeric_name (d_name entry) = true)
             /\ stat root (sectionPath ++ [d_name entry]) = Some stats
             /\ d = mkIncomingDir (sectionPath ++ [d_name entry]) (d_name entry)
                                  (st_mtimeMs stats).
Proof.
  intros Hread Hstat. unfold getIncomingReleases. rewrite Hread.
  set (dirs := map (fun entry => (sectionPath ++ [d_name entry], d_name entry))
                   (filter d_isDirectory entries)).
  set (kept := if dated then filter (fun dir => numeric_name (snd dir)) dirs
               else dirs).
  assert (Hkept : forall dir,
             In dir kept
             <-> exists entry,
                   In entry entries /\ d_isDirectory entry = true
                   /\ (dated = true -> numeric_name (d_name entry) = true)
                   /\ dir = (sectionPath ++ [d_name entry], d_name entry)).
  { intros dir. unfold kept, dirs. destruct dated.
    - rewrite filter_In, in_map_iff. split.
      + intros [(entry & <- & Hin) Hnum]. apply filter_In in Hin as [Hin Hdir].
        exists entry. auto.
      + intros (entry & Hin & Hdir & Hnum & ->). split; [| auto].
        exists entry. split; [reflexivity |]. apply filter_In. auto.
    - rewrite in_map_iff. split.
      + intros (entry & <- & Hin). apply filter_In in Hin as [Hin Hdir].
        exists entry. repeat split; auto. discriminate.
      + intros (entry & Hin & Hdir & _ & ->).
        exists entry. split; [reflexivity |]. apply filter_In. auto. }
  destruct (all_resolved
              (map (fun dir =>
                      match stat root (fst dir) with
                      | Some stats =>
                          Some (mkIncomingDir (fst dir) (snd dir) (st_mtimeMs stats))
                      | None => None
                      end) kept)) as [withStats |] eqn:Eall.
  2:{ exfalso. apply all_resolved_none in Eall.
      apply in_map_iff in Eall as (dir & Edir & Hin).
      apply Hkept in Hin as (entry & Hin & Hdir & _ & ->). simpl in Edir.
      specialize (Hstat entry Hin Hdir).
      destruct (stat root (sectionPath ++ [d_name entry])); [discriminate |].
      apply Hstat. reflexivity. }
  assert (Hin : forall d,
             In d (sort_dirs withStats)
             <-> exists entry stats,
                   In entry entries
                   /\ d_isDirectory entry = true
                   /\ (dated = true -> numeric_name (d_name entry) = true)
                   /\ stat root (sectionPath ++ [d_name entry]) = Some stats
                   /\ d = mkIncomingDir (sectionPath ++ [d_name entry])
                                        (d_name entry) (st_mtimeMs stats)).
  { intros d. rewrite sort_dirs_In, (all_resolved_In _ _ d Eall), in_map_iff.
    split.
    - intros (dir & Edir & Hd).
      apply Hkept in Hd as (entry & Hd & Hdir & Hnum & ->). simpl in Edir.
      destruct (stat root (sectionPath ++ [d_name entry])) as [stats |] eqn:Es;
        [| discriminate].
      injection Edir as <-. exists entry, stats. auto.
    - intros (entry & stats & Hd & Hdir & Hnum & Es & ->).
      exists (sectionPath ++ [d_name entry], d_name entry). simpl.
      rewrite Es. split; [reflexivity |]. apply Hkept. exists entry. auto. }
  destruct (List.length kept =? 0)%nat eqn:Elen.
  - apply Nat.eqb_eq in Elen. apply length_zero_iff_nil in Elen.
    rewrite Elen in Eall. simpl in Eall. injection Eall as <-.
    split; [constructor |]. exact Hin.
  - split; [apply sort_dirs_sorted | exact Hin].
Qed.

(** A section with the [dated] flag: the directory with a numeric name
    is returned although it was modified 23 hours ago; the one with
    another name is not. *)
Lemma getIncomingReleases_listing_witness :
  getIncomingReleases DatedSample.env DatedSample.root ["arc"] true
  = [mkIncomingDir ["arc"; "20240101"] "20240101" (77 * Sample.hour)]
  /\ oldest_first (getIncomingReleases DatedSample.env DatedSample.root ["arc"] true)
  /\ forall d,
       In d (getIncomingReleases DatedSample.env DatedSample.root ["arc"] true)
       <-> exists entry stats,
             In entry [mkDirent "abc" true; mkDirent "20240101" true]
             /\ d_isDirectory entry = true
             /\ (true = true -> numeric_name (d_name entry) = true)
             /\ stat DatedSample.root (["arc"] ++ [d_name entry]) = Some stats
             /\ d = mkIncomingDir (["arc"] ++ [d_name entry]) (d_name entry)
                                  (st_mtimeMs stats).
Proof.
  split; [vm_compute; reflexivity |].
  apply (getIncomingReleases_listing DatedSample.env DatedSample.root ["arc"]
           true [mkDirent "abc" true; mkDirent "20240101" true]).
  - reflexivity.
  - intros entry [<- | [<- | []]] _; discriminate.
Defined.

(* ================================================================== *)
(** * The probe, again *)
(* ================================================================== *)

(** The probe rejects exactly when the command failed, wrote to stderr,
    printed fewer than two lines, or printed fewer than four columns on
    the second line; in every other case it resolves, whatever the
    fourth column holds. *)
Theorem getFreeSpace_rejects r :
  getFreeSpace r = Rejected
  <-> exec_err r = true
      \/ exec_stderr r <> ""
      \/ (List.length (Js.split_char LF (Js.trim (exec_stdout r))) < 2)%nat
      \/ (List.length
            (Js.split_ws (nth 1 (Js.split_char LF (Js.trim (exec_stdout r))) ""))
          < 4)%nat.
Proof.
  unfold getFreeSpace. split.
  - destruct (exec_err r); [auto |].
    destruct (String.eqb_spec (exec_stderr r) ""); [| auto]. cbn [orb negb].
    destruct (Nat.ltb_spec
                (List.length (Js.split_char LF (Js.trim (exec_stdout r)))) 2);
      [auto |].
    destruct (nth_error
                (Js.split_ws
                   (nth 1 (Js.split_char LF (Js.trim (exec_stdout r))) ""))
                3) eqn:En; [discriminate |].
    intros _. apply nth_error_None in En. right. right. right. lia.
  - intros [-> | [H | [H | H]]]; [reflexivity | | |].
    + destruct (String.eqb_spec (exec_stderr r) ""); [contradiction |].
      rewrite orb_true_r. reflexivity.
    + destruct (exec_err r || _)%bool; [reflexivity |].
      apply Nat.ltb_lt in H. rewrite H. reflexivity.
    + destruct (exec_err r || _)%bool; [reflexivity |].
      destruct (_ <? 2)%nat; [reflexivity |].
      assert (En : nth_error
                     (Js.split_ws
                        (nth 1 (Js.split_char LF (Js.trim (exec_stdout r))) ""))
                     3 = None)
        by (apply nth_error_None; lia).
      rewrite En. reflexivity.
Qed.



Lemma is_token_cons s :
  is_token s = true ->
  exists c t, s = String c t
              /\ Js.is_space c = false
              /\ forallb (fun c => negb (Js.is_space c)) (list_ascii_of_string t)
                 = true.
Proof.
  destruct s as [| c t]; [discriminate |]. simpl.
  intros H. apply andb_prop in H as [H1 H2]. apply negb_true_iff in H1.
  exists c, t. auto.
Qed.










(** Past 2^53 the numeral is rounded: 2^53 + 1 is read as 2^53. *)
Example parseInt_rounds :
  Js.parseInt "9007199254740993" = Js.Num 9007199254740992
  /\ Js.parseInt "9007199254740995" = Js.Num 9007199254740996
  /\ Js.parseInt "-9007199254740993" = Js.Num (-9007199254740992).
Proof. repeat split; vm_compute; reflexivity. Qed.



(* ================================================================== *)
(** * [manageIncoming] before the placement *)
(* ================================================================== *)

Lemma manageIncoming_empty_release_done_witness :
  manageIncoming RefillSample.env Sample.config Sample.incoming EmptySample.start
  = (Ok true,
     mkState (remove_at (now RefillSample.env)
                        (rel_path (mkRelease ["site"; "TV"; "rel"] "rel" 1000 0 "TV"))
                        (fs EmptySample.start))
             (trace EmptySample.start
              ++ [EvDelete (rel_path (mkRelease ["site"; "TV"; "rel"] "rel" 1000 0 "TV"))]))
  /\ resolve (rel_path (mkRelease ["site"; "TV"; "rel"] "rel" 1000 0 "TV"))
             (remove_at (now RefillSample.env)
                        (rel_path (mkRelease ["site"; "TV"; "rel"] "rel" 1000 0 "TV"))
                        (fs EmptySample.start))
     = None.
Proof.
  apply (manageIncoming_empty_release_done RefillSample.env Sample.config
           Sample.incoming EmptySample.start (Js.Num 20)
           (mkRelease ["site"; "TV"; "rel"] "rel" 1000 0 "TV") (Js.Num 60));
    vm_compute; reflexivity.
Defined.

(** Before it calls [manageArchive], [manageIncoming] probes the device
    of the first archive section that has the release's label and
    compares with the size divided by 1024 twice plus the buffer: when
    that device has less, the call returns false and nothing is run,
    whatever the other archive devices have. *)
Theorem manageIncoming_precheck env config section s free oldest
  archiveSection archiveFree :
  probe env (fs s) (sec_device section) = Resolved free ->
  Js.ge free (Js.Num (freeSpaceLimitGBRace config)) = false ->
  getOldestIncomingRelease env (fs s) (incomingDisksSections config)
    = Some oldest ->
  isDirectoryEmpty env (fs s) (rel_path oldest) = false ->
  find (fun archive => String.eqb (sec_section archive) (rel_section oldest))
       (archiveDisksSections config) = Some archiveSection ->
  probe env (fs s) (sec_device archiveSection) = Resolved archiveFree ->
  Js.ltQ archiveFree (inject_Z (rel_size oldest) / 1024 / 1024
                      + inject_Z (archiveBufferGB config))%Q = true ->
  manageIncoming env config section s = (Ok false, s).
Proof.
  intros Hp Hlow Hold He Hfind Hpa Hroom.
  unfold manageIncoming, bind at 1, await. rewrite Hp, Hlow.
  unfold bind at 1, reads. rewrite Hold.
  unfold bind at 1. rewrite He.
  unfold bind at 1, ret. cbn [returning]. rewrite Hfind.
  unfold bind at 1. rewrite Hpa, Hroom. reflexivity.
Qed.

Lemma manageIncoming_precheck_witness :
  manageIncoming PlaceSample.env Sample.config Sample.incoming BigSample.start
  = (Ok false, BigSample.start).
Proof.
  apply (manageIncoming_precheck PlaceSample.env Sample.config Sample.incoming
           BigSample.start (Js.Num 20) BigSample.release Sample.archive1
           (Js.Num 200));
    vm_compute; reflexivity.
Defined.

(* ------------------------------------------------------------------ *)
(** ** The size of a release *)








